(** * rdga_4k: a verification development of [catbird], [canard] and [get_rate]

    Shallow embedding of [src/rdga_4k/__init__.py].  Python ints are [Z];
    Python floats are the primitive binary64 floats of the Standard Library,
    reasoned about through their [SpecFloat] images.  [get_rate] divides
    Python ints, which CPython rounds correctly to binary64; that quotient is
    written out exactly over [Z] and [Q].  [catbird] and [canard] run in a
    state and exception monad over an abstract numpy [RandomState] (one
    function per kind of draw) and a parameter standing for [norm.cdf];
    [traced] logs the draws, for the statements on their order.

    Layout: the definitions ([PyNum], [Rate], [PyFloat], [Gen], [TestRNG]),
    then the facts they rest on, then the claims ([RateClaims],
    [GenClaims]), then further properties of the three functions
    ([RateExtras], [GenExtras]) with the facts they rest on. *)

From Stdlib Require Import ZArith List Bool Lia QArith Qround PeanoNat Sorted.
From Stdlib Require Import Floats.
Import ListNotations.

Open Scope Z_scope.

(** ** Python's [int / int] and [int(x)] *)

Module PyNum.

(** [n / d] rounded to the nearest integer, ties to even ([d > 0]). *)
Definition round_half_even (n d : Z) : Z :=
  let '(q, r) := Z.div_eucl n d in
  match Z.compare (2 * r) d with
  | Lt => q
  | Gt => q + 1
  | Eq => if Z.even q then q else q + 1
  end.

(** Binary64 values are the multiples of [2^e] with [e >= -1074]; all the
    quotients below are taken at the common scale [2^1074]. *)
Definition emin := 1074.
Definition K := 1126.

(** The exponent [e] of the quantum of [a / b] ([a, b > 0]) in binary64: [53]
    significant bits, so [e = floor (log2 (a / b)) - 52], never below the
    subnormal quantum [-1074]. [Z.log2 (a * 2^K / b) - K] is
    [floor (log2 (a / b))] whenever that is at least [-K]. *)
Definition quantum_exp (a b : Z) : Z :=
  Z.max (Z.log2 (a * 2 ^ K / b) - K - 52) (- emin).

(** The mantissa of the correctly rounded [a / b]: [a / (b * 2^e)] rounded to
    the nearest integer, ties to even. *)
Definition round_ratio (a b : Z) : Z :=
  round_half_even (a * 2 ^ emin) (b * 2 ^ (quantum_exp a b + emin)).

(** [m * 2^e] as a rational. *)
Definition scaled (m e : Z) : Q := (m * 2 ^ (e + emin)) # Z.to_pos (2 ^ emin).

(** CPython's [a / b] on two ints: ZeroDivisionError when [b = 0], the
    correctly rounded binary64 quotient otherwise, OverflowError
    ("integer division result too large for a float") when it rounds to
    [2^1024] or beyond. *)
Definition truediv (a b : Z) : option Q :=
  if b =? 0 then None
  else if a =? 0 then Some 0%Q
  else
    let e := quantum_exp (Z.abs a) (Z.abs b) in
    let m := round_ratio (Z.abs a) (Z.abs b) in
    if 2 ^ (1024 + emin) <=? m * 2 ^ (e + emin) then None
    else Some (if Z.sgn a * Z.sgn b =? 1 then scaled m e else (- scaled m e)%Q).

(** Python's [int(x)] on a finite float: truncation towards zero. *)
Definition to_int (x : Q) : Z :=
  if Qle_bool 0 x then Qfloor x else - Qfloor (- x).

End PyNum.

(** ** [get_rate] *)

Module Rate.

Definition sum (l : list Z) : Z := fold_right Z.add 0 l.

(** Python's [min] on a non-empty list (ValueError on the empty one). *)
Definition min (l : list Z) : option Z :=
  match l with
  | [] => None
  | x :: t => Some (fold_left Z.min t x)
  end.

(** The loop [for j in range(2, k+2): rate_c.append(int(resto/j));
    resto = N - sum(rate_c)], run for [fuel] more iterations from [j]. *)
Fixpoint rate_c_loop (N resto j : Z) (fuel : nat) (rate_c : list Z)
  : option (list Z) :=
  match fuel with
  | O => Some rate_c
  | S fuel' =>
      match PyNum.truediv resto j with
      | None => None
      | Some x =>
          let rate_c' := rate_c ++ [PyNum.to_int x] in
          rate_c_loop N (N - sum rate_c') (j + 1) fuel' rate_c'
      end
  end.

(** Python's [a and b] on two ints: [a] when [a] is falsy ([0]), else [b]. *)
Definition py_and (a b : Z) : Z := if a =? 0 then a else b.

(** [get_rate(N, k, n_min)]: [None] is a raised exception (an
    AssertionError of the checks or of the final assertion, or the
    OverflowError of [resto/j]); the result is the Python list
    [[rate_s, rate_c]]. *)
Definition get_rate (N k n_min : Z) : option (list (list Z)) :=
  if negb (1 <? N) then None
  else if negb (1 <? k) then None
  else
    match rate_c_loop N N 2 (Z.to_nat k) [] with
    | None => None
    | Some rate_c =>
        match PyNum.truediv (sum rate_c) k with
        | None => None
        | Some avg =>
            let rate_s := repeat (PyNum.to_int avg) (Z.to_nat k) in
            match min rate_s, min rate_c with
            | Some ms, Some mc =>
                if py_and ms mc >=? n_min then Some [rate_s; rate_c] else None
            | _, _ => None
            end
        end
    end.

(** The declining plan as the specification words it, for comparison with
    [rate_c_loop]: [floor(remaining / j)] for [j = 2 .. k+1], [remaining]
    starting at [N] and reset to [N] minus the running sum after each step. *)
Fixpoint declining_spec_loop (N remaining j : Z) (fuel : nat) (acc : list Z)
  : list Z :=
  match fuel with
  | O => acc
  | S fuel' =>
      let acc' := acc ++ [Z.div remaining j] in
      declining_spec_loop N (N - sum acc') (j + 1) fuel' acc'
  end.

Definition declining_spec (N k : Z) : list Z :=
  declining_spec_loop N N 2 (Z.to_nat k) [].

(** A list is non-increasing. *)
Definition noninc (l : list Z) : Prop :=
  forall i, (S i < length l)%nat -> nth (S i) l 0 <= nth i l 0.

End Rate.

(** ** Binary64 floats: Python's [float(int)], [int / int] and [int(float)] *)

Module PyFloat.
Import PyNum.

(** The float [(-1)^s * m * 2^e] for a mantissa [0 <= m <= 2^53] as
    produced by [round_ratio]: a zero mantissa is a signed zero, and a
    mantissa rounded up to [2^53] is [2^52] at the next exponent. *)
Definition mk_float (s : bool) (m e : Z) : spec_float :=
  if m =? 0 then S754_zero s
  else if m =? 2 ^ 53 then S754_finite s (Z.to_pos (2 ^ 52)) (e + 1)
  else S754_finite s (Z.to_pos m) e.

(** CPython's [a / b] on two ints, as a float: the rounding of
    [PyNum.truediv]; [0 / b] is [-0.0] when [b < 0]. *)
Definition truediv_float (a b : Z) : option float :=
  if b =? 0 then None
  else if a =? 0 then Some (if b <? 0 then (-0)%float else 0%float)
  else
    let e := quantum_exp (Z.abs a) (Z.abs b) in
    let m := round_ratio (Z.abs a) (Z.abs b) in
    if 2 ^ (1024 + emin) <=? m * 2 ^ (e + emin) then None
    else Some (SF2Prim (mk_float (negb (Z.sgn a * Z.sgn b =? 1)) m e)).

(** [float(n)] for a Python int, as done implicitly by [n * x], [n + x] and
    [math.sqrt(n)]: correctly rounded, OverflowError from [2^1024] on. *)
Definition float_of_int (z : Z) : option float := truediv_float z 1.

(** Python's [int(x)] on a float: truncation towards zero; ValueError on
    [nan] and OverflowError on the infinities. *)
Definition float_to_int (x : float) : option Z :=
  match Prim2SF x with
  | S754_zero _ => Some 0
  | S754_finite s m e =>
      let t := if 0 <=? e then Zpos m * 2 ^ e else Zpos m / 2 ^ (- e) in
      Some (if s then - t else t)
  | _ => None
  end.

(** The order of [SFcompare] on non-NaN floats, as a lexicographic order on
    triples: the class ([-inf], negative, zero, positive, [+inf]), then the
    exponent and the mantissa (reversed for negative numbers). *)
Definition sf_key (f : spec_float) : Z * Z * Z :=
  match f with
  | S754_infinity true => (0, 0, 0)
  | S754_finite true m e => (1, - e, Zneg m)
  | S754_zero _ => (2, 0, 0)
  | S754_finite false m e => (3, e, Zpos m)
  | S754_infinity false => (4, 0, 0)
  | S754_nan => (0, 0, 0)
  end.

Definition key_compare (x y : Z * Z * Z) : comparison :=
  let '(a1, b1, c1) := x in
  let '(a2, b2, c2) := y in
  match Z.compare a1 a2 with
  | Eq => match Z.compare b1 b2 with
          | Eq => Z.compare c1 c2
          | o => o
          end
  | o => o
  end.

(** [m * 2^e] at the common scale [2^4200], below which no exponent of the
    computations here goes. *)
Definition sc (m e : Z) : Z := m * 2 ^ (e + 4200).

End PyFloat.

(** ** [catbird] and [canard] *)

Module Gen.
Import PyNum PyFloat.

(** A state and error monad: the state is the random generator's, [None] is
    a raised exception. *)
Definition M (St A : Type) : Type := St -> option (A * St).

Definition ret {St A} (a : A) : M St A := fun s => Some (a, s).

Definition bind {St A B} (m : M St A) (k : A -> M St B) : M St B :=
  fun s => match m s with
           | None => None
           | Some (a, s') => k a s'
           end.

Definition raise {St A} : M St A := fun _ => None.

(** Python's [assert b]. *)
Definition py_assert {St} (b : bool) : M St unit := if b then ret tt else raise.

(** A Python computation that may raise, without effect on the generator. *)
Definition lift {St A} (o : option A) : M St A :=
  match o with
  | Some a => ret a
  | None => raise
  end.

Declare Scope monad_scope.
Notation "x <- m ;; k" := (bind m (fun x => k))
  (at level 61, m at next level, right associativity) : monad_scope.
Notation "' p <- m ;; k" := (bind m (fun x => match x with p => k end))
  (at level 61, p pattern, m at next level, right associativity) : monad_scope.
Notation "m ;; k" := (bind m (fun _ => k))
  (at level 61, right associativity) : monad_scope.
Open Scope monad_scope.

(** *** Python and numpy helpers *)

(** Python's [l[i]]: a negative index counts from the end, IndexError out
    of range. *)
Definition py_index {A} (l : list A) (i : Z) : option A :=
  let n := Z.of_nat (length l) in
  if (0 <=? i) && (i <? n) then nth_error l (Z.to_nat i)
  else if (- n <=? i) && (i <? 0) then nth_error l (Z.to_nat (n + i))
  else None.

Fixpoint set_nth {A} (l : list A) (n : nat) (v : A) : list A :=
  match l, n with
  | [], _ => []
  | _ :: t, O => v :: t
  | x :: t, S n' => x :: set_nth t n' v
  end.

(** Python's [l[i] = v] (and numpy's, for one index). *)
Definition py_setitem {A} (l : list A) (i : Z) (v : A) : option (list A) :=
  let n := Z.of_nat (length l) in
  if (0 <=? i) && (i <? n) then Some (set_nth l (Z.to_nat i) v)
  else if (- n <=? i) && (i <? 0) then Some (set_nth l (Z.to_nat (n + i)) v)
  else None.

Fixpoint setitems_pairs {A} (l : list A) (ps : list (Z * A)) : option (list A) :=
  match ps with
  | [] => Some l
  | (i, v) :: ps' =>
      match py_setitem l i v with
      | None => None
      | Some l' => setitems_pairs l' ps'
      end
  end.

(** numpy's [result[idx] = vals] for an index array [idx]: one value per
    index, written in order, or a single value broadcast to all of them;
    other shapes do not broadcast (ValueError). *)
Definition setitems {A} (l : list A) (idx : list Z) (vals : list A)
  : option (list A) :=
  if Nat.eqb (length vals) (length idx) then setitems_pairs l (combine idx vals)
  else match vals with
       | [v] => setitems_pairs l (map (fun i => (i, v)) idx)
       | _ => None
       end.

(** Python's [max] on a non-empty list (ValueError on the empty one). *)
Definition py_max (l : list Z) : option Z :=
  match l with
  | [] => None
  | x :: t => Some (fold_left Z.max t x)
  end.

(** [A @ W] for a row [A] and a matrix [W] (a list of rows) with [c]
    columns: entry [j] is the sum of the [A[k] * W[k][j]], accumulated in
    index order. *)
Definition dot (u v : list float) : float :=
  fold_left PrimFloat.add (map (fun '(x, y) => (x * y)%float) (combine u v)) 0%float.

Definition vecmat (c : nat) (A : list float) (W : list (list float)) : list float :=
  map (fun j => dot A (map (fun row => nth j row 0%float) W)) (seq 0 c).

(** The lambda of [discretize = np.vectorize(lambda x, thr: 1 if x < thr else 0)]. *)
Definition discretize (x thr : float) : Z := if (x <? thr)%float then 1 else 0.

(** A function wrapped by [np.vectorize] without [otypes], called on an
    array [xs] (and a scalar): numpy infers the output type by calling it on
    the first element, so an input of size 0 raises ValueError; otherwise
    the function is applied elementwise. *)
Definition vectorize {A B} (f : A -> B) (xs : list A) : option (list B) :=
  match xs with
  | [] => None
  | _ :: _ => Some (map f xs)
  end.

(** [bins = [i / n_cat for i in range(0, n_cat + 1)]] *)
Fixpoint optmap {A B} (f : A -> option B) (l : list A) : option (list B) :=
  match l with
  | [] => Some []
  | x :: t =>
      match f x, optmap f t with
      | Some y, Some ys => Some (y :: ys)
      | _, _ => None
      end
  end.

Definition bins (n_cat : Z) : option (list float) :=
  optmap (fun i => truediv_float (Z.of_nat i) n_cat) (seq 0 (Z.to_nat (n_cat + 1))).

(** numpy's [searchsorted(bins, x, side='left')] on increasing edges: the
    first position whose edge is not below [x]. *)
Fixpoint searchsorted_left (edges : list float) (x : float) : Z :=
  match edges with
  | [] => 0
  | b :: edges' => if (b <? x)%float then 1 + searchsorted_left edges' x else 0
  end.

(** [pd.cut([x], bins, labels=cats)[0]] with the defaults [right=True] and
    [include_lowest=False]: the bins are [(bins[c], bins[c+1]]]; pandas
    takes [ids = searchsorted(bins, x, side='left')] and gives NaN ([None])
    when [x] is NaN, [ids = 0] or [ids = len(bins)], category [ids - 1]
    otherwise; with [cats = range(n_cat)] the label of category [c] is [c]. *)
Definition pd_cut (edges : list float) (x : float) : option Z :=
  let ids := searchsorted_left edges x in
  if PrimFloat.is_nan x || (ids =? 0) || (ids =? Z.of_nat (length edges)) then None
  else Some (ids - 1).

(** An entry of a row [ex] in [np.array(X, dtype=np.int64)]: a category is
    kept; a row holding a NaN is a float64 array, cast without check to
    int64, where NaN becomes the least int64 (x86-64). *)
Definition int64_of_cut (c : option Z) : Z :=
  match c with
  | Some c => c
  | None => - 2 ^ 63
  end.

(** [int(n_feat*(1-eps))]: [1 - eps] is [1.0 - eps], and [n_feat] is
    converted to a float for the product. *)
Definition controlled_size (n_feat : Z) (eps : float) : option Z :=
  match float_of_int n_feat with
  | None => None
  | Some nf => float_to_int (nf * (1 - eps))%float
  end.

(** Python values, for the type checks of [canard]: [PyIndexObj z] is an
    object of another type whose [__index__] method returns the int [z],
    such as [numpy.int64(z)]. *)
#[warnings="-register-all"]
Inductive pyval :=
| PyInt (z : Z)
| PyBool (b : bool)
| PyFloat (f : float)
| PyList (l : list pyval)
| PyIndexObj (z : Z)
| PyNone.

(** [type(v) == int] *)
Definition as_int (v : pyval) : option Z :=
  match v with
  | PyInt z => Some z
  | _ => None
  end.

(** [type(v) == float] *)
Definition as_float (v : pyval) : option float :=
  match v with
  | PyFloat f => Some f
  | _ => None
  end.

(** [isinstance(v, list)] *)
Definition as_list (v : pyval) : option (list pyval) :=
  match v with
  | PyList l => Some l
  | _ => None
  end.

(** The argument of [range(v)]: an int, a bool (a subclass of int), or
    an object with [__index__]; TypeError otherwise. *)
Definition as_index (v : pyval) : option Z :=
  match v with
  | PyInt z => Some z
  | PyBool b => Some (if b then 1 else 0)
  | PyIndexObj z => Some z
  | _ => None
  end.

(** *** numpy's legacy [RandomState] *)

(** The methods the generators call, each as one draw on an abstract
    generator state [St]: [rs_seed z] is the state of [RandomState(z)];
    [rs_normal] one value of [normal(0, 1)] (an array of shape [(r, c)] is
    [r * c] such draws, row by row); [rs_binomial n p] one value of
    [binomial(n, p)] (an array of [size] values is [size] draws);
    [rs_choice n k] the array [choice(n, size=k, replace=False)], or
    [None] for its ValueError; [rs_random_sample] one value of
    [random_sample()]; [rs_beta a b] the one value of [beta(a, b, 1)]. *)
Record RandomState (St : Type) := {
  rs_seed : Z -> St;
  rs_normal : St -> float * St;
  rs_binomial : Z -> float -> St -> Z * St;
  rs_choice : Z -> Z -> St -> option (list Z * St);
  rs_random_sample : St -> float * St;
  rs_beta : float -> float -> St -> float * St
}.

Arguments rs_seed {St}.
Arguments rs_normal {St}.
Arguments rs_binomial {St}.
Arguments rs_choice {St}.
Arguments rs_random_sample {St}.
Arguments rs_beta {St}.

(** The [random_state] argument: [None], an int, a [RandomState] object,
    or anything else. *)
Inductive seed_arg (St : Type) :=
| SeedNone
| SeedInt (z : Z)
| SeedState (s : St)
| SeedOther.

Arguments SeedNone {St}.
Arguments SeedInt {St}.
Arguments SeedState {St}.
Arguments SeedOther {St}.

Section Generators.

Context {St : Type} (rs : RandomState St).

(** scipy's [norm.cdf], elementwise. *)
Context (ncdf : float -> float).

(** [random_state = RandomState()] for [None] (seeded from the operating
    system: the state [entropy]), [RandomState(seed)] for an int (ValueError
    unless [0 <= seed < 2^32]), the object itself for a [RandomState], and
    an AssertionError otherwise. *)
Definition resolve (random_state : seed_arg St) (entropy : St) : option St :=
  match random_state with
  | SeedNone => Some entropy
  | SeedInt z => if (0 <=? z) && (z <? 2 ^ 32) then Some (rs_seed rs z) else None
  | SeedState s => Some s
  | SeedOther => None
  end.

Definition normal : M St float := fun s => Some (rs_normal rs s).
Definition binomial (n : Z) (p : float) : M St Z := fun s => Some (rs_binomial rs n p s).
Definition choice (n k : Z) : M St (list Z) := fun s => rs_choice rs n k s.
Definition random_sample : M St float := fun s => Some (rs_random_sample rs s).
Definition beta (a b : float) : M St float := fun s => Some (rs_beta rs a b s).

Fixpoint repeatM {A} (n : nat) (m : M St A) : M St (list A) :=
  match n with
  | O => ret []
  | S n' => x <- m ;; xs <- repeatM n' m ;; ret (x :: xs)
  end.

Fixpoint mapM {A B} (f : A -> M St B) (l : list A) : M St (list B) :=
  match l with
  | [] => ret []
  | x :: l' => y <- f x ;; ys <- mapM f l' ;; ret (y :: ys)
  end.

(** [random_state.normal(0, 1, (r, c))]: ValueError on a negative
    dimension, before any draw. *)
Definition normal_matrix (r c : Z) : M St (list (list float)) :=
  if (r <? 0) || (c <? 0) then raise
  else repeatM (Z.to_nat r) (repeatM (Z.to_nat c) normal).

(** One example of [catbird] (lines 65 to 70): [fs = feat_sig[i]]. *)
Definition catbird_example (n_feat fs : Z) (W : list (list float)) (idx : list Z)
    (lmbd eps : float) : M St (list Z) :=
  A <- normal_matrix 1 fs ;;
  let A_W := vecmat (Z.to_nat fs) (hd [] A) W in
  sq <- lift (float_of_int fs) ;;
  let A_W_norm := map (fun v => ncdf (v / PrimFloat.sqrt sq)%float) A_W in
  result <- repeatM (Z.to_nat n_feat) (binomial 1 eps) ;;
  vals <- lift (vectorize (fun x => discretize x lmbd) A_W_norm) ;;
  lift (setitems result idx vals).

(** [for j in range(rate[i])], label [q]. *)
Fixpoint catbird_examples (n_feat fs : Z) (W : list (list float)) (idx : list Z)
    (lmbd eps : float) (q : Z) (n : nat) (X : list (list Z)) (y : list Z)
    : M St (list (list Z) * list Z) :=
  match n with
  | O => ret (X, y)
  | S n' =>
      result <- catbird_example n_feat fs W idx lmbd eps ;;
      catbird_examples n_feat fs W idx lmbd eps q n' (X ++ [result]) (y ++ [q])
  end.

(** [for i in range(len(rate))], from cluster [i] with label counter [q]. *)
Fixpoint catbird_clusters (n_feat : Z) (feat_sig : list Z) (lmbd eps : float)
    (i : Z) (rate : list Z) (q : Z) (X : list (list Z)) (y : list Z)
    : M St (list (list Z) * list Z) :=
  match rate with
  | [] => ret (X, y)
  | r :: rate' =>
      fs <- lift (py_index feat_sig i) ;;
      W <- normal_matrix fs fs ;;
      idx <- choice n_feat fs ;;
      '(X', y') <- catbird_examples n_feat fs W idx lmbd eps (q + 1) (Z.to_nat r) X y ;;
      catbird_clusters n_feat feat_sig lmbd eps (i + 1) rate' (q + 1) X' y'
  end.

(** The body of [catbird] after the random state is set: its checks
    (lines 41 to 49; the types of [n_feat], [rate], [feat_sig], [lmbd] and
    [eps] are those of the arguments here), then the clusters. *)
Definition catbird_body (n_feat : Z) (feat_sig rate : list Z) (lmbd eps : float)
    : M St (list (list Z) * list Z) :=
  py_assert (1 <? n_feat) ;;
  mx <- lift (py_max feat_sig) ;;
  py_assert (mx <=? n_feat) ;;
  py_assert ((0 <=? lmbd)%float && (lmbd <=? 1)%float) ;;
  py_assert ((0 <=? eps)%float && (eps <=? 1)%float) ;;
  catbird_clusters n_feat feat_sig lmbd eps 0 rate (-1) [] [].

(** [catbird(n_feat, feat_sig, rate, lmbd, eps, random_state)]: the pair
    [(X, y)] and the final generator state. *)
Definition catbird (n_feat : Z) (feat_sig rate : list Z) (lmbd eps : float)
    (random_state : seed_arg St) (entropy : St)
    : option ((list (list Z) * list Z) * St) :=
  match resolve random_state entropy with
  | None => None
  | Some s => catbird_body n_feat feat_sig rate lmbd eps s
  end.

(** [for i in idx: a[i] = 1 + lmbd * random_sample(); b[i] = ...]; the int
    [lmbd] is converted to a float for each product. *)
Fixpoint set_shapes (lmbd : Z) (idx : list Z) (a b : list float)
    : M St (list float * list float) :=
  match idx with
  | [] => ret (a, b)
  | i :: idx' =>
      u <- random_sample ;;
      lu <- lift (float_of_int lmbd) ;;
      a' <- lift (py_setitem a i (1 + lu * u)%float) ;;
      v <- random_sample ;;
      lv <- lift (float_of_int lmbd) ;;
      b' <- lift (py_setitem b i (1 + lv * v)%float) ;;
      set_shapes lmbd idx' a' b'
  end.

(** One row [ex] of [canard] (line 140), before the int64 cast. *)
Definition canard_example (n_feat : Z) (a b edges : list float)
    : M St (list (option Z)) :=
  mapM (fun j => x <- beta (nth j a 1%float) (nth j b 1%float) ;; ret (pd_cut edges x))
       (seq 0 (Z.to_nat n_feat)).

(** [for _ in range(m)], label [q]. *)
Fixpoint canard_examples (n_feat : Z) (a b edges : list float) (q : Z) (n : nat)
    (X : list (list (option Z))) (y : list Z)
    : M St (list (list (option Z)) * list Z) :=
  match n with
  | O => ret (X, y)
  | S n' =>
      ex <- canard_example n_feat a b edges ;;
      canard_examples n_feat a b edges q n' (X ++ [ex]) (y ++ [q])
  end.

(** [for m in rate], with label counter [q]. *)
Fixpoint canard_clusters (n_feat lmbd : Z) (eps : float) (edges : list float)
    (rate : list pyval) (q : Z) (X : list (list (option Z))) (y : list Z)
    : M St (list (list (option Z)) * list Z) :=
  match rate with
  | [] => ret (X, y)
  | m :: rate' =>
      size <- lift (controlled_size n_feat eps) ;;
      idx <- choice n_feat size ;;
      '(a, b) <- set_shapes lmbd idx (repeat 1%float (Z.to_nat n_feat))
                                     (repeat 1%float (Z.to_nat n_feat)) ;;
      k <- lift (as_index m) ;;
      '(X', y') <- canard_examples n_feat a b edges (q + 1) (Z.to_nat k) X y ;;
      canard_clusters n_feat lmbd eps edges rate' (q + 1) X' y'
  end.

(** The body of [canard] after the random state is set: its checks (lines
    112 to 120), the bins, the clusters and the int64 cast. *)
Definition canard_body (n_feat n_cat rate lmbd eps : pyval)
    : M St (list (list Z) * list Z) :=
  nf <- lift (as_int n_feat) ;;
  py_assert (1 <? nf) ;;
  nc <- lift (as_int n_cat) ;;
  py_assert (1 <? nc) ;;
  r <- lift (as_list rate) ;;
  lm <- lift (as_int lmbd) ;;
  py_assert (1 <=? lm) ;;
  e <- lift (as_float eps) ;;
  py_assert ((0 <=? e)%float && (e <=? 1)%float) ;;
  edges <- lift (bins nc) ;;
  '(X, y) <- canard_clusters nf lm e edges r (-1) [] [] ;;
  ret (map (map int64_of_cut) X, y).

(** [canard(n_feat, n_cat, rate, lmbd, eps, random_state)] on Python
    values. *)
Definition canard_py (n_feat n_cat rate lmbd eps : pyval)
    (random_state : seed_arg St) (entropy : St)
    : option ((list (list Z) * list Z) * St) :=
  match resolve random_state entropy with
  | None => None
  | Some s => canard_body n_feat n_cat rate lmbd eps s
  end.

(** [canard] called with ints, a list of ints and a float. *)
Definition canard (n_feat n_cat : Z) (rate : list Z) (lmbd : Z) (eps : float)
    (random_state : seed_arg St) (entropy : St)
    : option ((list (list Z) * list Z) * St) :=
  canard_py (PyInt n_feat) (PyInt n_cat) (PyList (map PyInt rate)) (PyInt lmbd)
    (PyFloat eps) random_state entropy.

End Generators.

(** *** The draws, logged *)

Inductive draw :=
| DNormal
| DBinomial (n : Z) (p : float)
| DChoice (n k : Z)
| DUniform
| DBeta (a b : float).

(** The generator [rs] with a log of the calls made on it. *)
Definition traced {St} (rs : RandomState St) : RandomState (St * list draw) := {|
  rs_seed z := (rs_seed rs z, []);
  rs_normal '(s, log) :=
    let '(x, s') := rs_normal rs s in (x, (s', log ++ [DNormal]));
  rs_binomial n p '(s, log) :=
    let '(x, s') := rs_binomial rs n p s in (x, (s', log ++ [DBinomial n p]));
  rs_choice n k '(s, log) :=
    match rs_choice rs n k s with
    | None => None
    | Some (l, s') => Some (l, (s', log ++ [DChoice n k]))
    end;
  rs_random_sample '(s, log) :=
    let '(x, s') := rs_random_sample rs s in (x, (s', log ++ [DUniform]));
  rs_beta a b '(s, log) :=
    let '(x, s') := rs_beta rs a b s in (x, (s', log ++ [DBeta a b]))
|}.

Inductive draw_kind := KNormal | KBinomial | KChoice | KUniform | KBeta.

Definition kind (d : draw) : draw_kind :=
  match d with
  | DNormal => KNormal
  | DBinomial _ _ => KBinomial
  | DChoice _ _ => KChoice
  | DUniform => KUniform
  | DBeta _ _ => KBeta
  end.

(** The order of draws as the specification gives it. [catbird], per
    cluster: the [fs * fs] normals of [W], the index subset, then per
    example the [fs] normals of [A] and the [n_feat] noise bits. *)
Fixpoint catbird_schedule (n_feat : Z) (eps : float) (feat_sig rate : list Z)
  : list draw :=
  match feat_sig, rate with
  | fs :: feat_sig', r :: rate' =>
      repeat DNormal (Z.to_nat (fs * fs)) ++ [DChoice n_feat fs]
      ++ concat (repeat (repeat DNormal (Z.to_nat fs)
                         ++ repeat (DBinomial 1 eps) (Z.to_nat n_feat)) (Z.to_nat r))
      ++ catbird_schedule n_feat eps feat_sig' rate'
  | _, _ => []
  end.

(** [canard], per cluster: the index subset of [size] controlled features,
    their two shape parameters each, then per example one Beta draw per
    feature. *)
Fixpoint canard_schedule (n_feat size : Z) (rate : list Z) : list draw_kind :=
  match rate with
  | [] => []
  | m :: rate' =>
      [KChoice] ++ repeat KUniform (2 * Z.to_nat size)
      ++ repeat KBeta (Z.to_nat m * Z.to_nat n_feat)
      ++ canard_schedule n_feat size rate'
  end.

(** The labels [y] as the specification gives them: [rate[i]] copies of
    [i], in order. *)
Fixpoint blocks (q : Z) (rate : list Z) : list Z :=
  match rate with
  | [] => []
  | r :: rate' => repeat q (Z.to_nat r) ++ blocks (q + 1) rate'
  end.

(** What numpy's [choice(n, size=k, replace=False)] returns for
    [0 <= k <= n]: [k] indices of [range(n)]. *)
Definition choice_ok {St} (rs : RandomState St) : Prop :=
  forall n k s, 0 <= k <= n ->
  exists l s', rs_choice rs n k s = Some (l, s') /\
               length l = Z.to_nat k /\ Forall (fun i => 0 <= i < n) l.

(** A [random_state] argument the generators accept: [None], an int in
    [[0, 2^32)] or a [RandomState]. *)
Definition valid_seed {St} (r : seed_arg St) : Prop :=
  match r with
  | SeedInt z => 0 <= z < 2 ^ 32
  | SeedOther => False
  | _ => True
  end.

(** *** Properties of runs, as the specification states them *)

(** [m], run on the traced generator from any state, succeeds, appends a
    log [L] to the log, with [map proj L = K] and every draw of [L]
    satisfying [G], and returns a value satisfying [P]. *)
Definition runs_traced {St T A} (proj : draw -> T) (G : draw -> Prop)
    (m : M (St * list draw) A) (K : list T) (P : A -> Prop) : Prop :=
  forall s log, exists a s' L,
    m (s, log) = Some (a, (s', log ++ L)) /\ map proj L = K /\ Forall G L /\ P a.

(** A draw of [canard] whose subsets have [size] elements: the subset is
    drawn by [choice(n_feat, size)], and when [size] is 0 every Beta draw
    has the shapes [(1, 1)]. *)
Definition canard_draw_ok (n_feat size : Z) (d : draw) : Prop :=
  match d with
  | DChoice n k => n = n_feat /\ k = size
  | DBeta a b => size = 0 -> a = 1%float /\ b = 1%float
  | _ => True
  end.

(** The dataset [(X, y)] as section 8 of the specification describes it:
    [len(X) = len(y) = sum(rate)], rows of length [n_feat], [y]
    non-decreasing with values in [0 .. len(rate)-1], [i] appearing
    [rate[i]] times. *)
Definition dataset_shape (n_feat : Z) (rate : list Z) (X : list (list Z)) (y : list Z)
    : Prop :=
  Z.of_nat (length X) = Rate.sum rate /\ Z.of_nat (length y) = Rate.sum rate /\
  Forall (fun row => length row = Z.to_nat n_feat) X /\
  StronglySorted Z.le y /\
  Forall (fun v => 0 <= v < Z.of_nat (length rate)) y /\
  (forall i, (i < length rate)%nat -> count_occ Z.eq_dec y (Z.of_nat i) = Z.to_nat (nth i rate 0)).

(** The checks of [canard] (lines 112 to 120) as one boolean: int
    [n_feat > 1], int [n_cat > 1], a list [rate], int [lmbd >= 1] and a
    float [eps] in [[0, 1]]. *)
Definition canard_args_ok (n_feat n_cat rate lmbd eps : pyval) : bool :=
  match n_feat, n_cat, rate, lmbd, eps with
  | PyInt nf, PyInt nc, PyList _, PyInt lm, PyFloat e =>
      (1 <? nf) && (1 <? nc) && (1 <=? lm) && (0 <=? e)%float && (e <=? 1)%float
  | _, _, _, _, _ => false
  end.

End Gen.

(** ** A concrete generator for evaluating the model

    The state counts the draws; normals and uniforms are [0.5], every
    binomial draw is [0], [choice n k] is [[0, ..., k-1]], and every Beta
    draw is [beta_val]. *)

Module TestRNG.
Import Gen.

Definition fixed (beta_val : float) : RandomState Z := {|
  rs_seed z := z;
  rs_normal s := (0.5%float, s + 1);
  rs_binomial n p s := (0, s + 1);
  rs_choice n k s :=
    if (0 <=? k) && (k <=? n) then Some (map Z.of_nat (seq 0 (Z.to_nat k)), s + 1)
    else None;
  rs_random_sample s := (0.5%float, s + 1);
  rs_beta a b s := (beta_val, s + 1)
|}.

(** A stand-in for [norm.cdf]. *)
Definition cdf_half (x : float) : float := 0.5%float.

End TestRNG.

(** * Proofs *)

Module PyNumFacts.
Import PyNum.

Lemma div_eucl_split n d : Z.div_eucl n d = (n / d, n mod d).
Proof. unfold Z.div, Z.modulo. destruct (Z.div_eucl n d); reflexivity. Qed.

(** Floors of fractions are monotone. *)
Lemma div_mono_frac n1 d1 n2 d2 :
  0 < d1 -> 0 < d2 -> n1 * d2 <= n2 * d1 -> n1 / d1 <= n2 / d2.
Proof.
  intros H1 H2 Hle.
  pose proof (Z.div_mod n1 d1 ltac:(lia)) as E1.
  pose proof (Z.div_mod n2 d2 ltac:(lia)) as E2.
  pose proof (Z.mod_pos_bound n1 d1 H1).
  pose proof (Z.mod_pos_bound n2 d2 H2).
  set (q1 := n1 / d1) in *. set (q2 := n2 / d2) in *.
  set (r1 := n1 mod d1) in *. set (r2 := n2 mod d2) in *.
  destruct (Z.le_gt_cases q1 q2) as [|Hgt]; [assumption|exfalso].
  assert (q2 + 1 <= q1) by lia.
  assert (n2 < q1 * d2) by nia.
  assert (n2 * d1 < q1 * d2 * d1) by nia.
  assert (q1 * d1 * d2 <= n1 * d2) by nia.
  nia.
Qed.

Lemma rhe_bounds n d : 0 < d -> n / d <= round_half_even n d <= n / d + 1.
Proof.
  intros Hd. unfold round_half_even. rewrite div_eucl_split.
  destruct (Z.compare _ _); [destruct (Z.even _)|..]; lia.
Qed.

Lemma rhe_mono n1 d1 n2 d2 :
  0 < d1 -> 0 < d2 -> n1 * d2 <= n2 * d1 ->
  round_half_even n1 d1 <= round_half_even n2 d2.
Proof.
  intros H1 H2 Hle.
  pose proof (div_mono_frac _ _ _ _ H1 H2 Hle) as Hq.
  pose proof (rhe_bounds n1 d1 H1). pose proof (rhe_bounds n2 d2 H2).
  destruct (Z.eq_dec (n1 / d1) (n2 / d2)) as [Heq|Hne]; [|lia].
  pose proof (Z.div_mod n1 d1 ltac:(lia)) as E1.
  pose proof (Z.div_mod n2 d2 ltac:(lia)) as E2.
  pose proof (Z.mod_pos_bound n1 d1 H1).
  pose proof (Z.mod_pos_bound n2 d2 H2).
  unfold round_half_even. rewrite !div_eucl_split. rewrite <- Heq in *.
  set (q := n1 / d1) in *.
  set (r1 := n1 mod d1) in *. set (r2 := n2 mod d2) in *.
  assert (Hr : r1 * d2 <= r2 * d1) by nia.
  destruct (Z.compare_spec (2 * r1) d1); destruct (Z.compare_spec (2 * r2) d2);
    try (destruct (Z.even q)); try lia; nia.
Qed.

Lemma rhe_exact c d : 0 < d -> round_half_even (c * d) d = c.
Proof.
  intros Hd. unfold round_half_even. rewrite div_eucl_split.
  rewrite Z.div_mul, Z_mod_mult by lia. destruct (Z.compare_spec (2 * 0) d); lia.
Qed.

Lemma pow2_pos e : 0 <= e -> 0 < 2 ^ e.
Proof. intros. apply Z.pow_pos_nonneg; lia. Qed.

(** The exponent is monotone in [a / b]. *)
Lemma quantum_exp_mono a1 b1 a2 b2 :
  0 < b1 -> 0 < b2 -> a1 * b2 <= a2 * b1 -> quantum_exp a1 b1 <= quantum_exp a2 b2.
Proof.
  intros H1 H2 Hle. unfold quantum_exp.
  assert (a1 * 2 ^ K / b1 <= a2 * 2 ^ K / b2).
  { apply div_mono_frac; try lia.
    pose proof (pow2_pos K ltac:(unfold K; lia)). nia. }
  pose proof (Z.log2_le_mono _ _ H). lia.
Qed.

(** Lower bound of [a / b] from its exponent. *)
Lemma log2_lower a b :
  0 < b -> 0 < Z.log2 (a * 2 ^ K / b) ->
  b * 2 ^ (Z.log2 (a * 2 ^ K / b)) <= a * 2 ^ K.
Proof.
  intros Hb Ht.
  set (f := a * 2 ^ K / b) in *.
  assert (0 < f) by (destruct (Z.lt_ge_cases 0 f); [assumption|];
    rewrite Z.log2_nonpos in Ht; lia).
  pose proof (Z.log2_spec f H) as [Hs _].
  pose proof (Z.mul_div_le (a * 2 ^ K) b Hb). fold f in H0. nia.
Qed.

(** Upper bound of [a / b] from its exponent. *)
Lemma log2_upper a b :
  0 < b -> 0 <= a ->
  a * 2 ^ K < b * 2 ^ (Z.log2 (a * 2 ^ K / b) + 1).
Proof.
  intros Hb Ha.
  set (f := a * 2 ^ K / b).
  assert (Hf : a * 2 ^ K < b * (f + 1)).
  { pose proof (Z.div_mod (a * 2 ^ K) b ltac:(lia)).
    pose proof (Z.mod_pos_bound (a * 2 ^ K) b Hb). unfold f. nia. }
  assert (0 <= f) by (apply Z.div_pos; [pose proof (pow2_pos K ltac:(unfold K; lia)); nia | lia]).
  destruct (Z.eq_dec f 0) as [E|E].
  - rewrite E in *. replace (Z.log2 0 + 1) with 1 by reflexivity. lia.
  - pose proof (Z.log2_spec f ltac:(lia)) as [_ Hs].
    rewrite Z.add_1_r.
    assert (f + 1 <= 2 ^ Z.succ (Z.log2 f)) by lia.
    apply Z.lt_le_trans with (b * (f + 1)); [lia|].
    apply Z.mul_le_mono_nonneg_l; lia.
Qed.


Lemma K_emin : K = emin + 52.
Proof. reflexivity. Qed.

Lemma emin_pos : 0 < emin.
Proof. unfold emin; lia. Qed.

Lemma pow2_split x y : 0 <= x -> 0 <= y -> 2 ^ (x + y) = 2 ^ x * 2 ^ y.
Proof. intros. apply Z.pow_add_r; lia. Qed.

(** The mantissa of [a / b] is at most [2^53]. *)
Lemma round_ratio_le a b :
  0 < a -> 0 < b -> round_ratio a b <= 2 ^ 53.
Proof.
  intros Ha Hb. unfold round_ratio.
  pose proof (log2_upper a b Hb ltac:(lia)) as Hu.
  set (t := Z.log2 (a * 2 ^ K / b)) in *.
  pose proof (Z.log2_nonneg (a * 2 ^ K / b)) as Ht. fold t in Ht.
  assert (Hq : quantum_exp a b = Z.max (t - K - 52) (- emin)) by reflexivity.
  rewrite Hq. pose proof K_emin. pose proof emin_pos.
  replace (2 ^ 53) with (round_half_even (2 ^ 53 * 1) 1)
    by (rewrite rhe_exact; lia).
  assert (HK : 2 ^ K = 2 ^ emin * 2 ^ 52)
    by (rewrite H; apply pow2_split; lia).
  rewrite HK in Hu.
  pose proof (pow2_pos emin ltac:(lia)).
  apply rhe_mono; [apply Z.mul_pos_pos; [lia|apply pow2_pos; lia]|lia|].
  destruct (Z.le_gt_cases (- emin) (t - K - 52)).
  - rewrite Z.max_l by lia.
    replace (t - K - 52 + emin) with (t - 104) by lia.
    replace (t + 1) with ((t - 104) + 105) in Hu by lia.
    rewrite pow2_split in Hu by lia.
    pose proof (pow2_pos (t - 104) ltac:(lia)).
    change (2 ^ 105) with (2 ^ 52 * 2 ^ 53) in Hu. nia.
  - rewrite Z.max_r by lia. replace (- emin + emin) with 0 by lia.
    assert (2 ^ (t + 1) <= 2 ^ 104) by (apply Z.pow_le_mono_r; lia).
    change (2 ^ 104) with (2 ^ 52 * 2 ^ 52) in H3.
    change (2 ^ 0) with 1. change (2 ^ 53) with (2 * 2 ^ 52). nia.
Qed.

(** Above the subnormal range the mantissa of [a / b] is at least [2^52]. *)
Lemma round_ratio_ge a b :
  0 < a -> 0 < b -> - emin < quantum_exp a b -> 2 ^ 52 <= round_ratio a b.
Proof.
  intros Ha Hb Hq. unfold round_ratio.
  set (t := Z.log2 (a * 2 ^ K / b)) in *.
  assert (Hq' : quantum_exp a b = Z.max (t - K - 52) (- emin)) by reflexivity.
  rewrite Hq' in *. pose proof K_emin. pose proof emin_pos.
  rewrite Z.max_l in * by lia.
  pose proof (log2_lower a b Hb ltac:(fold t; lia)) as Hl. fold t in Hl.
  assert (HK : 2 ^ K = 2 ^ emin * 2 ^ 52)
    by (rewrite H; apply pow2_split; lia).
  rewrite HK in Hl.
  pose proof (pow2_pos emin ltac:(lia)).
  replace (2 ^ 52) with (round_half_even (2 ^ 52 * 1) 1) at 1
    by (rewrite rhe_exact; lia).
  apply rhe_mono; [lia|apply Z.mul_pos_pos; [lia|apply pow2_pos; lia]|].
  replace (t - K - 52 + emin) with (t - 104) by lia.
  replace t with ((t - 104) + 104) in Hl by lia.
  rewrite pow2_split in Hl by lia.
  pose proof (pow2_pos (t - 104) ltac:(lia)).
  change (2 ^ 104) with (2 ^ 52 * 2 ^ 52) in Hl. nia.
Qed.

(** The rounded quotient [m * 2^e] is monotone in [a / b]. *)
Lemma value_mono a1 b1 a2 b2 :
  0 < a1 -> 0 < a2 -> 0 < b1 -> 0 < b2 -> a1 * b2 <= a2 * b1 ->
  round_ratio a1 b1 * 2 ^ (quantum_exp a1 b1 + emin)
  <= round_ratio a2 b2 * 2 ^ (quantum_exp a2 b2 + emin).
Proof.
  intros Ha1 Ha2 Hb1 Hb2 Hle.
  pose proof (quantum_exp_mono a1 b1 a2 b2 Hb1 Hb2 Hle) as He.
  assert (Hlo : forall a b, - emin <= quantum_exp a b)
    by (intros; unfold quantum_exp; lia).
  pose proof (Hlo a1 b1). pose proof (Hlo a2 b2).
  pose proof emin_pos.
  destruct (Z.eq_dec (quantum_exp a1 b1) (quantum_exp a2 b2)) as [E|E].
  - rewrite E. apply Z.mul_le_mono_nonneg_r; [apply Z.lt_le_incl, pow2_pos; lia|].
    unfold round_ratio. rewrite E.
    pose proof (pow2_pos emin ltac:(lia)).
    pose proof (pow2_pos (quantum_exp a2 b2 + emin) ltac:(lia)).
    apply rhe_mono; try nia.
  - set (e1 := quantum_exp a1 b1) in *. set (e2 := quantum_exp a2 b2) in *.
    pose proof (round_ratio_le a1 b1 Ha1 Hb1).
    pose proof (round_ratio_ge a2 b2 Ha2 Hb2 ltac:(fold e2; lia)).
    assert (0 <= round_ratio a1 b1).
    { unfold round_ratio. pose proof (pow2_pos emin ltac:(lia)).
      pose proof (pow2_pos (quantum_exp a1 b1 + emin) ltac:(lia)).
      pose proof (rhe_bounds (a1 * 2 ^ emin) (b1 * 2 ^ (quantum_exp a1 b1 + emin)) ltac:(nia)).
      pose proof (Z.div_pos (a1 * 2 ^ emin) (b1 * 2 ^ (quantum_exp a1 b1 + emin)) ltac:(nia) ltac:(nia)).
      lia. }
    replace (e2 + emin) with ((e1 + emin) + (e2 - e1 - 1) + 1) by lia.
    rewrite (pow2_split ((e1 + emin) + (e2 - e1 - 1)) 1) by lia.
    rewrite (pow2_split (e1 + emin) (e2 - e1 - 1)) by lia.
    pose proof (pow2_pos (e1 + emin) ltac:(lia)).
    pose proof (pow2_pos (e2 - e1 - 1) ltac:(lia)).
    change (2 ^ 1) with 2.
    set (P := 2 ^ (e1 + emin)) in *. set (Q := 2 ^ (e2 - e1 - 1)) in *.
    set (m1 := round_ratio a1 b1) in *. set (m2 := round_ratio a2 b2) in *.
    apply Z.le_trans with (2 ^ 53 * P); [apply Z.mul_le_mono_nonneg_r; lia|].
    apply Z.le_trans with (m2 * (P * 2)).
    { change (2 ^ 53) with (2 ^ 52 * 2). nia. }
    nia.
Qed.

Lemma round_ratio_nonneg a b : 0 <= a -> 0 < b -> 0 <= round_ratio a b.
Proof.
  intros Ha Hb. unfold round_ratio.
  assert (Hlo : - emin <= quantum_exp a b) by (unfold quantum_exp; lia).
  pose proof emin_pos.
  pose proof (pow2_pos emin ltac:(lia)).
  pose proof (pow2_pos (quantum_exp a b + emin) ltac:(lia)).
  pose proof (rhe_bounds (a * 2 ^ emin) (b * 2 ^ (quantum_exp a b + emin)) ltac:(nia)).
  pose proof (Z.div_pos (a * 2 ^ emin) (b * 2 ^ (quantum_exp a b + emin)) ltac:(nia) ltac:(nia)).
  lia.
Qed.

Lemma pos_2emin : Zpos (Z.to_pos (2 ^ emin)) = 2 ^ emin.
Proof. reflexivity. Qed.

Lemma scaled_le m1 e1 m2 e2 :
  m1 * 2 ^ (e1 + emin) <= m2 * 2 ^ (e2 + emin) -> (scaled m1 e1 <= scaled m2 e2)%Q.
Proof.
  intros H. unfold scaled, Qle. cbn [Qnum Qden]. rewrite pos_2emin.
  pose proof (pow2_pos emin ltac:(pose proof emin_pos; lia)). nia.
Qed.

Lemma scaled_nonneg m e : 0 <= m -> - emin <= e -> (0 <= scaled m e)%Q.
Proof.
  intros Hm He. unfold scaled, Qle. cbn [Qnum Qden].
  pose proof (pow2_pos (e + emin) ltac:(lia)). nia.
Qed.

Lemma truediv_pos a b :
  0 < a -> 0 < b ->
  truediv a b =
  if 2 ^ (1024 + emin) <=? round_ratio a b * 2 ^ (quantum_exp a b + emin)
  then None else Some (scaled (round_ratio a b) (quantum_exp a b)).
Proof.
  intros Ha Hb. unfold truediv.
  rewrite (proj2 (Z.eqb_neq b 0)) by lia. rewrite (proj2 (Z.eqb_neq a 0)) by lia.
  rewrite !Z.abs_eq by lia. rewrite Z.sgn_pos, Z.sgn_pos by lia. reflexivity.
Qed.

Lemma truediv_nonneg a b x : 0 <= a -> 0 < b -> truediv a b = Some x -> (0 <= x)%Q.
Proof.
  intros Ha Hb Hx. destruct (Z.eq_dec a 0) as [->|Hne].
  - unfold truediv in Hx. rewrite (proj2 (Z.eqb_neq b 0)) in Hx by lia.
    simpl in Hx. injection Hx as <-. apply Qle_refl.
  - rewrite truediv_pos in Hx by lia.
    destruct (_ <=? _); [discriminate|]. injection Hx as <-.
    apply scaled_nonneg; [apply round_ratio_nonneg; lia|unfold quantum_exp; lia].
Qed.

(** Python's [a / b] on non-negative ints is monotone in [a / b]. *)
Lemma truediv_mono a1 b1 a2 b2 x1 x2 :
  0 <= a1 -> 0 <= a2 -> 0 < b1 -> 0 < b2 -> a1 * b2 <= a2 * b1 ->
  truediv a1 b1 = Some x1 -> truediv a2 b2 = Some x2 -> (x1 <= x2)%Q.
Proof.
  intros Ha1 Ha2 Hb1 Hb2 Hle H1 H2.
  destruct (Z.eq_dec a1 0) as [->|Hne1].
  - unfold truediv in H1. rewrite (proj2 (Z.eqb_neq b1 0)) in H1 by lia.
    simpl in H1. injection H1 as <-. exact (truediv_nonneg _ _ _ Ha2 Hb2 H2).
  - assert (0 < a2) by nia.
    rewrite truediv_pos in H1, H2 by lia.
    destruct (_ <=? _) in H1; [discriminate|]. destruct (_ <=? _) in H2; [discriminate|].
    injection H1 as <-. injection H2 as <-.
    apply scaled_le. apply value_mono; lia.
Qed.

Lemma to_int_nonneg_eq x : (0 <= x)%Q -> to_int x = Qfloor x.
Proof.
  intros H. unfold to_int. destruct (Qle_bool 0 x) eqn:E; [reflexivity|].
  rewrite (proj2 (Qle_bool_iff 0 x) H) in E. discriminate.
Qed.

Lemma to_int_mono x y : (0 <= x)%Q -> (x <= y)%Q -> to_int x <= to_int y.
Proof.
  intros Hx Hxy. rewrite !to_int_nonneg_eq; [|eapply Qle_trans; eassumption|assumption].
  apply Qfloor_resp_le. assumption.
Qed.

Lemma to_int_nonneg x : (0 <= x)%Q -> 0 <= to_int x.
Proof.
  intros Hx. rewrite to_int_nonneg_eq by assumption.
  change 0 with (Qfloor 0). apply Qfloor_resp_le. assumption.
Qed.

Lemma qfloor_scaled m e : Qfloor (scaled m e) = m * 2 ^ (e + emin) / 2 ^ emin.
Proof. unfold scaled, Qfloor. rewrite pos_2emin. reflexivity. Qed.

(** A power of two below [2^1024] is a float. *)
Lemma truediv_pow2 p :
  0 <= p <= 1023 -> exists y, truediv (2 ^ p) 1 = Some y /\ to_int y = 2 ^ p.
Proof.
  intros Hp. pose proof emin_pos.
  assert (Hq : quantum_exp (2 ^ p) 1 = p - 52).
  { unfold quantum_exp. rewrite Z.div_1_r, <- Z.pow_add_r by (unfold K; lia).
    rewrite Z.log2_pow2 by (unfold K; lia). unfold emin. lia. }
  assert (Hm : round_ratio (2 ^ p) 1 = 2 ^ 52).
  { unfold round_ratio. rewrite Hq.
    replace (2 ^ p * 2 ^ emin) with (2 ^ 52 * (1 * 2 ^ (p - 52 + emin))).
    - apply rhe_exact. rewrite Z.mul_1_l. apply pow2_pos. unfold emin in *; lia.
    - rewrite Z.mul_1_l, <- !Z.pow_add_r by (unfold emin in *; lia). f_equal; lia. }
  rewrite truediv_pos by (try apply pow2_pos; lia).
  rewrite Hq, Hm.
  replace (2 ^ 52 * 2 ^ (p - 52 + emin)) with (2 ^ (p + emin))
    by (rewrite <- Z.pow_add_r by (unfold emin in *; lia); f_equal; lia).
  rewrite (proj2 (Z.leb_gt _ _)) by (apply Z.pow_lt_mono_r; lia).
  eexists; split; [reflexivity|].
  rewrite to_int_nonneg_eq by (apply scaled_nonneg; [lia|unfold emin in *; lia]).
  rewrite qfloor_scaled.
  replace (2 ^ 52 * 2 ^ (p - 52 + emin)) with (2 ^ p * 2 ^ emin)
    by (rewrite <- !Z.pow_add_r by (unfold emin in *; lia); f_equal; lia).
  apply Z.div_mul. pose proof (pow2_pos emin ltac:(lia)). lia.
Qed.

(** [int(a / j)] never exceeds [a] for [a >= 0] and [j >= 2]. *)
Lemma truediv_to_int_le a j x :
  0 <= a -> 2 <= j -> truediv a j = Some x -> to_int x <= a.
Proof.
  intros Ha Hj Hx. pose proof emin_pos.
  destruct (Z.eq_dec a 0) as [->|Hne].
  - unfold truediv in Hx. rewrite (proj2 (Z.eqb_neq j 0)) in Hx by lia.
    simpl in Hx. injection Hx as <-. reflexivity.
  - destruct (Z.lt_ge_cases a (2 ^ 1024)) as [Hsmall|Hbig].
    + set (p := Z.log2 a).
      assert (Hp : 0 <= p <= 1023).
      { split; [apply Z.log2_nonneg|].
        apply Z.lt_succ_r. apply Z.log2_lt_pow2; lia. }
      destruct (truediv_pow2 p Hp) as (y & Hy & Hyv).
      pose proof (Z.log2_spec a ltac:(lia)) as [_ Hs]. fold p in Hs.
      rewrite Z.pow_succ_r in Hs by lia.
      assert (Hxy : (x <= y)%Q).
      { pose proof (pow2_pos p ltac:(lia)).
        apply (truediv_mono a j (2 ^ p) 1); try assumption; nia. }
      pose proof (to_int_mono x y (truediv_nonneg a j x Ha ltac:(lia) Hx) Hxy).
      pose proof (Z.log2_spec a ltac:(lia)) as [Hl _]. fold p in Hl. lia.
    + rewrite truediv_pos in Hx by lia.
      destruct (_ <=? _) eqn:Hov in Hx; [discriminate|]. injection Hx as <-.
      apply Z.leb_gt in Hov.
      rewrite to_int_nonneg_eq
        by (apply scaled_nonneg; [apply round_ratio_nonneg; lia|unfold quantum_exp; lia]).
      rewrite qfloor_scaled.
      assert (round_ratio a j * 2 ^ (quantum_exp a j + emin) / 2 ^ emin < 2 ^ 1024).
      { apply Z.div_lt_upper_bound; [apply pow2_pos; lia|].
        rewrite <- Z.pow_add_r by lia. rewrite (Z.add_comm emin 1024). exact Hov. }
      lia.
Qed.

End PyNumFacts.

Module RateFacts.
Import PyNum PyNumFacts Rate.

Lemma sum_app l x : sum (l ++ [x]) = sum l + x.
Proof. induction l as [|y l IH]; simpl; [lia|rewrite IH; lia]. Qed.

Lemma rate_c_loop_length N fuel :
  forall r j acc l, rate_c_loop N r j fuel acc = Some l ->
  length l = (length acc + fuel)%nat.
Proof.
  induction fuel as [|fuel IH]; simpl; intros r j acc l H.
  - injection H as <-. lia.
  - destruct (truediv r j) as [x|]; [|discriminate].
    apply IH in H. rewrite length_app in H. simpl in H. lia.
Qed.

Lemma noninc_snoc l x :
  noninc l -> (l = [] \/ x <= last l 0) -> noninc (l ++ [x]).
Proof.
  intros Hl Hx i Hi. rewrite length_app in Hi. simpl in Hi.
  destruct (Nat.lt_ge_cases (S i) (length l)) as [Hlt|Hge].
  - rewrite !app_nth1 by lia. apply Hl; assumption.
  - assert (S i = length l) as Hsi by lia.
    rewrite Hsi, nth_middle. rewrite app_nth1 by lia.
    destruct Hx as [->|Hx]; [simpl in Hsi; lia|].
    destruct l as [|a l] using rev_ind; [simpl in Hsi; lia|].
    rewrite length_app in Hsi. simpl in Hsi.
    replace i with (length l) by lia. rewrite nth_middle.
    rewrite last_last in Hx. exact Hx.
Qed.

Lemma rate_c_loop_noninc N fuel :
  forall r j acc l,
  2 <= j -> 0 <= r -> r = N - sum acc -> noninc acc ->
  (acc = [] \/ exists r' x', 0 <= r' /\ truediv r' (j - 1) = Some x' /\
                             last acc 0 = to_int x' /\ r = r' - to_int x') ->
  rate_c_loop N r j fuel acc = Some l -> noninc l.
Proof.
  induction fuel as [|fuel IH]; simpl; intros r j acc l Hj Hr Hsum Hacc Hprev H.
  - injection H as <-. assumption.
  - destruct (truediv r j) as [x|] eqn:Hx; [|discriminate].
    pose proof (truediv_nonneg r j x Hr ltac:(lia) Hx) as Hx0.
    pose proof (to_int_nonneg x Hx0) as Hc0.
    pose proof (truediv_to_int_le r j x Hr ltac:(lia) Hx) as Hcr.
    eapply IH; [| | |eapply noninc_snoc; [exact Hacc|]| |exact H].
    + lia.
    + rewrite sum_app. lia.
    + reflexivity.
    + destruct Hprev as [->|(r' & x' & Hr' & Hx' & Hlast & Hrr)]; [left; reflexivity|right].
      rewrite Hlast.
      pose proof (to_int_nonneg x' (truediv_nonneg r' (j - 1) x' Hr' ltac:(lia) Hx')).
      apply to_int_mono; [assumption|].
      apply (truediv_mono r j r' (j - 1)); try assumption; nia.
    + right. exists r, x. split; [assumption|]. split.
      * replace (j + 1 - 1) with j by lia. assumption.
      * split; [apply last_last|]. rewrite sum_app. lia.
Qed.

(** What a successful call returns. *)
Lemma get_rate_inv N k n_min r :
  get_rate N k n_min = Some r ->
  1 < N /\ 1 < k /\
  exists rate_c u,
    rate_c_loop N N 2 (Z.to_nat k) [] = Some rate_c /\
    truediv (sum rate_c) k = Some u /\
    r = [repeat (to_int u) (Z.to_nat k); rate_c].
Proof.
  unfold get_rate. intros H.
  destruct (1 <? N) eqn:HN; [|discriminate].
  destruct (1 <? k) eqn:Hk; [|discriminate]. simpl in H.
  apply Z.ltb_lt in HN, Hk.
  destruct (rate_c_loop N N 2 (Z.to_nat k) []) as [rate_c|] eqn:Hl; [|discriminate].
  destruct (truediv (sum rate_c) k) as [u|] eqn:Hu; [|discriminate].
  destruct (min (repeat (to_int u) (Z.to_nat k))), (min rate_c); try discriminate.
  destruct (_ >=? n_min); [|discriminate]. injection H as <-.
  split; [assumption|]. split; [assumption|]. exists rate_c, u. auto.
Qed.

End RateFacts.

Module FloatFacts.
Import PyNum PyNumFacts PyFloat.

Lemma digits2_pos_size p : digits2_pos p = Pos.size p.
Proof. induction p; simpl; try rewrite IHp; reflexivity. Qed.

Lemma digits2_log2 p : Zpos (digits2_pos p) = Z.log2 (Zpos p) + 1.
Proof.
  rewrite digits2_pos_size. destruct p; simpl; try rewrite Pos2Z.inj_succ; lia.
Qed.

Lemma digits_53 m : 2 ^ 52 <= m < 2 ^ 53 -> Zpos (digits2_pos (Z.to_pos m)) = 53.
Proof.
  intros Hm. rewrite digits2_log2, Z2Pos.id by lia.
  rewrite (Z.log2_unique m 52); [reflexivity|lia|]. simpl (Z.succ 52). lia.
Qed.

Lemma digits_le_53 m : 0 < m < 2 ^ 53 -> Zpos (digits2_pos (Z.to_pos m)) <= 53.
Proof.
  intros Hm. rewrite digits2_log2, Z2Pos.id by lia.
  assert (Z.log2 m < 53) by (apply Z.log2_lt_pow2; lia). lia.
Qed.

Lemma quantum_exp_ge a b : - emin <= quantum_exp a b.
Proof. unfold quantum_exp. lia. Qed.

Lemma pow_lt_exp x y : 0 <= x -> 0 <= y -> 2 ^ x < 2 ^ y -> x < y.
Proof.
  intros Hx Hy H. destruct (Z.lt_ge_cases x y) as [|Hge]; [assumption|].
  pose proof (Z.pow_le_mono_r 2 y x ltac:(lia) Hge). lia.
Qed.

(** The float built from a quotient that does not overflow is a valid
    binary64 value. *)
Lemma mk_float_valid s a b :
  0 < a -> 0 < b ->
  round_ratio a b * 2 ^ (quantum_exp a b + emin) < 2 ^ (1024 + emin) ->
  valid_binary (mk_float s (round_ratio a b) (quantum_exp a b)) = true.
Proof.
  intros Ha Hb Hov.
  pose proof (round_ratio_le a b Ha Hb) as Hle.
  pose proof (round_ratio_nonneg a b ltac:(lia) Hb) as Hnn.
  pose proof (quantum_exp_ge a b) as Hge.
  pose proof emin_pos as He.
  set (m := round_ratio a b) in *. set (e := quantum_exp a b) in *.
  unfold mk_float.
  destruct (Z.eqb_spec m 0) as [Hm0|Hm0]; [reflexivity|].
  destruct (Z.eqb_spec m (2 ^ 53)) as [Hm53|Hm53].
  - unfold valid_binary, SpecFloat.valid_binary, bounded, canonical_mantissa.
    change (Zpos (digits2_pos (Z.to_pos (2 ^ 52)))) with 53.
    rewrite Hm53, <- Z.pow_add_r in Hov by lia.
    apply pow_lt_exp in Hov; [|lia|unfold emin; lia].
    unfold fexp, SpecFloat.emin, prec, emax. apply andb_true_intro. split.
    + apply Z.eqb_eq. unfold emin in *. lia.
    + apply Z.leb_le. unfold emin in *. lia.
  - assert (Hlt : 0 < m < 2 ^ 53) by lia.
    unfold valid_binary, SpecFloat.valid_binary, bounded, canonical_mantissa.
    unfold fexp, SpecFloat.emin, prec, emax. apply andb_true_intro.
    destruct (Z.eq_dec e (- emin)) as [Hemin|Hemin].
    + pose proof (digits_le_53 m Hlt). pose proof (Pos2Z.is_pos (digits2_pos (Z.to_pos m))).
      rewrite Hemin. unfold emin in *. split; [apply Z.eqb_eq|apply Z.leb_le]; lia.
    + assert (H52 : 2 ^ 52 <= m) by (apply round_ratio_ge; lia).
      rewrite (digits_53 m) by lia.
      assert (He2 : 2 ^ 52 * 2 ^ (e + emin) < 2 ^ (1024 + emin)).
      { eapply Z.le_lt_trans; [|exact Hov].
        apply Z.mul_le_mono_nonneg_r; [apply Z.pow_nonneg; lia|exact H52]. }
      rewrite <- Z.pow_add_r in He2 by lia.
      apply pow_lt_exp in He2; [|lia|unfold emin; lia].
      unfold emin in *. split; [apply Z.eqb_eq|apply Z.leb_le]; lia.
Qed.


Lemma pow_le_exp x y : 0 <= x -> 0 <= y -> 2 ^ x <= 2 ^ y -> x <= y.
Proof.
  intros Hx Hy H. destruct (Z.le_gt_cases x y) as [|Hgt]; [assumption|].
  pose proof (Z.pow_lt_mono_r 2 y x ltac:(lia) Hx Hgt). lia.
Qed.

Lemma sgn_pos_pos a b : 0 < a -> 0 < b -> negb (Z.sgn a * Z.sgn b =? 1) = false.
Proof. intros. rewrite !Z.sgn_pos by assumption. reflexivity. Qed.

(** A positive quotient, when it does not overflow, is the float
    [mk_float false m e]. *)
Lemma truediv_float_pos a b f :
  0 < a -> 0 < b -> truediv_float a b = Some f ->
  round_ratio a b * 2 ^ (quantum_exp a b + emin) < 2 ^ (1024 + emin) /\
  Prim2SF f = mk_float false (round_ratio a b) (quantum_exp a b).
Proof.
  intros Ha Hb H. unfold truediv_float in H.
  rewrite (proj2 (Z.eqb_neq b 0)) in H by lia.
  rewrite (proj2 (Z.eqb_neq a 0)) in H by lia.
  rewrite !Z.abs_eq in H by lia.
  destruct (2 ^ (1024 + emin) <=? _) eqn:Hov; [discriminate|].
  apply Z.leb_gt in Hov. injection H as <-.
  rewrite sgn_pos_pos by assumption.
  split; [assumption|]. apply Prim2SF_SF2Prim, mk_float_valid; assumption.
Qed.

(** [a / b] does not overflow when it is at most a quotient [c / d] that
    does not. *)
Lemma truediv_float_some a b c d :
  0 < a -> 0 < b -> 0 < c -> 0 < d -> a * d <= c * b ->
  round_ratio c d * 2 ^ (quantum_exp c d + emin) < 2 ^ (1024 + emin) ->
  exists f, truediv_float a b = Some f.
Proof.
  intros Ha Hb Hc Hd Hle Hov.
  pose proof (value_mono a b c d Ha Hc Hb Hd Hle) as Hv.
  unfold truediv_float.
  rewrite (proj2 (Z.eqb_neq b 0)) by lia.
  rewrite (proj2 (Z.eqb_neq a 0)) by lia.
  rewrite !Z.abs_eq by lia.
  destruct (2 ^ (1024 + emin) <=? _) eqn:Hov'; [apply Z.leb_le in Hov'; lia|].
  eexists; reflexivity.
Qed.

Lemma no_overflow_one :
  round_ratio 1 1 * 2 ^ (quantum_exp 1 1 + emin) < 2 ^ (1024 + emin).
Proof. vm_compute. reflexivity. Qed.

Lemma no_overflow_1023 :
  round_ratio (2 ^ 1023) 1 * 2 ^ (quantum_exp (2 ^ 1023) 1 + emin) < 2 ^ (1024 + emin).
Proof. vm_compute. reflexivity. Qed.

(** [float(z)] succeeds for [0 <= z <= 2^1023]. *)
Lemma float_of_int_some z : 0 <= z <= 2 ^ 1023 -> exists f, float_of_int z = Some f.
Proof.
  intros Hz. unfold float_of_int. destruct (Z.eq_dec z 0) as [->|Hne].
  - eexists. reflexivity.
  - apply (truediv_float_some z 1 (2 ^ 1023) 1); try lia.
    apply no_overflow_1023.
Qed.

(** [float(z)] for [1 <= z <= 2^1023] is a positive finite float. *)
Lemma float_of_int_finite z f :
  1 <= z <= 2 ^ 1023 -> float_of_int z = Some f ->
  exists m e, Prim2SF f = S754_finite false m e.
Proof.
  intros Hz Hf. unfold float_of_int in Hf.
  destruct (truediv_float_pos z 1 f ltac:(lia) ltac:(lia) Hf) as [_ ->].
  assert (Hq : quantum_exp 1 1 <= quantum_exp z 1) by (apply quantum_exp_mono; lia).
  assert (Hq1 : quantum_exp 1 1 = -52) by reflexivity.
  assert (H52 : 2 ^ 52 <= round_ratio z 1)
    by (apply round_ratio_ge; unfold emin; lia).
  unfold mk_float.
  rewrite (proj2 (Z.eqb_neq (round_ratio z 1) 0)) by lia.
  destruct (_ =? 2 ^ 53); eexists; eexists; reflexivity.
Qed.

(** The quotient [n / n]. *)
Lemma quantum_exp_diag n : 0 < n -> quantum_exp n n = -52.
Proof.
  intros Hn. unfold quantum_exp.
  rewrite Z.mul_comm, Z.div_mul by lia. rewrite Z.log2_pow2 by (unfold K; lia).
  unfold emin. lia.
Qed.

Lemma round_ratio_diag n : 0 < n -> round_ratio n n = 2 ^ 52.
Proof.
  intros Hn. unfold round_ratio. rewrite quantum_exp_diag by assumption.
  replace (n * 2 ^ emin) with (2 ^ 52 * (n * 2 ^ (-52 + emin))).
  - apply rhe_exact. pose proof (pow2_pos (-52 + emin) ltac:(unfold emin; lia)). lia.
  - replace emin with (52 + (-52 + emin)) at 2 by lia.
    rewrite (Z.pow_add_r 2 52 (-52 + emin)) by (unfold emin; lia). ring.
Qed.


(** The quotients [i / n] for [0 < i <= n] are at most [1.0]. *)
Lemma mk_float_le_one i n :
  0 < i <= n ->
  key_compare (sf_key (mk_float false (round_ratio i n) (quantum_exp i n)))
              (3, -52, 2 ^ 52) <> Gt.
Proof.
  intros Hin.
  pose proof (value_mono i n n n ltac:(lia) ltac:(lia) ltac:(lia) ltac:(lia) ltac:(nia)) as Hv.
  rewrite round_ratio_diag, quantum_exp_diag in Hv by lia.
  pose proof (round_ratio_le i n ltac:(lia) ltac:(lia)) as Hle.
  pose proof (round_ratio_nonneg i n ltac:(lia) ltac:(lia)) as Hnn.
  pose proof (quantum_exp_ge i n) as Hge.
  pose proof emin_pos as He.
  set (m := round_ratio i n) in *. set (e := quantum_exp i n) in *.
  rewrite <- Z.pow_add_r in Hv by (unfold emin; lia).
  unfold mk_float.
  destruct (Z.eqb_spec m 0) as [Hm0|Hm0]; [simpl; discriminate|].
  destruct (Z.eqb_spec m (2 ^ 53)) as [Hm53|Hm53].
  - rewrite Hm53, <- Z.pow_add_r in Hv by lia.
    apply pow_le_exp in Hv; [|lia|unfold emin; lia].
    unfold sf_key, key_compare. simpl (Z.compare 3 3).
    destruct (Z.compare_spec (e + 1) (-52)); [|discriminate|lia].
    change (Zpos (Z.to_pos (2 ^ 52))) with (2 ^ 52). rewrite Z.compare_refl. discriminate.
  - unfold sf_key, key_compare. simpl (Z.compare 3 3).
    rewrite Z2Pos.id by lia.
    destruct (Z.compare_spec e (-52)) as [He52|He52|He52]; [|discriminate|].
    + rewrite He52 in Hv. destruct (Z.compare_spec m (2 ^ 52)) as [| |Hgt]; try discriminate.
      rewrite (Z.pow_add_r 2 52 (-52 + emin)) in Hv by (unfold emin; lia).
      pose proof (pow2_pos (-52 + emin) ltac:(unfold emin; lia)).
      set (P := 2 ^ (-52 + emin)) in *. nia.
    + exfalso. assert (H52 : 2 ^ 52 <= m) by (apply round_ratio_ge; fold e; unfold emin in *; lia).
      assert (Hlow : 2 ^ (52 + (e + emin)) <= m * 2 ^ (e + emin)).
      { rewrite Z.pow_add_r by lia. apply Z.mul_le_mono_nonneg_r; [apply Z.pow_nonneg|]; lia. }
      assert (Hc : 2 ^ (52 + (e + emin)) <= 2 ^ (52 + (-52 + emin))) by lia.
      apply pow_le_exp in Hc; lia.
Qed.

(** *** The order of [SFcompare] *)

Lemma key_compare_antisym x y : key_compare y x = CompOpp (key_compare x y).
Proof.
  destruct x as [[a1 b1] c1], y as [[a2 b2] c2]. unfold key_compare.
  rewrite (Z.compare_antisym a2 a1), (Z.compare_antisym b2 b1), (Z.compare_antisym c2 c1).
  destruct (a2 ?= a1), (b2 ?= b1), (c2 ?= c1); reflexivity.
Qed.

Lemma key_lt_iff a1 b1 c1 a2 b2 c2 :
  key_compare (a1, b1, c1) (a2, b2, c2) = Lt <->
  a1 < a2 \/ (a1 = a2 /\ (b1 < b2 \/ (b1 = b2 /\ c1 < c2))).
Proof.
  unfold key_compare.
  destruct (Z.compare_spec a1 a2); [destruct (Z.compare_spec b1 b2);
    [destruct (Z.compare_spec c1 c2)| |]| |]; split; intros; try discriminate; try reflexivity; lia.
Qed.

Lemma key_le_iff a1 b1 c1 a2 b2 c2 :
  key_compare (a1, b1, c1) (a2, b2, c2) <> Gt <->
  a1 < a2 \/ (a1 = a2 /\ (b1 < b2 \/ (b1 = b2 /\ c1 <= c2))).
Proof.
  unfold key_compare.
  destruct (Z.compare_spec a1 a2); [destruct (Z.compare_spec b1 b2);
    [destruct (Z.compare_spec c1 c2)| |]| |]; split; intros; try discriminate; try lia;
    exfalso; auto.
Qed.

Lemma key_le_lt_trans x y z :
  key_compare x y <> Gt -> key_compare y z = Lt -> key_compare x z = Lt.
Proof.
  destruct x as [[a1 b1] c1], y as [[a2 b2] c2], z as [[a3 b3] c3].
  rewrite key_le_iff, !key_lt_iff. lia.
Qed.

Lemma sf_compare_key f g :
  f <> S754_nan -> g <> S754_nan ->
  SFcompare f g = Some (key_compare (sf_key f) (sf_key g)).
Proof.
  intros Hf Hg.
  destruct f as [s1|s1| |s1 m1 e1]; [| |congruence|];
  destruct g as [s2|s2| |s2 m2 e2]; try congruence;
  destruct s1; try destruct s2; try reflexivity;
  unfold SFcompare, sf_key, key_compare; simpl Z.compare; try reflexivity.
  change ((1 ?= 1)%positive) with Eq. cbv iota.
  rewrite Z.compare_opp, (Z.compare_antisym e1 e2).
  destruct (e1 ?= e2); reflexivity.
Qed.

Lemma prim_nan x : PrimFloat.is_nan x = true -> Prim2SF x = S754_nan.
Proof. intros H. unfold Prim2SF. rewrite H. reflexivity. Qed.

Lemma ltb_key x y :
  (x <? y)%float = true <->
  Prim2SF x <> S754_nan /\ Prim2SF y <> S754_nan /\
  key_compare (sf_key (Prim2SF x)) (sf_key (Prim2SF y)) = Lt.
Proof.
  rewrite ltb_spec. unfold SFltb. split.
  - intros H. destruct (Prim2SF x) eqn:Ex; destruct (Prim2SF y) eqn:Ey;
    try (simpl in H; discriminate);
    (rewrite sf_compare_key in H by discriminate;
     destruct (key_compare _ _) eqn:Ek; try discriminate;
     (split; [discriminate|split; [discriminate|reflexivity]])).
  - intros (Hx & Hy & Hk). rewrite sf_compare_key, Hk by assumption. reflexivity.
Qed.

Lemma leb_key x y :
  (x <=? y)%float = true <->
  Prim2SF x <> S754_nan /\ Prim2SF y <> S754_nan /\
  key_compare (sf_key (Prim2SF x)) (sf_key (Prim2SF y)) <> Gt.
Proof.
  rewrite leb_spec. unfold SFleb. split.
  - intros H. destruct (Prim2SF x) eqn:Ex; destruct (Prim2SF y) eqn:Ey;
    try (simpl in H; discriminate);
    (rewrite sf_compare_key in H by discriminate;
     destruct (key_compare _ _) eqn:Ek; try discriminate;
     (split; [discriminate|split; [discriminate|congruence]])).
  - intros (Hx & Hy & Hk). rewrite sf_compare_key by assumption.
    destruct (key_compare _ _); [reflexivity|reflexivity|congruence].
Qed.

End FloatFacts.

Module BinFacts.
Import PyNum PyNumFacts PyFloat FloatFacts Gen.

Lemma optmap_spec {A B} (f : A -> option B) l l' :
  optmap f l = Some l' ->
  length l' = length l /\
  forall i a b, (i < length l)%nat -> f (nth i l a) = Some (nth i l' b).
Proof.
  revert l'. induction l as [|x l IH]; simpl; intros l' H.
  - injection H as <-. split; [reflexivity|intros; lia].
  - destruct (f x) eqn:Hx, (optmap f l) eqn:Hl; try discriminate.
    injection H as <-. destruct (IH _ eq_refl) as [Hlen Hnth].
    split; [simpl; congruence|].
    intros [|i] a0 b0 Hi; simpl; [assumption|]. apply Hnth. simpl in Hi. lia.
Qed.

Lemma optmap_some {A B} (f : A -> option B) l :
  (forall x, In x l -> exists y, f x = Some y) -> exists l', optmap f l = Some l'.
Proof.
  induction l as [|x l IH]; simpl; intros H.
  - eexists; reflexivity.
  - destruct (H x (or_introl eq_refl)) as [y Hy]. rewrite Hy.
    destruct IH as [l' Hl']; [intros; apply H; right; assumption|].
    rewrite Hl'. eexists; reflexivity.
Qed.

Lemma one_sf : Prim2SF 1%float = S754_finite false (Z.to_pos (2 ^ 52)) (-52).
Proof. vm_compute. reflexivity. Qed.

Lemma zero_sf : Prim2SF 0%float = S754_zero false.
Proof. vm_compute. reflexivity. Qed.

Lemma mk_float_not_nan s m e : mk_float s m e <> S754_nan.
Proof. unfold mk_float. destruct (m =? 0), (m =? 2 ^ 53); discriminate. Qed.

(** The edge [i / n]. *)
Lemma edge_spec n i f :
  0 < n -> (i <= Z.to_nat n)%nat -> truediv_float (Z.of_nat i) n = Some f ->
  Prim2SF f <> S754_nan /\
  key_compare (sf_key (Prim2SF f)) (3, -52, 2 ^ 52) <> Gt /\
  (i = O -> Prim2SF f = S754_zero false) /\
  (i = Z.to_nat n -> Prim2SF f = Prim2SF 1%float).
Proof.
  intros Hn Hi Hf. destruct i as [|i'].
  - unfold truediv_float in Hf. rewrite (proj2 (Z.eqb_neq n 0)) in Hf by lia.
    simpl in Hf. rewrite (proj2 (Z.ltb_ge n 0)) in Hf by lia. injection Hf as <-.
    rewrite zero_sf. split; [discriminate|]. split; [simpl; discriminate|].
    split; [reflexivity|]. intros Hc. lia.
  - set (i := S i') in *.
    assert (Hi0 : 0 < Z.of_nat i) by lia.
    destruct (truediv_float_pos _ _ f Hi0 Hn Hf) as [_ Hp]. rewrite Hp.
    split; [apply mk_float_not_nan|].
    split; [apply mk_float_le_one; lia|].
    split; [discriminate|].
    intros Hin. rewrite Hin, Z2Nat.id by lia.
    rewrite round_ratio_diag, quantum_exp_diag by lia.
    vm_compute. reflexivity.
Qed.

Lemma bins_some n : 0 < n -> exists edges, bins n = Some edges.
Proof.
  intros Hn. apply optmap_some. intros i Hi. apply in_seq in Hi.
  destruct (Nat.eq_dec i 0) as [->|Hi0].
  - unfold truediv_float. rewrite (proj2 (Z.eqb_neq n 0)) by lia.
    eexists; reflexivity.
  - apply (truediv_float_some _ _ 1 1); try lia. apply no_overflow_one.
Qed.

Lemma bins_spec n edges :
  0 < n -> bins n = Some edges ->
  length edges = S (Z.to_nat n) /\
  forall i, (i <= Z.to_nat n)%nat ->
    Prim2SF (nth i edges 0%float) <> S754_nan /\
    key_compare (sf_key (Prim2SF (nth i edges 0%float))) (3, -52, 2 ^ 52) <> Gt /\
    (i = O -> Prim2SF (nth i edges 0%float) = S754_zero false) /\
    (i = Z.to_nat n -> Prim2SF (nth i edges 0%float) = Prim2SF 1%float).
Proof.
  intros Hn Hb. unfold bins in Hb. apply optmap_spec in Hb as [Hlen Hnth].
  rewrite length_seq in Hlen. replace (Z.to_nat (n + 1)) with (S (Z.to_nat n)) in Hlen by lia.
  split; [assumption|]. intros i Hi.
  assert (Hil : (i < length (seq 0 (Z.to_nat (n + 1))))%nat)
    by (rewrite length_seq; lia).
  specialize (Hnth i O 0%float Hil).
  rewrite seq_nth in Hnth by lia. simpl in Hnth.
  apply (edge_spec n i); assumption.
Qed.

(** *** [searchsorted] *)

Lemma ss_range l x : 0 <= searchsorted_left l x <= Z.of_nat (length l).
Proof.
  induction l as [|b l IH]; cbn [searchsorted_left length]; [lia|].
  rewrite Nat2Z.inj_succ. destruct (b <? x)%float; lia.
Qed.

Lemma ss_zero b l x : searchsorted_left (b :: l) x = 0 <-> (b <? x)%float = false.
Proof.
  cbn [searchsorted_left]. pose proof (ss_range l x).
  destruct (b <? x)%float; split; intros H'; try reflexivity; try discriminate; lia.
Qed.

Lemma ss_full l x :
  searchsorted_left l x = Z.of_nat (length l) <->
  forallb (fun b => (b <? x)%float) l = true.
Proof.
  induction l as [|b l IH]; cbn [searchsorted_left length forallb]; [split; reflexivity|].
  pose proof (ss_range l x). rewrite Nat2Z.inj_succ.
  destruct (b <? x)%float; cbn [andb]; [rewrite <- IH; lia|].
  split; intros H'; [lia|discriminate].
Qed.

Lemma forallb_false {A} (f : A -> bool) l :
  forallb f l = false -> exists b, In b l /\ f b = false.
Proof.
  induction l as [|a l IH]; simpl; [discriminate|].
  destruct (f a) eqn:Ha; simpl; intros H.
  - destruct (IH H) as (b & Hb & Hfb). exists b. auto.
  - exists a. auto.
Qed.

Lemma ltb_same_left a a' x :
  Prim2SF a = Prim2SF a' -> (a <? x)%float = (a' <? x)%float.
Proof. intros H. rewrite !ltb_spec, H. reflexivity. Qed.

(** The bins of [canard] cut [(0, 1]] into [n_cat] categories. *)
Lemma canard_bins_cut n_cat :
  1 < n_cat ->
  exists edges, bins n_cat = Some edges /\
  forall x, (exists c, pd_cut edges x = Some c /\ 0 <= c < n_cat) <->
            ((0 <? x)%float = true /\ (x <=? 1)%float = true).
Proof.
  intros Hn. destruct (bins_some n_cat ltac:(lia)) as [edges Hb].
  exists edges. split; [assumption|].
  destruct (bins_spec n_cat edges ltac:(lia) Hb) as [Hlen Hed].
  destruct edges as [|e0 rest]; [discriminate|].
  destruct (Hed O ltac:(lia)) as (_ & _ & He0 & _).
  specialize (He0 eq_refl). simpl nth in He0.
  destruct (Hed (Z.to_nat n_cat) ltac:(lia)) as (_ & _ & _ & Hen).
  specialize (Hen eq_refl).
  assert (Hone : Prim2SF 1%float <> S754_nan) by (rewrite one_sf; discriminate).
  assert (Hkone : sf_key (Prim2SF 1%float) = (3, -52, 2 ^ 52))
    by (rewrite one_sf; reflexivity).
  assert (Hlt0 : forall x, (e0 <? x)%float = (0 <? x)%float)
    by (intros x; apply ltb_same_left; rewrite He0, zero_sf; reflexivity).
  pose proof (fun x => ss_range (e0 :: rest) x) as Hr.
  intros x. unfold pd_cut. split.
  - intros (c & Hc & Hcr).
    destruct (PrimFloat.is_nan x) eqn:Hnan; [discriminate|].
    set (ids := searchsorted_left (e0 :: rest) x) in *.
    destruct (ids =? 0) eqn:Hz; [discriminate|].
    destruct (ids =? Z.of_nat (length (e0 :: rest))) eqn:Hf; [discriminate|].
    apply Z.eqb_neq in Hz, Hf.
    assert (H0x : (0 <? x)%float = true).
    { rewrite <- Hlt0. destruct (e0 <? x)%float eqn:E; [reflexivity|].
      exfalso. apply Hz. apply ss_zero. assumption. }
    split; [assumption|].
    apply ltb_key in H0x as (_ & Hxn & _).
    destruct (forallb (fun b => (b <? x)%float) (e0 :: rest)) eqn:Hall.
    { exfalso. apply Hf. apply ss_full. assumption. }
    apply forallb_false in Hall as (b & Hin & Hbx).
    apply (In_nth _ _ 0%float) in Hin as (i & Hi & <-).
    destruct (Hed i ltac:(lia)) as (Hbn & Hbk & _).
    apply leb_key. split; [assumption|]. split; [assumption|].
    rewrite Hkone. intros Hgt.
    assert (Hlt : key_compare (sf_key (Prim2SF (nth i (e0 :: rest) 0%float)))
                              (sf_key (Prim2SF x)) = Lt).
    { apply (key_le_lt_trans _ (3, -52, 2 ^ 52)); [assumption|].
      rewrite key_compare_antisym, Hgt. reflexivity. }
    assert (Htrue : (nth i (e0 :: rest) 0%float <? x)%float = true)
      by (apply ltb_key; auto).
    congruence.
  - intros [H0x Hx1].
    pose proof H0x as H0x'. apply ltb_key in H0x' as (_ & Hxn & _).
    destruct (PrimFloat.is_nan x) eqn:Hnan; [exfalso; apply Hxn, prim_nan, Hnan|].
    assert (Hne0 : searchsorted_left (e0 :: rest) x <> 0)
      by (rewrite ss_zero, Hlt0, H0x; discriminate).
    assert (Hnef : searchsorted_left (e0 :: rest) x <> Z.of_nat (length (e0 :: rest))).
    { rewrite ss_full. intros Hall.
      assert (Hin : In (nth (Z.to_nat n_cat) (e0 :: rest) 0%float) (e0 :: rest))
        by (apply nth_In; lia).
      pose proof (proj1 (forallb_forall _ _) Hall _ Hin) as Hlast. cbv beta in Hlast.
      rewrite (ltb_same_left _ 1%float) in Hlast by assumption.
      apply ltb_key in Hlast as (_ & _ & Hlt).
      apply leb_key in Hx1 as (_ & _ & Hle).
      apply Hle. rewrite key_compare_antisym, Hlt. reflexivity. }
    apply Z.eqb_neq in Hne0, Hnef. rewrite Hne0, Hnef.
    eexists. split; [reflexivity|].
    specialize (Hr x). rewrite Hlen in Hr, Hnef. apply Z.eqb_neq in Hne0, Hnef. lia.
Qed.

End BinFacts.

Module FloatBound.
Import PyFloat FloatFacts.

Abbreviation fx := (SpecFloat.fexp 53 1024).

Lemma iter_pos_nat {A} (f : A -> A) p x :
  SpecFloat.iter_pos f p x = Nat.iter (Pos.to_nat p) f x.
Proof.
  revert x. induction p as [p IH|p IH|]; intros x; cbn [SpecFloat.iter_pos].
  - rewrite !IH, Pos2Nat.inj_xI, Nat.iter_succ_r.
    replace (2 * Pos.to_nat p)%nat with (Pos.to_nat p + Pos.to_nat p)%nat by lia.
    rewrite Nat.iter_add. reflexivity.
  - rewrite !IH, Pos2Nat.inj_xO.
    replace (2 * Pos.to_nat p)%nat with (Pos.to_nat p + Pos.to_nat p)%nat by lia.
    rewrite Nat.iter_add. reflexivity.
  - reflexivity.
Qed.

Lemma shr_1_spec m r s :
  0 <= m ->
  shr_1 (Build_shr_record m r s) = Build_shr_record (m / 2) (Z.odd m) (r || s).
Proof.
  intros Hm. rewrite <- Z.div2_div.
  destruct m as [|[p|p|]|p]; try lia; reflexivity.
Qed.

Lemma mod_pow2_succ m k :
  0 <= k ->
  (m mod 2 ^ (k + 1) =? 0) = (m mod 2 ^ k =? 0) && negb (Z.odd (m / 2 ^ k)).
Proof.
  intros Hk.
  assert (Hp : 0 < 2 ^ k) by (apply Z.pow_pos_nonneg; lia).
  pose proof (Z.div_mod m (2 ^ k) ltac:(lia)) as E1.
  pose proof (Z.mod_pos_bound m (2 ^ k) Hp) as B1.
  set (q := m / 2 ^ k) in *. set (r := m mod 2 ^ k) in *.
  pose proof (Z.div_mod q 2 ltac:(lia)) as E2.
  pose proof (Z.mod_pos_bound q 2 ltac:(lia)) as B2.
  rewrite Zodd_mod.
  assert (Hm : m mod 2 ^ (k + 1) = 2 ^ k * (q mod 2) + r).
  { symmetry. apply Z.mod_unique with (q / 2); [left; rewrite Z.pow_add_r by lia; change (2 ^ 1) with 2; nia|].
    rewrite Z.pow_add_r by lia. change (2 ^ 1) with 2. lia. }
  rewrite Hm.
  destruct (Z.eq_dec (q mod 2) 0) as [E|E].
  - rewrite E. replace (2 ^ k * 0 + r) with r by lia. simpl.
    destruct (r =? 0); reflexivity.
  - assert (q mod 2 = 1) as -> by lia. simpl.
    rewrite (proj2 (Z.eqb_neq _ 0)) by lia. rewrite andb_false_r. reflexivity.
Qed.

Lemma iter_shr_spec k m :
  0 <= m ->
  let x := Nat.iter k shr_1 (Build_shr_record m false false) in
  shr_m x = m / 2 ^ Z.of_nat k /\
  (shr_r x || shr_s x) = negb (m mod 2 ^ Z.of_nat k =? 0).
Proof.
  intros Hm. induction k as [|k IH]; cbv zeta in *.
  - cbn [Nat.iter shr_m shr_r shr_s]. change (Z.of_nat 0) with 0.
    rewrite Z.pow_0_r, Z.div_1_r, Z.mod_1_r. split; reflexivity.
  - rewrite Nat.iter_succ.
    destruct (Nat.iter k shr_1 (Build_shr_record m false false)) as [mk rk sk].
    cbn [shr_m shr_r shr_s] in IH. destruct IH as [Hmk Hrs]. subst mk.
    rewrite shr_1_spec by (apply Z.div_pos; [lia|apply Z.pow_pos_nonneg; lia]).
    cbn [shr_m shr_r shr_s]. rewrite Nat2Z.inj_succ, <- Z.add_1_r.
    rewrite Z.pow_add_r by lia. rewrite <- Z.div_div by (try apply Z.pow_nonneg; lia).
    split; [reflexivity|].
    rewrite Hrs. rewrite <- Z.pow_add_r by lia. rewrite mod_pow2_succ by lia.
    destruct (Z.odd _), (_ =? 0); reflexivity.
Qed.

(** One shift of [shr_fexp] on an exact mantissa: [k] bits dropped. *)
Lemma shr_fexp_spec m e :
  0 <= m ->
  let k := Z.max (fx (Zdigits2 m + e) - e) 0 in
  let '(mrs, e2) := shr_fexp 53 1024 m e loc_Exact in
  e2 = e + k /\
  m / 2 ^ k <= round_nearest_even (shr_m mrs) (loc_of_shr_record mrs)
            <= m / 2 ^ k + (if m mod 2 ^ k =? 0 then 0 else 1) /\
  shr_m mrs = m / 2 ^ k.
Proof.
  intros Hm k. unfold shr_fexp, shr. cbn [shr_record_of_loc].
  assert (Hk0 : k = Z.max (fx (Zdigits2 m + e) - e) 0) by reflexivity.
  clearbody k.
  destruct (fx (Zdigits2 m + e) - e) as [|n|n] eqn:En.
  - assert (k = 0) as -> by lia. cbn. rewrite Z.div_1_r, Z.mod_1_r, Z.add_0_r. cbn. lia.
  - assert (k = Zpos n) as Hk by lia. rewrite Hk.
    rewrite iter_pos_nat.
    pose proof (iter_shr_spec (Pos.to_nat n) m Hm) as [H1 H2].
    rewrite positive_nat_Z in H1, H2.
    destruct (Nat.iter (Pos.to_nat n) shr_1 (Build_shr_record m false false))
      as [mr r s]. cbn [shr_m shr_r shr_s fst snd] in H1, H2 |- *. subst mr.
    split; [reflexivity|]. split; [|reflexivity].
    destruct (m mod 2 ^ Zpos n =? 0); cbn in H2.
    + apply orb_false_iff in H2 as [-> ->]. cbn [loc_of_shr_record round_nearest_even]. lia.
    + destruct r, s; cbn [loc_of_shr_record round_nearest_even orb] in H2 |- *;
        try discriminate; try (destruct (Z.even _)); lia.
  - assert (k = 0) as -> by lia. cbn. rewrite Z.div_1_r, Z.mod_1_r, Z.add_0_r. cbn. lia.
Qed.

Lemma fx_mono a b : a <= b -> fx a <= fx b.
Proof. intros. unfold SpecFloat.fexp, SpecFloat.emin. lia. Qed.

Lemma zdigits2_log2 m : 0 < m -> Zdigits2 m = Z.log2 m + 1.
Proof.
  intros Hm. destruct m as [|p|p]; try lia. apply digits2_log2.
Qed.

Lemma sc_pos_pow e : -4200 <= e -> 0 < 2 ^ (e + 4200).
Proof. intros. apply Z.pow_pos_nonneg; lia. Qed.

(** A value below another has at most as many digits above the point. *)
Lemma digits_mono a x b y :
  0 < a -> 0 < b -> -4200 <= x -> -4200 <= y -> sc a x <= sc b y ->
  Zdigits2 a + x <= Zdigits2 b + y.
Proof.
  intros Ha Hb Hx Hy H. unfold sc in H. rewrite !zdigits2_log2 by assumption.
  pose proof (Z.log2_spec a Ha) as [Ha1 _].
  pose proof (Z.log2_spec b Hb) as [_ Hb2].
  pose proof (Z.log2_nonneg a). pose proof (Z.log2_nonneg b).
  assert (2 ^ (Z.log2 a + (x + 4200)) < 2 ^ (Z.succ (Z.log2 b) + (y + 4200))).
  { rewrite (Z.pow_add_r 2 (Z.log2 a)) by lia.
    rewrite (Z.pow_add_r 2 (Z.succ (Z.log2 b))) by lia.
    pose proof (sc_pos_pow x Hx) as Px. pose proof (sc_pos_pow y Hy) as Py.
    apply Z.le_lt_trans with (a * 2 ^ (x + 4200)); [apply Z.mul_le_mono_nonneg_r; lia|].
    apply Z.le_lt_trans with (b * 2 ^ (y + 4200)); [assumption|].
    apply Z.mul_lt_mono_pos_r; assumption. }
  apply Z.pow_lt_mono_r_iff in H2; lia.
Qed.

Lemma div_pow_mul_le r k : 0 <= r -> 0 <= k -> r / 2 ^ k * 2 ^ k <= r.
Proof.
  intros Hr Hk. pose proof (Z.pow_pos_nonneg 2 k ltac:(lia) Hk).
  rewrite Z.mul_comm. apply Z.mul_div_le. lia.
Qed.

(** The rounding of a positive [m * 2^e] below a float [M * 2^E] stays below
    it, and is zero or a positive finite float (never infinite). *)
Lemma round_aux_bound m e M E :
  0 < m -> -4200 <= e <= 971 -> 0 < M -> -4200 <= E <= 971 ->
  fx (Zdigits2 M + E) <= E -> sc m e <= sc M E ->
  match binary_round_aux 53 1024 false m e loc_Exact with
  | S754_zero _ => True
  | S754_finite false m' e' => -4200 <= e' /\ sc (Zpos m') e' <= sc M E
  | _ => False
  end.
Proof.
  intros Hm He HM HE Hcan Hle. unfold binary_round_aux.
  pose proof (shr_fexp_spec m e ltac:(lia)) as S1.
  destruct (shr_fexp 53 1024 m e loc_Exact) as [mrs1 e1] eqn:Es1.
  set (k1 := Z.max (fx (Zdigits2 m + e) - e) 0) in S1.
  destruct S1 as (He1 & Hr1 & _).
  set (r1 := round_nearest_even (shr_m mrs1) (loc_of_shr_record mrs1)) in *.
  assert (Hk1 : 0 <= k1) by lia.
  pose proof (Z.pow_pos_nonneg 2 k1 ltac:(lia) Hk1) as Pk1.
  pose proof (Z.div_pos m (2 ^ k1) ltac:(lia) Pk1) as Hq1.
  (* the first rounding stays below [M * 2^E], at an exponent below [E] *)
  assert (B1 : sc r1 e1 <= sc M E /\ (0 < k1 -> e1 <= E)).
  { destruct (Z.eq_dec k1 0) as [Z0|NZ].
    - rewrite Z0 in *. rewrite Z.pow_0_r, Z.div_1_r, Z.mod_1_r in Hr1. cbn in Hr1.
      assert (r1 = m) as -> by lia. rewrite He1, Z.add_0_r. split; [assumption|lia].
    - assert (Hk : k1 = fx (Zdigits2 m + e) - e) by lia.
      assert (HeE : e1 <= E).
      { rewrite He1, Hk. pose proof (digits_mono m e M E Hm HM ltac:(lia) ltac:(lia) Hle).
        pose proof (fx_mono _ _ H). lia. }
      split; [|intros; assumption].
      (* [m <= B * 2^k1] with [B = M * 2^(E - e1)] *)
      set (B := M * 2 ^ (E - e1)).
      assert (Pd : 0 < 2 ^ (E - e1)) by (apply Z.pow_pos_nonneg; lia).
      assert (Hmb : m <= B * 2 ^ k1).
      { unfold sc in Hle. unfold B.
        replace (E + 4200) with ((E - e1) + k1 + (e + 4200)) in Hle by lia.
        rewrite (Z.pow_add_r 2 (E - e1 + k1) (e + 4200)) in Hle by lia.
        rewrite (Z.pow_add_r 2 (E - e1) k1) in Hle by lia.
        pose proof (sc_pos_pow e ltac:(lia)) as Pe.
        rewrite Z.mul_assoc in Hle.
        apply (Z.mul_le_mono_pos_r _ _ _ Pe) in Hle. lia. }
      assert (Hceil : m / 2 ^ k1 + (if m mod 2 ^ k1 =? 0 then 0 else 1) <= B).
      { pose proof (Z.div_mod m (2 ^ k1) ltac:(lia)) as Ed.
        pose proof (Z.mod_pos_bound m (2 ^ k1) Pk1) as Bd.
        destruct (Z.eqb_spec (m mod 2 ^ k1) 0) as [E0|E0]; cbn iota.
        - assert (Hq : m / 2 ^ k1 * 2 ^ k1 <= B * 2 ^ k1) by lia.
          apply Z.mul_le_mono_pos_r in Hq; lia.
        - assert (m / 2 ^ k1 < B) by nia. lia. }
      unfold sc. replace (E + 4200) with ((E - e1) + (e1 + 4200)) by lia.
      rewrite (Z.pow_add_r 2 (E - e1) (e1 + 4200)) by lia.
      pose proof (sc_pos_pow e1 ltac:(lia)). rewrite Z.mul_assoc. fold B.
      assert (r1 <= B) by lia. apply Z.mul_le_mono_nonneg_r; lia. }
  destruct B1 as [B1 Be1].
  assert (Hr1pos : 0 <= r1) by lia.
  pose proof (shr_fexp_spec r1 e1 Hr1pos) as S2.
  destruct (shr_fexp 53 1024 r1 e1 loc_Exact) as [mrs2 e2] eqn:Es2.
  set (k2 := Z.max (fx (Zdigits2 r1 + e1) - e1) 0) in S2.
  destruct S2 as (He2 & _ & Hm2). cbn [fst snd].
  assert (Hk2 : 0 <= k2) by lia.
  pose proof (Z.pow_pos_nonneg 2 k2 ltac:(lia) Hk2) as Pk2.
  pose proof (Z.div_pos r1 (2 ^ k2) ltac:(lia) Pk2) as Hq2.
  rewrite Hm2.
  destruct (r1 / 2 ^ k2) as [|p|p] eqn:Eq2; [exact I| |lia].
  (* the exponent is at most [E] *)
  assert (Hr1p : 0 < r1).
  { destruct (Z.eq_dec r1 0) as [E0|]; [|lia]. rewrite E0, Z.div_0_l in Eq2; discriminate. }
  assert (He2E : e2 <= 971).
  { destruct (Z.eq_dec k2 0) as [Z0|NZ].
    - rewrite He2, Z0, Z.add_0_r.
      destruct (Z.eq_dec k1 0) as [Z1|NZ1]; [lia|]. pose proof (Be1 ltac:(lia)). lia.
    - assert (Hk : k2 = fx (Zdigits2 r1 + e1) - e1) by lia.
      assert (-4200 <= e1) by lia.
      pose proof (digits_mono r1 e1 M E Hr1p HM ltac:(lia) ltac:(lia) B1).
      pose proof (fx_mono _ _ H0). lia. }
  assert ((e2 <=? 1024 - 53) = true) as -> by (apply Z.leb_le; lia).
  split; [lia|].
  apply Z.le_trans with (sc r1 e1); [|assumption].
  unfold sc. rewrite <- Eq2, He2.
  replace (e1 + k2 + 4200) with (k2 + (e1 + 4200)) by lia.
  rewrite Z.pow_add_r by lia.
  pose proof (sc_pos_pow e1 ltac:(lia)).
  pose proof (div_pow_mul_le r1 k2 Hr1pos Hk2). nia.
Qed.


Lemma iter_xO_mul mx d : Zpos (Pos.iter xO mx d) = Zpos mx * 2 ^ Zpos d.
Proof.
  induction d as [|d IH] using Pos.peano_ind.
  - cbn. lia.
  - rewrite Pos.iter_succ, Pos2Z.inj_succ, Z.pow_succ_r by lia.
    change (Zpos (Pos.iter xO mx d)~0) with (2 * Zpos (Pos.iter xO mx d)).
    rewrite IH. ring.
Qed.

(** [shl_align] keeps the value and moves to the lower exponent. *)
Lemma shl_align_spec mx ex ex' :
  -4200 <= ex' ->
  let '(mz, ez) := shl_align mx ex ex' in
  ez = Z.min ex ex' /\ sc (Zpos mz) ez = sc (Zpos mx) ex.
Proof.
  intros H. unfold shl_align.
  destruct (ex' - ex) as [|d|d] eqn:Ed.
  - split; [lia|reflexivity].
  - split; [lia|reflexivity].
  - split; [lia|]. unfold sc. rewrite iter_xO_mul.
    replace (ex + 4200) with (Zpos d + (ex' + 4200)) by lia.
    rewrite (Z.pow_add_r 2 (Zpos d)) by lia. ring.
Qed.

Lemma one_sf' : Prim2SF 1%float = S754_finite false (2 ^ 52)%positive (-52).
Proof. vm_compute. reflexivity. Qed.

Lemma valid_finite s m e :
  SpecFloat.valid_binary 53 1024 (S754_finite s m e) = true ->
  fx (Zpos (SpecFloat.digits2_pos m) + e) = e /\ e <= 971.
Proof.
  intros H. cbn [SpecFloat.valid_binary] in H. unfold SpecFloat.bounded in H.
  apply andb_true_iff in H as [H1 H2]. unfold SpecFloat.canonical_mantissa in H1.
  apply Z.eqb_eq in H1. apply Z.leb_le in H2. split; [exact H1|lia].
Qed.

Lemma fx_ge a : -1074 <= fx a.
Proof. unfold SpecFloat.fexp, SpecFloat.emin. lia. Qed.

(** [1.0 - eps] for [0 <= eps <= 1] is a zero or a positive float at most 1. *)
Lemma sub_one_bound eps :
  (0 <=? eps)%float = true -> (eps <=? 1)%float = true ->
  match Prim2SF (1 - eps)%float with
  | S754_zero _ => True
  | S754_finite false md ed => -4200 <= ed /\ sc (Zpos md) ed <= sc 1 0
  | _ => False
  end.
Proof.
  intros H0 H1. apply leb_key in H0 as (_ & Hn & K0).
  apply leb_key in H1 as (_ & _ & K1). rewrite one_sf' in K1.
  rewrite sub_spec, one_sf'. pose proof (Prim2SF_valid eps) as Hv.
  destruct (Prim2SF eps) as [s|s| |s me ee]; try (exfalso; apply Hn; reflexivity).
  - (* a zero: [1.0 - 0.0 = 1.0] *)
    cbn. split; [lia|]. vm_compute. discriminate.
  - destruct s; cbn in K0, K1; exfalso; [apply K0|apply K1]; reflexivity.
  - destruct s; [cbn in K0; exfalso; apply K0; reflexivity|].
    apply valid_finite in Hv as [Hcan Hle971].
    assert (Hee : -1074 <= ee) by (rewrite <- Hcan; apply fx_ge).
    cbn [sf_key] in K1. apply key_le_iff in K1.
    rewrite digits2_log2 in Hcan.
    assert (Hme : Zpos me < 2 ^ 53).
    { unfold SpecFloat.fexp, SpecFloat.emin in Hcan.
      assert (Z.log2 (Zpos me) < 53) by lia.
      apply Z.log2_lt_pow2; lia. }
    assert (Hee52 : ee <= -52) by lia.
    (* the difference [2^(-ee) - me], at exponent [ee] *)
    assert (Hp : 2 ^ 52 * 2 ^ (- 52 - ee) = 2 ^ (- ee))
      by (rewrite <- Z.pow_add_r by lia; f_equal; lia).
    assert (HD : Zpos me <= 2 ^ (- ee)).
    { destruct (Z.eq_dec ee (-52)) as [->|Hne].
      - change (2 ^ (- -52)) with (2 ^ 52). destruct K1 as [K1|[_ [K1|[_ K1]]]]; lia.
      - assert (2 ^ 53 <= 2 ^ (- ee)) by (apply Z.pow_le_mono_r; lia). lia. }
    unfold SF64sub, SFsub. change FloatOps.prec with 53. change FloatOps.emax with 1024.
    rewrite Z.min_r by lia.
    assert (Ha1 : fst (shl_align (2 ^ 52)%positive (-52) ee) = Z.to_pos (2 ^ (- ee))).
    { pose proof (shl_align_spec (2 ^ 52)%positive (-52) ee ltac:(lia)) as Hs.
      destruct (shl_align (2 ^ 52)%positive (-52) ee) as [mz ez]. cbn [fst].
      destruct Hs as [Hez Hsc]. rewrite Z.min_r in Hez by lia. subst ez.
      unfold sc in Hsc. change (Zpos (2 ^ 52)) with (2 ^ 52) in Hsc.
      replace (-52 + 4200) with ((- 52 - ee) + (ee + 4200)) in Hsc by lia.
      rewrite (Z.pow_add_r 2 (-52 - ee)) in Hsc by lia.
      rewrite Z.mul_assoc, Hp in Hsc.
      apply Z.mul_cancel_r in Hsc; [|pose proof (sc_pos_pow ee ltac:(lia)); lia].
      rewrite <- Hsc. reflexivity. }
    assert (Ha2 : fst (shl_align me ee ee) = me).
    { unfold shl_align. rewrite Z.sub_diag. reflexivity. }
    rewrite Ha1, Ha2. cbn [cond_Zopp]. rewrite Z2Pos.id by (apply Z.pow_pos_nonneg; lia).
    set (D := 2 ^ (- ee) - Zpos me).
    assert (HD0 : 0 <= D) by lia.
    assert (HD1 : sc D ee <= sc 1 0).
    { unfold sc, D. replace (0 + 4200) with (- ee + (ee + 4200)) by lia.
      rewrite (Z.pow_add_r 2 (- ee)) by lia.
      pose proof (sc_pos_pow ee ltac:(lia)). nia. }
    unfold binary_normalize.
    destruct D as [|pD|pD] eqn:ED; [exact I| |lia].
    unfold binary_round.
    pose proof (shl_align_spec pD ee (fx (Zpos (SpecFloat.digits2_pos pD) + ee))
                  ltac:(pose proof (fx_ge (Zpos (SpecFloat.digits2_pos pD) + ee)); lia)) as Hs.
    destruct (shl_align pD ee (fx (Zpos (SpecFloat.digits2_pos pD) + ee))) as [mz ez].
    destruct Hs as [Hez Hsc].
    pose proof (fx_ge (Zpos (SpecFloat.digits2_pos pD) + ee)).
    apply (round_aux_bound (Zpos mz) ez 1 0); try lia.
    vm_compute. discriminate.
Qed.


(** [float(n)] is exact below [2^53]. *)
Lemma float_of_int_exact n f :
  1 <= n < 2 ^ 53 -> float_of_int n = Some f ->
  exists M E, Prim2SF f = S754_finite false M E /\ sc (Zpos M) E = sc n 0 /\
              -52 <= E <= 0.
Proof.
  intros Hn Hf. unfold float_of_int in Hf.
  destruct (FloatFacts.truediv_float_pos n 1 f ltac:(lia) ltac:(lia) Hf) as [_ Hp].
  set (l := Z.log2 n).
  assert (Hl : 0 <= l <= 52).
  { split; [apply Z.log2_nonneg|]. assert (Z.log2 n < 53) by (apply Z.log2_lt_pow2; lia).
    unfold l; lia. }
  pose proof (Z.log2_spec n ltac:(lia)) as [Hl1 Hl2]. fold l in Hl1, Hl2.
  assert (Hq : PyNum.quantum_exp n 1 = l - 52).
  { unfold PyNum.quantum_exp. rewrite Z.div_1_r.
    rewrite Z.log2_mul_pow2 by (try lia; unfold PyNum.K; lia).
    unfold PyNum.K, PyNum.emin. fold l. lia. }
  assert (Hm : PyNum.round_ratio n 1 = n * 2 ^ (52 - l)).
  { unfold PyNum.round_ratio. rewrite Hq.
    replace (n * 2 ^ PyNum.emin) with (n * 2 ^ (52 - l) * (1 * 2 ^ (l - 52 + PyNum.emin))).
    - apply PyNumFacts.rhe_exact. rewrite Z.mul_1_l. apply Z.pow_pos_nonneg; unfold PyNum.emin; lia.
    - rewrite Z.mul_1_l, <- Z.mul_assoc, <- Z.pow_add_r by (unfold PyNum.emin; lia).
      f_equal. f_equal. lia. }
  rewrite Hq, Hm in Hp.
  assert (Hb : 2 ^ 52 <= n * 2 ^ (52 - l) < 2 ^ 53).
  { replace 52 with (l + (52 - l)) at 1 by lia.
    replace 53 with (Z.succ l + (52 - l)) by lia.
    rewrite !Z.pow_add_r by lia.
    pose proof (Z.pow_pos_nonneg 2 (52 - l) ltac:(lia) ltac:(lia)). nia. }
  unfold mk_float in Hp.
  rewrite (proj2 (Z.eqb_neq _ 0)) in Hp by lia.
  rewrite (proj2 (Z.eqb_neq _ (2 ^ 53))) in Hp by lia.
  exists (Z.to_pos (n * 2 ^ (52 - l))), (l - 52).
  split; [exact Hp|]. split; [|lia].
  unfold sc. rewrite Z2Pos.id by lia.
  rewrite <- Z.mul_assoc, <- Z.pow_add_r by lia. f_equal. f_equal. lia.
Qed.

(** [int(n_feat * (1 - eps))] is in [[0, n_feat]] for [0 <= eps <= 1]. *)
Lemma controlled_size_range n_feat eps :
  1 <= n_feat < 2 ^ 53 -> (0 <=? eps)%float = true -> (eps <=? 1)%float = true ->
  exists s, Gen.controlled_size n_feat eps = Some s /\ 0 <= s <= n_feat.
Proof.
  intros Hn H0 H1. unfold Gen.controlled_size.
  destruct (float_of_int_some n_feat) as [nf Hnf]; [lia|].
  rewrite Hnf.
  destruct (float_of_int_exact n_feat nf Hn Hnf) as (M & E & HM & HME & HE).
  pose proof (Prim2SF_valid nf) as Hv. rewrite HM in Hv.
  apply valid_finite in Hv as [Hcan _].
  pose proof (sub_one_bound eps H0 H1) as Hd.
  pose proof (Prim2SF_valid (1 - eps)%float) as Hdv.
  unfold float_to_int. rewrite mul_spec, HM.
  destruct (Prim2SF (1 - eps)%float) as [sd|sd| |sd md ed]; try contradiction.
  - cbn. eexists; split; [reflexivity|lia].
  - destruct sd; [contradiction|]. destruct Hd as [Hed Hbd].
    apply valid_finite in Hdv as [Hdcan Hd971].
    assert (Hed1074 : -1074 <= ed) by (rewrite <- Hdcan; apply fx_ge).
    (* [ed <= 0]: the value is at most 1 *)
    assert (Hed0 : ed <= 0).
    { unfold sc in Hbd. destruct (Z.le_gt_cases ed 0) as [|Hgt]; [assumption|].
      assert (2 ^ (0 + 4200) < 2 ^ (ed + 4200)) by (apply Z.pow_lt_mono_r; lia). nia. }
    unfold SF64mul, SFmul. change FloatOps.prec with 53. change FloatOps.emax with 1024.
    cbn [xorb].
    assert (Hprod : sc (Zpos (M * md)) (E + ed) <= sc (Zpos M) E).
    { unfold sc in *. rewrite Pos2Z.inj_mul.
      assert (P1 : 0 < 2 ^ (E + 4200)) by (apply Z.pow_pos_nonneg; lia).
      assert (E1 : 2 ^ (E + ed + 4200) * 2 ^ 4200 = 2 ^ (E + 4200) * 2 ^ (ed + 4200))
        by (rewrite <- !Z.pow_add_r by lia; f_equal; lia).
      assert (P2 : 0 < 2 ^ 4200) by (apply Z.pow_pos_nonneg; lia).
      apply (Z.mul_le_mono_pos_r _ _ (2 ^ 4200) P2).
      rewrite Z.add_0_l, Z.mul_1_l in Hbd.
      replace (Zpos M * Zpos md * 2 ^ (E + ed + 4200) * 2 ^ 4200)
        with ((Zpos M * 2 ^ (E + 4200)) * (Zpos md * 2 ^ (ed + 4200)))
        by (rewrite <- (Z.mul_assoc _ (2 ^ (E + ed + 4200))), E1; ring).
      apply Z.mul_le_mono_nonneg_l; [nia|assumption]. }
    pose proof (round_aux_bound (Zpos (M * md)) (E + ed) (Zpos M) E
                  ltac:(lia) ltac:(lia) ltac:(lia) ltac:(lia) (Z.eq_le_incl _ _ Hcan) Hprod) as Hr.
    destruct (binary_round_aux 53 1024 false (Zpos (M * md)) (E + ed) loc_Exact)
      as [s'|s'| |s' m' e']; try contradiction.
    + eexists; split; [reflexivity|lia].
    + destruct s'; [contradiction|]. destruct Hr as [He' Hb'].
      rewrite HME in Hb'. unfold sc in Hb'. rewrite Z.add_0_l in Hb'.
      eexists; split; [reflexivity|].
      destruct (Z.leb_spec 0 e') as [Hpos|Hneg].
      * rewrite (Z.pow_add_r 2 e' 4200) in Hb' by lia.
        pose proof (Z.pow_pos_nonneg 2 e' ltac:(lia) Hpos).
        assert (P2 : 0 < 2 ^ 4200) by (apply Z.pow_pos_nonneg; lia).
        rewrite Z.mul_assoc in Hb'. apply Z.mul_le_mono_pos_r in Hb'; [|assumption]. nia.
      * assert (Pn : 0 < 2 ^ (- e')) by (apply Z.pow_pos_nonneg; lia).
        split; [apply Z.div_pos; lia|].
        apply Z.div_le_upper_bound; [assumption|].
        assert (E2 : 2 ^ 4200 = 2 ^ (- e') * 2 ^ (e' + 4200))
          by (rewrite <- Z.pow_add_r by lia; f_equal; lia).
        rewrite E2 in Hb'. pose proof (sc_pos_pow e' He'). nia.
Qed.

End FloatBound.

Module GenFacts.
Import PyNum PyFloat Gen FloatFacts BinFacts FloatBound.

Section Run.
Context {St : Type} (rs : RandomState St) (ncdf : float -> float).

Lemma repeatM_ok {A} (m : M St A) n :
  (forall s, exists a s', m s = Some (a, s')) ->
  forall s, exists l s', repeatM n m s = Some (l, s') /\ length l = n.
Proof.
  intros Hm. induction n as [|n IH]; intros s.
  - exists [], s. split; reflexivity.
  - cbn [repeatM]. unfold bind. destruct (Hm s) as (a & s1 & E1). rewrite E1.
    destruct (IH s1) as (l & s2 & E2 & L2). rewrite E2.
    exists (a :: l), s2. split; [reflexivity|cbn; congruence].
Qed.

Lemma mapM_ok {A B} (f : A -> M St B) l :
  (forall x s, exists b s', f x s = Some (b, s')) ->
  forall s, exists l' s', mapM f l s = Some (l', s') /\ length l' = length l.
Proof.
  intros Hf. induction l as [|x l IH]; intros s.
  - exists [], s. split; reflexivity.
  - cbn [mapM]. unfold bind. destruct (Hf x s) as (b & s1 & E1). rewrite E1.
    destruct (IH s1) as (l' & s2 & E2 & L2). rewrite E2.
    exists (b :: l'), s2. split; [reflexivity|cbn; congruence].
Qed.

Lemma normal_ok s : exists a s', normal rs s = Some (a, s').
Proof. unfold normal. destruct (rs_normal rs s). eauto. Qed.

Lemma binomial_ok n p s : exists a s', binomial rs n p s = Some (a, s').
Proof. unfold binomial. destruct (rs_binomial rs n p s). eauto. Qed.

Lemma random_sample_ok s : exists a s', random_sample rs s = Some (a, s').
Proof. unfold random_sample. destruct (rs_random_sample rs s). eauto. Qed.

Lemma beta_ok a b s : exists x s', beta rs a b s = Some (x, s').
Proof. unfold beta. destruct (rs_beta rs a b s). eauto. Qed.

Lemma normal_matrix_ok r c :
  0 <= r -> 0 <= c ->
  forall s, exists W s', normal_matrix rs r c s = Some (W, s').
Proof.
  intros Hr Hc s. unfold normal_matrix.
  rewrite (proj2 (Z.ltb_ge r 0)), (proj2 (Z.ltb_ge c 0)) by lia. cbn [orb].
  destruct (repeatM_ok (repeatM (Z.to_nat c) (normal rs)) (Z.to_nat r)
              ltac:(intros s0; destruct (repeatM_ok (normal rs) (Z.to_nat c)
                                  normal_ok s0)
                                  as (l & s2 & E & _); eauto) s) as (W & s' & E & _).
  eauto.
Qed.

Lemma set_nth_length {A} (l : list A) n v : length (set_nth l n v) = length l.
Proof.
  revert n. induction l as [|x l IH]; intros [|n]; cbn; try rewrite IH; reflexivity.
Qed.

Lemma py_setitem_in {A} (l : list A) i v :
  0 <= i < Z.of_nat (length l) -> py_setitem l i v = Some (set_nth l (Z.to_nat i) v).
Proof.
  intros Hi. unfold py_setitem.
  rewrite (proj2 (Z.leb_le 0 i)), (proj2 (Z.ltb_lt i _)) by lia. reflexivity.
Qed.

Lemma setitems_pairs_ok {A} (l : list A) ps :
  Forall (fun p => 0 <= fst p < Z.of_nat (length l)) ps ->
  exists l', setitems_pairs l ps = Some l' /\ length l' = length l.
Proof.
  revert l. induction ps as [|[i v] ps IH]; intros l Hps.
  - exists l. split; reflexivity.
  - inversion Hps as [|? ? Hi Hrest]; subst. cbn [setitems_pairs].
    rewrite py_setitem_in by exact Hi.
    destruct (IH (set_nth l (Z.to_nat i) v)) as (l' & E & L).
    + rewrite set_nth_length. exact Hrest.
    + exists l'. split; [exact E|]. rewrite L. apply set_nth_length.
Qed.

Lemma setitems_ok {A} (l : list A) idx vals :
  length vals = length idx ->
  Forall (fun i => 0 <= i < Z.of_nat (length l)) idx ->
  exists l', setitems l idx vals = Some l' /\ length l' = length l.
Proof.
  intros Hlen Hidx. unfold setitems. rewrite Hlen, Nat.eqb_refl.
  apply setitems_pairs_ok. apply Forall_forall. intros [i v] Hin. cbn [fst].
  apply in_combine_l in Hin. rewrite Forall_forall in Hidx. apply Hidx, Hin.
Qed.

Lemma vecmat_length c A W : length (vecmat c A W) = c.
Proof. unfold vecmat. rewrite length_map, length_seq. reflexivity. Qed.

Lemma lift_some {A} (o : option A) a s : o = Some a -> @lift St A o s = Some (a, s).
Proof. intros ->. reflexivity. Qed.

Lemma vectorize_some {A B} (f : A -> B) xs : xs <> [] -> vectorize f xs = Some (map f xs).
Proof. destruct xs; [contradiction|reflexivity]. Qed.

(** The normalised projection of one example has [fs] entries. *)
Lemma A_W_norm_nonempty (g : float -> float) fs A W :
  1 <= fs -> map g (vecmat (Z.to_nat fs) A W) <> [].
Proof.
  intros Hfs E. apply (f_equal (@length _)) in E.
  rewrite length_map, vecmat_length in E. cbn in E. lia.
Qed.

(** One example of [catbird] is a row of [n_feat] entries. *)
Lemma catbird_example_ok n_feat fs W idx lmbd eps :
  1 <= fs <= 2 ^ 1023 -> 0 <= n_feat ->
  length idx = Z.to_nat fs -> Forall (fun i => 0 <= i < n_feat) idx ->
  forall s, exists row s', catbird_example rs ncdf n_feat fs W idx lmbd eps s = Some (row, s') /\
                           length row = Z.to_nat n_feat.
Proof.
  intros Hfs Hn Hidx Hin s. unfold catbird_example, bind.
  destruct (normal_matrix_ok 1 fs ltac:(lia) ltac:(lia) s) as (A & s1 & E1). rewrite E1.
  destruct (float_of_int_some fs ltac:(lia)) as [sq Hsq]. rewrite (lift_some _ _ _ Hsq).
  destruct (repeatM_ok (binomial rs 1 eps) (Z.to_nat n_feat)
              (binomial_ok 1 eps) s1) as (res & s2 & E2 & L2).
  rewrite E2.
  rewrite (lift_some _ _ _ (vectorize_some _ _ (A_W_norm_nonempty _ fs _ W ltac:(lia)))).
  destruct (setitems_ok res idx
              (map (fun x => discretize x lmbd)
                 (map (fun v => ncdf (v / PrimFloat.sqrt sq)%float)
                    (vecmat (Z.to_nat fs) (hd [] A) W))))
    as (row & E3 & L3).
  - rewrite !length_map, vecmat_length. symmetry. exact Hidx.
  - rewrite L2. eapply Forall_impl; [|exact Hin]. cbn. lia.
  - rewrite (lift_some _ _ _ E3). exists row, s2. split; [reflexivity|congruence].
Qed.

Lemma catbird_examples_ok n_feat fs W idx lmbd eps q :
  1 <= fs <= 2 ^ 1023 -> 0 <= n_feat ->
  length idx = Z.to_nat fs -> Forall (fun i => 0 <= i < n_feat) idx ->
  forall n X y s, exists rows s',
    catbird_examples rs ncdf n_feat fs W idx lmbd eps q n X y s
      = Some ((X ++ rows, y ++ repeat q n), s') /\
    length rows = n /\ Forall (fun row => length row = Z.to_nat n_feat) rows.
Proof.
  intros Hfs Hn Hidx Hin. induction n as [|n IH]; intros X y s.
  - exists []. exists s. rewrite !app_nil_r. split; [reflexivity|split; [reflexivity|constructor]].
  - cbn [catbird_examples]. unfold bind at 1.
    destruct (catbird_example_ok n_feat fs W idx lmbd eps Hfs Hn Hidx Hin s)
      as (row & s1 & E1 & L1). rewrite E1.
    destruct (IH (X ++ [row]) (y ++ [q]) s1) as (rows & s2 & E2 & L2 & F2).
    rewrite E2. exists (row :: rows), s2.
    rewrite <- !app_assoc. split; [reflexivity|].
    split; [cbn; congruence|constructor; assumption].
Qed.

Lemma blocks_length q rate :
  Forall (fun r => 0 <= r) rate -> Z.of_nat (length (blocks q rate)) = Rate.sum rate.
Proof.
  revert q. induction rate as [|r rate IH]; intros q Hr; [reflexivity|].
  inversion Hr; subst. cbn [blocks Rate.sum fold_right].
  rewrite length_app, Nat2Z.inj_add, repeat_length, IH by assumption.
  unfold Rate.sum. lia.
Qed.

Lemma py_index_in {A} (l : list A) i d :
  0 <= i < Z.of_nat (length l) -> py_index l i = Some (nth (Z.to_nat i) l d).
Proof.
  intros Hi. unfold py_index.
  rewrite (proj2 (Z.leb_le 0 i)), (proj2 (Z.ltb_lt i _)) by lia. cbn [andb].
  apply nth_error_nth'. lia.
Qed.

Lemma catbird_clusters_ok n_feat feat_sig lmbd eps :
  choice_ok rs -> 0 <= n_feat <= 2 ^ 1023 ->
  Forall (fun fs => 1 <= fs <= n_feat) feat_sig ->
  forall rate i q X y s,
  0 <= i -> (Z.to_nat i + length rate <= length feat_sig)%nat ->
  Forall (fun r => 0 <= r) rate ->
  exists rows s',
    catbird_clusters rs ncdf n_feat feat_sig lmbd eps i rate q X y s
      = Some ((X ++ rows, y ++ blocks (q + 1) rate), s') /\
    Z.of_nat (length rows) = Rate.sum rate /\
    Forall (fun row => length row = Z.to_nat n_feat) rows.
Proof.
  intros Hc Hn Hfs. induction rate as [|r rate IH]; intros i q X y s Hi Hlen Hr.
  - exists [], s. rewrite !app_nil_r. split; [reflexivity|split; [reflexivity|constructor]].
  - inversion Hr as [|? ? Hr0 Hrs]; subst. cbn [length] in Hlen.
    cbn [catbird_clusters]. unfold bind at 1.
    set (fs := nth (Z.to_nat i) feat_sig 0).
    assert (Hfs_in : 1 <= fs <= n_feat).
    { rewrite Forall_forall in Hfs. apply Hfs, nth_In. lia. }
    rewrite (lift_some _ _ _ (py_index_in feat_sig i 0 ltac:(lia))). fold fs.
    unfold bind at 1.
    destruct (normal_matrix_ok fs fs ltac:(lia) ltac:(lia) s) as (W & s1 & E1). rewrite E1.
    unfold bind at 1. unfold choice at 1.
    destruct (Hc n_feat fs s1 ltac:(lia)) as (idx & s2 & E2 & L2 & F2). rewrite E2.
    unfold bind at 1.
    destruct (catbird_examples_ok n_feat fs W idx lmbd eps (q + 1) ltac:(lia) ltac:(lia) L2 F2
                (Z.to_nat r) X y s2) as (rows1 & s3 & E3 & L3 & F3).
    rewrite E3.
    destruct (IH (i + 1) (q + 1) (X ++ rows1) (y ++ repeat (q + 1) (Z.to_nat r)) s3
                ltac:(lia) ltac:(lia) Hrs) as (rows2 & s4 & E4 & L4 & F4).
    rewrite E4. exists (rows1 ++ rows2), s4.
    split; [cbn [blocks]; rewrite <- !app_assoc; reflexivity|].
    split; [|apply Forall_app; split; assumption].
    rewrite length_app, Nat2Z.inj_add, L3, L4. cbn [Rate.sum fold_right]. unfold Rate.sum. lia.
Qed.

Lemma resolve_ok (random_state : seed_arg St) entropy :
  valid_seed random_state -> exists s, resolve rs random_state entropy = Some s.
Proof.
  destruct random_state as [|z|s|]; unfold resolve; intros H; [eauto| |eauto|contradiction].
  rewrite (proj2 (Z.leb_le 0 z)), (proj2 (Z.ltb_lt z _)) by (cbn in H; lia).
  eexists; reflexivity.
Qed.

Lemma fold_max_le t x n :
  x <= n -> Forall (fun v => v <= n) t -> fold_left Z.max t x <= n.
Proof.
  revert x. induction t as [|v t IH]; intros x Hx Ht; [assumption|].
  inversion Ht; subst. cbn. apply IH; [lia|assumption].
Qed.

Lemma py_max_le l n :
  l <> [] -> Forall (fun v => v <= n) l -> exists mx, py_max l = Some mx /\ mx <= n.
Proof.
  destruct l as [|x t]; [contradiction|]. intros _ H. inversion H; subst.
  eexists; split; [reflexivity|]. apply fold_max_le; assumption.
Qed.

(** [catbird] on valid arguments returns [rate[i]] rows of [n_feat]
    entries labelled [i], cluster by cluster. *)
Lemma catbird_ok n_feat feat_sig rate lmbd eps random_state entropy :
  choice_ok rs -> 1 < n_feat <= 2 ^ 1023 -> feat_sig <> [] ->
  (length rate <= length feat_sig)%nat ->
  Forall (fun fs => 1 <= fs <= n_feat) feat_sig -> Forall (fun r => 0 <= r) rate ->
  (0 <=? lmbd)%float && (lmbd <=? 1)%float = true ->
  (0 <=? eps)%float && (eps <=? 1)%float = true ->
  valid_seed random_state ->
  exists X y s',
    catbird rs ncdf n_feat feat_sig rate lmbd eps random_state entropy = Some ((X, y), s') /\
    y = blocks 0 rate /\ Z.of_nat (length X) = Rate.sum rate /\
    Forall (fun row => length row = Z.to_nat n_feat) X.
Proof.
  intros Hc Hn Hne Hlen Hfs Hr Hl He Hseed.
  destruct (resolve_ok random_state entropy Hseed) as [s0 Hs0].
  unfold catbird. rewrite Hs0. unfold catbird_body, py_assert, bind.
  rewrite (proj2 (Z.ltb_lt 1 n_feat)) by lia.
  destruct (py_max_le feat_sig n_feat Hne ltac:(eapply Forall_impl; [|exact Hfs]; cbn; lia))
    as (mx & Hmx & Hmxle).
  unfold ret. rewrite (lift_some _ _ _ Hmx).
  rewrite (proj2 (Z.leb_le mx n_feat)) by assumption. rewrite Hl, He.
  destruct (catbird_clusters_ok n_feat feat_sig lmbd eps Hc ltac:(lia) Hfs rate 0 (-1) [] [] s0
              ltac:(lia) ltac:(lia) Hr) as (rows & s' & E & L & F).
  rewrite E. exists rows, (blocks 0 rate), s'. split; [reflexivity|]. auto.
Qed.

Lemma set_shapes_ok lmbd idx :
  0 <= lmbd <= 2 ^ 1023 ->
  forall a b s, length a = length b ->
  Forall (fun i => 0 <= i < Z.of_nat (length a)) idx ->
  exists a' b' s', set_shapes rs lmbd idx a b s = Some ((a', b'), s') /\
                   length a' = length a /\ length b' = length b.
Proof.
  intros Hl. destruct (float_of_int_some lmbd Hl) as [lf Hlf].
  induction idx as [|i idx IH]; intros a b s Hab Hidx.
  - exists a, b, s. auto.
  - inversion Hidx as [|? ? Hi Hrest]; subst. cbn [set_shapes]. unfold bind.
    destruct (random_sample_ok s) as (u & s1 & E1). rewrite E1.
    rewrite (lift_some _ _ _ Hlf), (lift_some _ _ _ (py_setitem_in a i _ Hi)).
    destruct (random_sample_ok s1) as (v & s2 & E2). rewrite E2.
    rewrite (lift_some _ _ _ Hlf), (lift_some _ _ _ (py_setitem_in b i _ ltac:(lia))).
    destruct (IH (set_nth a (Z.to_nat i) (1 + lf * u)%float)
                 (set_nth b (Z.to_nat i) (1 + lf * v)%float) s2)
      as (a' & b' & s' & E & La & Lb).
    + rewrite !set_nth_length. exact Hab.
    + rewrite set_nth_length. exact Hrest.
    + rewrite E. exists a', b', s'. rewrite La, Lb, !set_nth_length. auto.
Qed.

Lemma canard_example_ok n_feat a b edges s :
  exists row s', canard_example rs n_feat a b edges s = Some (row, s') /\
                 length row = Z.to_nat n_feat.
Proof.
  unfold canard_example.
  destruct (mapM_ok (fun j => x <- beta rs (nth j a 1%float) (nth j b 1%float) ;;
                              ret (pd_cut edges x))
              (seq 0 (Z.to_nat n_feat))
              ltac:(intros j s0; unfold bind;
                    destruct (beta_ok (nth j a 1%float) (nth j b 1%float) s0)
                      as (x & s1 & E); rewrite E; eexists; eexists; reflexivity) s)
    as (row & s' & E & L).
  exists row, s'. rewrite E, L, length_seq. auto.
Qed.

Lemma canard_examples_ok n_feat a b edges q :
  forall n X y s, exists rows s',
    canard_examples rs n_feat a b edges q n X y s
      = Some ((X ++ rows, y ++ repeat q n), s') /\
    length rows = n /\ Forall (fun row => length row = Z.to_nat n_feat) rows.
Proof.
  induction n as [|n IH]; intros X y s.
  - exists [], s. rewrite !app_nil_r. split; [reflexivity|split; [reflexivity|constructor]].
  - cbn [canard_examples]. unfold bind at 1.
    destruct (canard_example_ok n_feat a b edges s) as (row & s1 & E1 & L1). rewrite E1.
    destruct (IH (X ++ [row]) (y ++ [q]) s1) as (rows & s2 & E2 & L2 & F2).
    rewrite E2. exists (row :: rows), s2.
    rewrite <- !app_assoc. split; [reflexivity|].
    split; [cbn; congruence|constructor; assumption].
Qed.

Lemma canard_clusters_ok n_feat lmbd eps edges :
  choice_ok rs -> 1 <= n_feat < 2 ^ 53 -> 0 <= lmbd <= 2 ^ 1023 ->
  (0 <=? eps)%float = true -> (eps <=? 1)%float = true ->
  forall rate q X y s, Forall (fun r => 0 <= r) rate ->
  exists rows s',
    canard_clusters rs n_feat lmbd eps edges (map PyInt rate) q X y s
      = Some ((X ++ rows, y ++ blocks (q + 1) rate), s') /\
    Z.of_nat (length rows) = Rate.sum rate /\
    Forall (fun row => length row = Z.to_nat n_feat) rows.
Proof.
  intros Hc Hn Hl He0 He1.
  destruct (controlled_size_range n_feat eps Hn He0 He1) as (sz & Hsz & Hszr).
  induction rate as [|r rate IH]; intros q X y s Hr.
  - exists [], s. rewrite !app_nil_r. split; [reflexivity|split; [reflexivity|constructor]].
  - inversion Hr as [|? ? Hr0 Hrs]; subst.
    cbn [map canard_clusters]. unfold bind at 1.
    rewrite (lift_some _ _ _ Hsz). unfold bind at 1. unfold choice at 1.
    destruct (Hc n_feat sz s ltac:(lia)) as (idx & s1 & E1 & L1 & F1). rewrite E1.
    unfold bind at 1.
    destruct (set_shapes_ok lmbd idx Hl (repeat 1%float (Z.to_nat n_feat))
                (repeat 1%float (Z.to_nat n_feat)) s1 eq_refl
                ltac:(rewrite repeat_length; eapply Forall_impl; [|exact F1]; cbn; lia))
      as (a & b & s2 & E2 & _ & _).
    rewrite E2. unfold bind at 1.
    rewrite (lift_some _ _ _ (eq_refl : as_index (PyInt r) = Some r)). unfold bind at 1.
    destruct (canard_examples_ok n_feat a b edges (q + 1) (Z.to_nat r) X y s2)
      as (rows1 & s3 & E3 & L3 & F3).
    rewrite E3.
    destruct (IH (q + 1) (X ++ rows1) (y ++ repeat (q + 1) (Z.to_nat r)) s3 Hrs)
      as (rows2 & s4 & E4 & L4 & F4).
    rewrite E4. exists (rows1 ++ rows2), s4.
    split; [cbn [blocks]; rewrite <- !app_assoc; reflexivity|].
    split; [|apply Forall_app; split; assumption].
    rewrite length_app, Nat2Z.inj_add, L3, L4. cbn [Rate.sum fold_right]. unfold Rate.sum. lia.
Qed.

(** [canard] on valid arguments returns [rate[i]] rows of [n_feat]
    entries labelled [i], cluster by cluster. *)
Lemma canard_ok n_feat n_cat rate lmbd eps random_state entropy :
  choice_ok rs -> 1 < n_feat < 2 ^ 53 -> 1 < n_cat -> Forall (fun r => 0 <= r) rate ->
  1 <= lmbd <= 2 ^ 1023 ->
  (0 <=? eps)%float && (eps <=? 1)%float = true ->
  valid_seed random_state ->
  exists X y s',
    canard rs n_feat n_cat rate lmbd eps random_state entropy = Some ((X, y), s') /\
    y = blocks 0 rate /\ Z.of_nat (length X) = Rate.sum rate /\
    Forall (fun row => length row = Z.to_nat n_feat) X.
Proof.
  intros Hc Hn Hcat Hr Hl He Hseed.
  apply andb_prop in He as He'. destruct He' as [He0 He1].
  destruct (resolve_ok random_state entropy Hseed) as [s0 Hs0].
  unfold canard, canard_py. rewrite Hs0. unfold canard_body, py_assert, bind. cbn [lift as_int as_list as_float].
  unfold ret.
  rewrite (proj2 (Z.ltb_lt 1 n_feat)), (proj2 (Z.ltb_lt 1 n_cat)), (proj2 (Z.leb_le 1 lmbd))
    by lia.
  rewrite He.
  destruct (bins_some n_cat ltac:(lia)) as [edges Hedges]. rewrite (lift_some _ _ _ Hedges).
  destruct (canard_clusters_ok n_feat lmbd eps edges Hc ltac:(lia) ltac:(lia) He0 He1
              rate (-1) [] [] s0 Hr) as (rows & s' & E & L & F).
  rewrite E. exists (map (map int64_of_cut) rows), (blocks 0 rate), s'.
  split; [reflexivity|]. split; [reflexivity|].
  rewrite length_map. split; [exact L|].
  rewrite Forall_map. eapply Forall_impl; [|exact F]. intros row Hrow. cbn.
  rewrite length_map. exact Hrow.
Qed.

End Run.

End GenFacts.

Module TraceFacts.
Import PyNum PyFloat Gen FloatFacts BinFacts FloatBound GenFacts.

Lemma concat_repeat_single {A} (x : A) n : concat (repeat [x] n) = repeat x n.
Proof. induction n as [|n IH]; cbn; [reflexivity|rewrite IH; reflexivity]. Qed.

Lemma concat_repeat_repeat {A} (x : A) c r :
  concat (repeat (repeat x c) r) = repeat x (r * c).
Proof.
  induction r as [|r IH]; cbn; [reflexivity|]. rewrite IH, repeat_app. reflexivity.
Qed.

Lemma concat_repeat_pair {A} (x : A) n : concat (repeat [x; x] n) = repeat x (2 * n).
Proof.
  induction n as [|n IH]; [reflexivity|].
  replace (2 * S n)%nat with (S (S (2 * n))) by lia. cbn - [Nat.mul]. rewrite IH. reflexivity.
Qed.

Lemma concat_map_const {A B} (x : B) (l : list A) :
  concat (map (fun _ => [x]) l) = repeat x (length l).
Proof. induction l as [|a l IH]; cbn; [reflexivity|rewrite IH; reflexivity]. Qed.

Lemma skipn_nth {A} (l : list A) i d :
  (i < length l)%nat -> skipn i l = nth i l d :: skipn (S i) l.
Proof.
  revert i. induction l as [|a l IH]; intros [|i] Hi; cbn in *; try lia; [reflexivity|].
  apply IH. lia.
Qed.

Section Runs.
Context {St : Type} (rs : RandomState St).
Context {T : Type} (proj : draw -> T) (G : draw -> Prop).

Local Abbreviation runs := (@runs_traced St T _ proj G).

Lemma runs_ret {A} (a : A) (P : A -> Prop) : P a -> runs (ret a) [] P.
Proof. intros HP s log. exists a, s, []. rewrite app_nil_r. auto. Qed.

Lemma runs_lift {A} (o : option A) a (P : A -> Prop) : o = Some a -> P a -> runs (lift o) [] P.
Proof. intros -> HP. apply runs_ret, HP. Qed.

Lemma runs_assert b : b = true -> runs (py_assert b) [] (fun _ => True).
Proof. intros ->. apply runs_ret. exact I. Qed.

Lemma runs_bind {A B} (m : M _ A) (k : A -> M _ B) K1 K2 K P Q :
  runs m K1 P -> (forall a, P a -> runs (k a) K2 Q) -> K = K1 ++ K2 ->
  runs (bind m k) K Q.
Proof.
  intros Hm Hk -> s log.
  destruct (Hm s log) as (a & s1 & L1 & E1 & M1 & G1 & P1).
  destruct (Hk a P1 s1 (log ++ L1)) as (b & s2 & L2 & E2 & M2 & G2 & Q2).
  exists b, s2, (L1 ++ L2). unfold bind. rewrite E1, E2, app_assoc.
  split; [reflexivity|]. rewrite map_app, M1, M2.
  split; [reflexivity|]. split; [apply Forall_app; auto|exact Q2].
Qed.

Lemma runs_weaken {A} (m : M _ A) K (P Q : A -> Prop) :
  runs m K P -> (forall a, P a -> Q a) -> runs m K Q.
Proof.
  intros Hm HPQ s log. destruct (Hm s log) as (a & s' & L & E & M1 & G1 & P1).
  exists a, s', L. auto.
Qed.

Lemma runs_normal : G DNormal -> runs (normal (traced rs)) [proj DNormal] (fun _ => True).
Proof.
  intros HG s log. unfold normal. cbn. destruct (rs_normal rs s) as [x s'].
  exists x, s', [DNormal]. auto.
Qed.

Lemma runs_binomial n p :
  G (DBinomial n p) -> runs (binomial (traced rs) n p) [proj (DBinomial n p)] (fun _ => True).
Proof.
  intros HG s log. unfold binomial. cbn. destruct (rs_binomial rs n p s) as [x s'].
  exists x, s', [DBinomial n p]. auto.
Qed.

Lemma runs_random_sample :
  G DUniform -> runs (random_sample (traced rs)) [proj DUniform] (fun _ => True).
Proof.
  intros HG s log. unfold random_sample. cbn. destruct (rs_random_sample rs s) as [x s'].
  exists x, s', [DUniform]. auto.
Qed.

Lemma runs_beta a b :
  G (DBeta a b) -> runs (beta (traced rs) a b) [proj (DBeta a b)] (fun _ => True).
Proof.
  intros HG s log. unfold beta. cbn. destruct (rs_beta rs a b s) as [x s'].
  exists x, s', [DBeta a b]. auto.
Qed.

Lemma runs_choice n k :
  choice_ok rs -> 0 <= k <= n -> G (DChoice n k) ->
  runs (choice (traced rs) n k) [proj (DChoice n k)]
       (fun l => length l = Z.to_nat k /\ Forall (fun i => 0 <= i < n) l).
Proof.
  intros Hc Hk HG s log. unfold choice. cbn.
  destruct (Hc n k s Hk) as (l & s' & E & L & F). rewrite E.
  exists l, s', [DChoice n k]. auto.
Qed.

Lemma runs_repeatM {A} n (m : M _ A) K P :
  runs m K P -> runs (repeatM n m) (concat (repeat K n)) (fun l => length l = n).
Proof.
  intros Hm. induction n as [|n IH].
  - apply runs_ret. reflexivity.
  - cbn [repeatM]. eapply runs_bind; [exact Hm| |].
    + intros a _. eapply runs_bind; [exact IH| |].
      * intros l Hl. apply runs_ret. cbn. congruence.
      * reflexivity.
    + cbn. rewrite app_nil_r. reflexivity.
Qed.

Lemma runs_mapM {A B} (f : A -> M _ B) (K : A -> list T) P l :
  (forall x, In x l -> runs (f x) (K x) P) ->
  runs (mapM f l) (concat (map K l)) (fun l' => length l' = length l).
Proof.
  induction l as [|x l IH]; intros Hf.
  - apply runs_ret. reflexivity.
  - cbn [mapM]. eapply runs_bind; [apply Hf; left; reflexivity| |].
    + intros a _. eapply runs_bind; [apply IH; intros; apply Hf; right; assumption| |].
      * intros l' Hl. apply runs_ret. cbn. congruence.
      * reflexivity.
    + cbn. rewrite app_nil_r. reflexivity.
Qed.

Lemma runs_normal_matrix r c :
  0 <= r -> 0 <= c -> G DNormal ->
  runs (normal_matrix (traced rs) r c) (repeat (proj DNormal) (Z.to_nat r * Z.to_nat c))
       (fun _ => True).
Proof.
  intros Hr Hc HG. unfold normal_matrix.
  rewrite (proj2 (Z.ltb_ge r 0)), (proj2 (Z.ltb_ge c 0)) by lia. cbn [orb].
  assert (H1 : runs (repeatM (Z.to_nat c) (normal (traced rs)))
                     (repeat (proj DNormal) (Z.to_nat c)) (fun _ => True)).
  { rewrite <- concat_repeat_single.
    eapply runs_weaken; [eapply runs_repeatM, runs_normal, HG|intros; exact I]. }
  rewrite <- concat_repeat_repeat.
  eapply runs_weaken; [eapply runs_repeatM, H1|intros; exact I].
Qed.

Lemma runs_set_shapes lmbd idx :
  0 <= lmbd <= 2 ^ 1023 -> G DUniform ->
  forall a b, length a = length b ->
  Forall (fun i => 0 <= i < Z.of_nat (length a)) idx ->
  runs (set_shapes (traced rs) lmbd idx a b) (repeat (proj DUniform) (2 * length idx))
       (fun '(a', b') => length a' = length a /\ length b' = length b /\
                         (idx = [] -> a' = a /\ b' = b)).
Proof.
  intros Hl HG. destruct (float_of_int_some lmbd Hl) as [lf Hlf].
  induction idx as [|i idx IH]; intros a b Hab Hidx.
  - apply runs_ret. auto.
  - inversion Hidx as [|? ? Hi Hrest]; subst. cbn [set_shapes].
    eapply runs_bind; [apply runs_random_sample, HG| |].
    2:{ replace (2 * length (i :: idx))%nat with (S (S (2 * length idx))) by (cbn; lia).
        reflexivity. }
    intros u _. eapply runs_bind; [apply (runs_lift _ _ (fun _ => True) Hlf I)| |];
      [|reflexivity].
    intros lu _. eapply runs_bind;
      [apply (runs_lift _ _ (fun x => x = _) (py_setitem_in a i _ Hi) eq_refl)| |];
      [|reflexivity].
    intros a' ->. eapply runs_bind; [apply runs_random_sample, HG| |]; [|reflexivity].
    intros v _. eapply runs_bind; [apply (runs_lift _ _ (fun _ => True) Hlf I)| |];
      [|reflexivity].
    intros lv _. eapply runs_bind;
      [apply (runs_lift _ _ (fun x => x = _) (py_setitem_in b i _ ltac:(lia)) eq_refl)| |];
      [|reflexivity].
    intros b' ->. eapply runs_weaken.
    + apply IH.
      * rewrite !set_nth_length. exact Hab.
      * rewrite set_nth_length. exact Hrest.
    + intros [a2 b2] (La & Lb & _). rewrite La, Lb, !set_nth_length.
      split; [reflexivity|split; [reflexivity|discriminate]].
Qed.

End Runs.
Section CatbirdTrace.
Context {St : Type} (rs : RandomState St) (ncdf : float -> float).

Abbreviation runs_c := (@runs_traced St draw _ (fun d : draw => d) (fun _ => True)).

Lemma runs_catbird_example n_feat fs W idx lmbd eps :
  1 <= fs <= 2 ^ 1023 -> 0 <= n_feat ->
  length idx = Z.to_nat fs -> Forall (fun i => 0 <= i < n_feat) idx ->
  runs_c (catbird_example (traced rs) ncdf n_feat fs W idx lmbd eps)
    (repeat DNormal (Z.to_nat fs) ++ repeat (DBinomial 1 eps) (Z.to_nat n_feat))
    (fun _ => True).
Proof.
  intros Hfs Hn Hidx Hin. unfold catbird_example.
  destruct (float_of_int_some fs ltac:(lia)) as [sq Hsq].
  eapply runs_bind; [apply runs_normal_matrix; [lia|lia|exact I]| |].
  - intros A _. cbv zeta.
    eapply runs_bind; [apply (runs_lift _ _ _ _ (fun _ => True) Hsq I)| |]; [|reflexivity].
    intros sq' _.
    eapply runs_bind;
      [eapply (runs_repeatM _ _ (Z.to_nat n_feat) _ _ (fun _ => True));
       apply runs_binomial; exact I| |]; [|reflexivity].
    intros res Hres.
    eapply runs_bind;
      [apply (runs_lift _ _ _ _ (fun v => v = _)
                (vectorize_some _ _ (A_W_norm_nonempty _ fs _ W ltac:(lia))) eq_refl)| |];
      [|reflexivity].
    intros vals ->.
    destruct (setitems_ok res idx
                (map (fun x => discretize x lmbd)
                   (map (fun v => ncdf (v / PrimFloat.sqrt sq')%float)
                      (vecmat (Z.to_nat fs) (hd [] A) W))))
      as (row & E3 & _).
    + rewrite !length_map, vecmat_length. symmetry. exact Hidx.
    + rewrite Hres. eapply Forall_impl; [|exact Hin]. cbn. lia.
    + apply (runs_lift _ _ _ _ (fun _ => True) E3 I).
  - cbn [app]. rewrite concat_repeat_single, app_nil_r, Nat.mul_1_l. reflexivity.
Qed.

Lemma runs_catbird_examples n_feat fs W idx lmbd eps q :
  1 <= fs <= 2 ^ 1023 -> 0 <= n_feat ->
  length idx = Z.to_nat fs -> Forall (fun i => 0 <= i < n_feat) idx ->
  forall n X y,
  runs_c (catbird_examples (traced rs) ncdf n_feat fs W idx lmbd eps q n X y)
    (concat (repeat (repeat DNormal (Z.to_nat fs)
                     ++ repeat (DBinomial 1 eps) (Z.to_nat n_feat)) n))
    (fun _ => True).
Proof.
  intros Hfs Hn Hidx Hin. induction n as [|n IH]; intros X y.
  - apply runs_ret. exact I.
  - cbn [catbird_examples].
    eapply runs_bind; [apply runs_catbird_example; assumption| |].
    + intros row _. apply IH.
    + reflexivity.
Qed.

Lemma runs_catbird_clusters n_feat feat_sig lmbd eps :
  choice_ok rs -> 0 <= n_feat <= 2 ^ 1023 ->
  Forall (fun fs => 1 <= fs <= n_feat) feat_sig ->
  forall rate i q X y,
  0 <= i -> (Z.to_nat i + length rate <= length feat_sig)%nat ->
  runs_c (catbird_clusters (traced rs) ncdf n_feat feat_sig lmbd eps i rate q X y)
    (catbird_schedule n_feat eps (skipn (Z.to_nat i) feat_sig) rate) (fun _ => True).
Proof.
  intros Hc Hn Hfs. induction rate as [|r rate IH]; intros i q X y Hi Hlen.
  - cbn. destruct (skipn _ _); apply runs_ret; exact I.
  - cbn [length] in Hlen. cbn [catbird_clusters].
    set (fs := nth (Z.to_nat i) feat_sig 0).
    assert (Hfs_in : 1 <= fs <= n_feat).
    { rewrite Forall_forall in Hfs. apply Hfs, nth_In. lia. }
    rewrite (skipn_nth feat_sig (Z.to_nat i) 0) by lia. fold fs.
    replace (S (Z.to_nat i)) with (Z.to_nat (i + 1)) by lia.
    cbn [catbird_schedule].
    eapply runs_bind;
      [apply (runs_lift _ _ _ _ (fun x => x = fs) (py_index_in feat_sig i 0 ltac:(lia)) eq_refl)
      | |].
    2:{ rewrite app_nil_l. reflexivity. }
    intros fs' ->.
    eapply runs_bind; [apply runs_normal_matrix; [lia|lia|exact I]| |].
    2:{ rewrite Z2Nat.inj_mul by lia. reflexivity. }
    intros W _.
    eapply runs_bind; [apply runs_choice; [exact Hc|lia|exact I]| |]; [|reflexivity].
    intros idx [L1 F1].
    eapply runs_bind; [apply runs_catbird_examples; [lia|lia|exact L1|exact F1]| |];
      [|reflexivity].
    intros [X' y'] _. apply IH; lia.
Qed.

(** The draws of [catbird] from an int seed are those of
    [catbird_schedule], in that order. *)
Lemma catbird_trace n_feat feat_sig rate lmbd eps z entropy :
  choice_ok rs -> 1 < n_feat <= 2 ^ 1023 -> feat_sig <> [] ->
  (length rate <= length feat_sig)%nat ->
  Forall (fun fs => 1 <= fs <= n_feat) feat_sig ->
  (0 <=? lmbd)%float && (lmbd <=? 1)%float = true ->
  (0 <=? eps)%float && (eps <=? 1)%float = true ->
  0 <= z < 2 ^ 32 ->
  exists X y s' L,
    catbird (traced rs) ncdf n_feat feat_sig rate lmbd eps (SeedInt z) entropy
      = Some ((X, y), (s', L)) /\
    L = catbird_schedule n_feat eps feat_sig rate.
Proof.
  intros Hc Hn Hne Hlen Hfs Hl He Hz.
  destruct (py_max_le feat_sig n_feat Hne ltac:(eapply Forall_impl; [|exact Hfs]; cbn; lia))
    as (mx & Hmx & Hmxle).
  assert (Hb : runs_c (catbird_body (traced rs) ncdf n_feat feat_sig rate lmbd eps)
                 (catbird_schedule n_feat eps feat_sig rate) (fun _ => True)).
  { unfold catbird_body.
    eapply runs_bind; [apply runs_assert, Z.ltb_lt; lia| |]; [|reflexivity].
    intros _ _.
    eapply runs_bind; [apply (runs_lift _ _ _ _ (fun x => x = mx) Hmx eq_refl)| |];
      [|reflexivity].
    intros mx' ->.
    eapply runs_bind; [apply runs_assert, Z.leb_le; exact Hmxle| |]; [|reflexivity].
    intros _ _. eapply runs_bind; [apply runs_assert, Hl| |]; [|reflexivity].
    intros _ _. eapply runs_bind; [apply runs_assert, He| |]; [|reflexivity].
    intros _ _. apply runs_catbird_clusters; [exact Hc|lia|exact Hfs|lia|cbn; lia]. }
  unfold catbird. cbn [resolve traced rs_seed].
  rewrite (proj2 (Z.leb_le 0 z)), (proj2 (Z.ltb_lt z _)) by lia. cbn [andb].
  destruct (Hb (rs_seed rs z) []) as ([X y] & s' & L & E & ML & _ & _).
  exists X, y, s', L. split; [exact E|]. rewrite map_id in ML. exact ML.
Qed.

End CatbirdTrace.

Section CanardTrace.
Context {St : Type} (rs : RandomState St).
Variables (n_feat size : Z).

Abbreviation runs_k := (@runs_traced St draw_kind _ kind (canard_draw_ok n_feat size)).

Lemma runs_canard_example a b edges :
  (forall j, (j < Z.to_nat n_feat)%nat -> size = 0 ->
             nth j a 1%float = 1%float /\ nth j b 1%float = 1%float) ->
  runs_k (canard_example (traced rs) n_feat a b edges) (repeat KBeta (Z.to_nat n_feat))
         (fun _ => True).
Proof.
  intros Hab. unfold canard_example.
  replace (repeat KBeta (Z.to_nat n_feat))
    with (concat (map (fun _ : nat => [KBeta]) (seq 0 (Z.to_nat n_feat))))
    by (rewrite concat_map_const, length_seq; reflexivity).
  eapply runs_weaken; [eapply (runs_mapM _ _ _ _ (fun _ => True))|intros; exact I].
  intros j Hj. apply in_seq in Hj.
  eapply runs_bind; [apply runs_beta; cbn; intros H0; apply Hab; [lia|exact H0]| |].
  - intros x _. apply runs_ret. exact I.
  - reflexivity.
Qed.

Lemma runs_canard_examples a b edges q :
  (forall j, (j < Z.to_nat n_feat)%nat -> size = 0 ->
             nth j a 1%float = 1%float /\ nth j b 1%float = 1%float) ->
  forall n X y,
  runs_k (canard_examples (traced rs) n_feat a b edges q n X y)
         (repeat KBeta (n * Z.to_nat n_feat)) (fun _ => True).
Proof.
  intros Hab. induction n as [|n IH]; intros X y.
  - apply runs_ret. exact I.
  - cbn [canard_examples].
    eapply runs_bind; [apply runs_canard_example, Hab| |].
    + intros row _. apply IH.
    + cbn [Nat.mul]. rewrite repeat_app. reflexivity.
Qed.

Lemma runs_canard_clusters lmbd eps edges :
  choice_ok rs -> 0 <= n_feat -> 0 <= lmbd <= 2 ^ 1023 ->
  Gen.controlled_size n_feat eps = Some size -> 0 <= size <= n_feat ->
  forall rate q X y, Forall (fun r => 0 <= r) rate ->
  runs_k (canard_clusters (traced rs) n_feat lmbd eps edges (map PyInt rate) q X y)
         (canard_schedule n_feat size rate) (fun _ => True).
Proof.
  intros Hc Hn Hl Hsz Hszr. induction rate as [|r rate IH]; intros q X y Hr.
  - apply runs_ret. exact I.
  - inversion Hr as [|? ? Hr0 Hrs]; subst. cbn [map canard_clusters canard_schedule].
    eapply runs_bind; [apply (runs_lift _ _ _ _ (fun x => x = size) Hsz eq_refl)| |];
      [|reflexivity].
    intros sz ->.
    eapply runs_bind; [apply runs_choice; [exact Hc|lia|cbn; auto]| |]; [|reflexivity].
    intros idx [L1 F1].
    eapply runs_bind;
      [apply runs_set_shapes;
       [exact Hl|exact I|reflexivity|rewrite repeat_length; eapply Forall_impl; [|exact F1];
                                     cbn; lia]| |].
    2:{ rewrite L1. reflexivity. }
    intros [a b] (_ & _ & Hab).
    eapply runs_bind; [apply (runs_lift _ _ _ _ (fun x => x = r)
                                (eq_refl : as_index (PyInt r) = Some r) eq_refl)| |];
      [|reflexivity].
    intros k ->.
    eapply runs_bind; [apply runs_canard_examples| |].
    + intros j Hj H0. subst size. destruct idx; [|discriminate L1].
      destruct (Hab eq_refl) as [-> ->]. rewrite !nth_repeat. auto.
    + intros [X' y'] _. apply IH, Hrs.
    + reflexivity.
Qed.

(** The draws of [canard] from an int seed, by kind, are those of
    [canard_schedule]; each subset is drawn by [choice(n_feat, size)], and
    with [size = 0] every Beta draw has the shapes [(1, 1)]. *)
Lemma canard_trace n_cat rate lmbd eps z entropy :
  choice_ok rs -> 1 < n_feat < 2 ^ 53 -> 1 < n_cat -> Forall (fun r => 0 <= r) rate ->
  1 <= lmbd <= 2 ^ 1023 ->
  (0 <=? eps)%float && (eps <=? 1)%float = true ->
  0 <= z < 2 ^ 32 ->
  Gen.controlled_size n_feat eps = Some size ->
  exists X y s' L,
    canard (traced rs) n_feat n_cat rate lmbd eps (SeedInt z) entropy
      = Some ((X, y), (s', L)) /\
    map kind L = canard_schedule n_feat size rate /\
    Forall (canard_draw_ok n_feat size) L.
Proof.
  intros Hc Hn Hcat Hr Hl He Hz Hsz.
  apply andb_prop in He as He'. destruct He' as [He0 He1].
  destruct (controlled_size_range n_feat eps ltac:(lia) He0 He1) as (sz & Hsz' & Hszr).
  rewrite Hsz in Hsz'. injection Hsz' as <-.
  destruct (bins_some n_cat ltac:(lia)) as [edges Hedges].
  assert (Hb : runs_k (canard_body (traced rs) (PyInt n_feat) (PyInt n_cat)
                         (PyList (map PyInt rate)) (PyInt lmbd) (PyFloat eps))
                 (canard_schedule n_feat size rate) (fun _ => True)).
  { unfold canard_body.
    eapply runs_bind; [apply (runs_lift _ _ _ _ (fun x => x = n_feat) eq_refl eq_refl)| |];
      [|reflexivity].
    intros nf ->.
    eapply runs_bind; [apply runs_assert, Z.ltb_lt; lia| |]; [|reflexivity]. intros _ _.
    eapply runs_bind; [apply (runs_lift _ _ _ _ (fun x => x = n_cat) eq_refl eq_refl)| |];
      [|reflexivity].
    intros nc ->.
    eapply runs_bind; [apply runs_assert, Z.ltb_lt; lia| |]; [|reflexivity]. intros _ _.
    eapply runs_bind;
      [apply (runs_lift _ _ _ _ (fun x => x = map PyInt rate) eq_refl eq_refl)| |];
      [|reflexivity].
    intros rl ->.
    eapply runs_bind; [apply (runs_lift _ _ _ _ (fun x => x = lmbd) eq_refl eq_refl)| |];
      [|reflexivity].
    intros lm ->.
    eapply runs_bind; [apply runs_assert, Z.leb_le; lia| |]; [|reflexivity]. intros _ _.
    eapply runs_bind; [apply (runs_lift _ _ _ _ (fun x => x = eps) eq_refl eq_refl)| |];
      [|reflexivity].
    intros e ->.
    eapply runs_bind; [apply runs_assert, He| |]; [|reflexivity]. intros _ _.
    eapply runs_bind; [apply (runs_lift _ _ _ _ (fun _ => True) Hedges I)| |];
      [|reflexivity].
    intros edges' _.
    eapply runs_bind; [apply runs_canard_clusters; [exact Hc|lia|lia|exact Hsz|lia|exact Hr]| |].
    - intros [X y] _. apply runs_ret. exact I.
    - rewrite app_nil_r. reflexivity. }
  unfold canard, canard_py. cbn [resolve traced rs_seed].
  rewrite (proj2 (Z.leb_le 0 z)), (proj2 (Z.ltb_lt z _)) by lia. cbn [andb].
  destruct (Hb (rs_seed rs z) []) as ([X y] & s' & L & E & ML & GL & _).
  exists X, y, s', L. auto.
Qed.

End CanardTrace.

End TraceFacts.

Module ShapeFacts.
Import PyNum PyFloat Gen FloatFacts BinFacts FloatBound GenFacts.

Lemma blocks_range q rate :
  Forall (fun v => q <= v < q + Z.of_nat (length rate)) (blocks q rate).
Proof.
  revert q. induction rate as [|r rate IH]; intros q; [constructor|].
  cbn [blocks length]. apply Forall_app. split.
  - apply Forall_forall. intros v Hv. apply repeat_spec in Hv. lia.
  - eapply Forall_impl; [|apply IH]. cbn. lia.
Qed.

Lemma blocks_sorted q rate : StronglySorted Z.le (blocks q rate).
Proof.
  revert q. induction rate as [|r rate IH]; intros q; [constructor|].
  cbn [blocks]. induction (Z.to_nat r) as [|n IHn]; [apply IH|].
  cbn [repeat app]. constructor; [exact IHn|].
  apply Forall_app. split.
  - apply Forall_forall. intros v Hv. apply repeat_spec in Hv. lia.
  - eapply Forall_impl; [|apply blocks_range]. cbn. lia.
Qed.

Lemma blocks_count q rate i :
  (i < length rate)%nat ->
  count_occ Z.eq_dec (blocks q rate) (q + Z.of_nat i) = Z.to_nat (nth i rate 0).
Proof.
  revert q i. induction rate as [|r rate IH]; intros q i Hi; cbn [length] in Hi; [lia|].
  cbn [blocks]. rewrite count_occ_app. destruct i as [|i].
  - rewrite count_occ_repeat_eq by lia.
    assert (Hn : ~ In (q + Z.of_nat 0) (blocks (q + 1) rate)).
    { intros Hin. pose proof (blocks_range (q + 1) rate) as Hr.
      rewrite Forall_forall in Hr. apply Hr in Hin. lia. }
    apply (count_occ_not_In Z.eq_dec) in Hn. rewrite Hn. cbn. lia.
  - rewrite count_occ_repeat_neq by lia. cbn [nth].
    replace (q + Z.of_nat (S i)) with (q + 1 + Z.of_nat i) by lia.
    apply IH. lia.
Qed.

Lemma blocks_shape n_feat rate X :
  Forall (fun r => 0 <= r) rate ->
  Z.of_nat (length X) = Rate.sum rate ->
  Forall (fun row => length row = Z.to_nat n_feat) X ->
  dataset_shape n_feat rate X (blocks 0 rate).
Proof.
  intros Hr HX HF. unfold dataset_shape.
  split; [exact HX|]. split; [apply blocks_length, Hr|]. split; [exact HF|].
  split; [apply blocks_sorted|]. split; [eapply Forall_impl; [|apply (blocks_range 0 rate)]; cbn; lia|].
  intros i Hi. apply (blocks_count 0 rate i Hi).
Qed.

Lemma controlled_size_one n : 1 <= n <= 2 ^ 1023 -> controlled_size n 1 = Some 0.
Proof.
  intros Hn. unfold controlled_size.
  destruct (float_of_int_some n ltac:(lia)) as [nf E]. rewrite E.
  destruct (float_of_int_finite n nf Hn E) as (m & e & Hnf).
  unfold float_to_int. rewrite mul_spec, Hnf.
  replace (Prim2SF (1 - 1)%float) with (S754_zero false) by (vm_compute; reflexivity).
  reflexivity.
Qed.

Lemma fixed_choice_ok v : choice_ok (TestRNG.fixed v).
Proof.
  intros n k s Hk. cbn.
  rewrite (proj2 (Z.leb_le 0 k)), (proj2 (Z.leb_le k n)) by lia. cbn [andb].
  eexists; eexists. split; [reflexivity|].
  rewrite length_map, length_seq. split; [reflexivity|].
  apply Forall_forall. intros i Hi. apply in_map_iff in Hi as (j & <- & Hj).
  apply in_seq in Hj. lia.
Qed.

Lemma canard_py_checks {St} (rs : RandomState St) n_feat n_cat rate lmbd eps
    random_state entropy :
  canard_args_ok n_feat n_cat rate lmbd eps = false ->
  canard_py rs n_feat n_cat rate lmbd eps random_state entropy = None.
Proof.
  intros Hbad. unfold canard_py. destruct (resolve rs random_state entropy) as [s|];
    [|reflexivity].
  unfold canard_body, bind, lift, py_assert, ret, raise.
  cbv beta iota delta [as_int as_list as_float].
  destruct n_feat as [nf| | | | | ]; try reflexivity.
  destruct (1 <? nf) eqn:E1; cbv beta iota; [|reflexivity].
  destruct n_cat as [nc| | | | | ]; try reflexivity.
  destruct (1 <? nc) eqn:E2; cbv beta iota; [|reflexivity].
  destruct rate; try reflexivity.
  destruct lmbd as [lm| | | | | ]; try reflexivity.
  destruct (1 <=? lm) eqn:E3; cbv beta iota; [|reflexivity].
  destruct eps; try reflexivity.
  cbn in Hbad. rewrite E1, E2, E3 in Hbad. cbn in Hbad.
  rewrite Hbad. reflexivity.
Qed.

End ShapeFacts.

(** ** The claims on [get_rate] *)

Module RateClaims.
Import PyNum Rate RateFacts.

(** C4 (code bug): [get_rate] can fail although the plans the specification
    describes meet the minimum: for [N = 2^1025], [k = 2], [n_min = 0] the
    declining plan [floor(N/2), floor((N - floor(N/2))/3)] and the uniform
    entry are non-negative, yet the call raises, with the OverflowError of
    the float division [resto/j] rather than a failed postcondition. *)
Theorem get_rate_fails_without_violation :
  get_rate (2 ^ 1025) 2 0 = None /\
  Forall (fun x => 0 <= x) (declining_spec (2 ^ 1025) 2) /\
  0 <= sum (declining_spec (2 ^ 1025) 2) / 2 /\
  truediv (2 ^ 1025) 2 = None.
Proof.
  split; [vm_compute; reflexivity|].
  split; [vm_compute; repeat constructor; discriminate|].
  split; [vm_compute; discriminate|].
  vm_compute. reflexivity.
Qed.

(** C5 (code bug): the declining plan is not [floor(remaining / j)]: the code
    takes [int(resto/j)] of the rounded float quotient. For
    [N = 2^60 - 1], [k = 2] the first entry is [2^59], while
    [floor((2^60 - 1) / 2) = 2^59 - 1]. *)
Theorem get_rate_declining_not_floor :
  get_rate (2 ^ 60 - 1) 2 0 =
    Some [[384307168202282304; 384307168202282304];
          [576460752303423488; 192153584101141152]] /\
  declining_spec (2 ^ 60 - 1) 2 = [576460752303423487; 192153584101141162] /\
  576460752303423488 = 2 ^ 59.
Proof.
  split; [vm_compute; reflexivity|].
  split; vm_compute; reflexivity.
Qed.

(** C6 (counterexample): the first component is not the declining plan:
    [get_rate(100, 3, 0)] returns [[[24, 24, 24], [50, 16, 8]]], whose first
    component is the uniform plan, the declining one [[50, 16, 8]] being
    second. *)
Lemma get_rate_order_counterexample :
  get_rate 100 3 0 = Some [[24; 24; 24]; [50; 16; 8]] /\
  declining_spec 100 3 = [50; 16; 8] /\
  [24; 24; 24] <> declining_spec 100 3.
Proof.
  split; [vm_compute; reflexivity|].
  split; vm_compute; [reflexivity|discriminate].
Qed.

(** C6 (amended): a successful [get_rate] returns [[rate_s, rate_c]]: first
    the uniform plan [rate_s], [k] copies of [int(sum(rate_c)/k)], then the
    declining plan [rate_c] computed by the loop, both of length [k]. *)
Theorem get_rate_order N k n_min r :
  get_rate N k n_min = Some r ->
  exists rate_s rate_c u,
    r = [rate_s; rate_c] /\
    rate_c_loop N N 2 (Z.to_nat k) [] = Some rate_c /\
    truediv (sum rate_c) k = Some u /\
    rate_s = repeat (to_int u) (Z.to_nat k) /\
    length rate_s = Z.to_nat k /\ length rate_c = Z.to_nat k.
Proof.
  intros H. destruct (get_rate_inv N k n_min r H) as (HN & Hk & rate_c & u & Hl & Hu & ->).
  exists (repeat (to_int u) (Z.to_nat k)), rate_c, u.
  repeat split; try assumption.
  - apply repeat_length.
  - apply rate_c_loop_length in Hl. simpl in Hl. exact Hl.
Qed.

Lemma get_rate_order_witness :
  exists rate_s rate_c u,
    [[24; 24; 24]; [50; 16; 8]] = [rate_s; rate_c] /\
    rate_c_loop 100 100 2 (Z.to_nat 3) [] = Some rate_c /\
    truediv (sum rate_c) 3 = Some u /\
    rate_s = repeat (to_int u) (Z.to_nat 3) /\
    length rate_s = Z.to_nat 3 /\ length rate_c = Z.to_nat 3.
Proof.
  apply (get_rate_order 100 3 0 [[24; 24; 24]; [50; 16; 8]]).
  vm_compute. reflexivity.
Defined.

(** C7: on success the declining plan (the second component) is
    non-increasing and the entries of the uniform plan (the first component)
    are all equal. *)
Theorem get_rate_plans_shape N k n_min rate_s rate_c :
  get_rate N k n_min = Some [rate_s; rate_c] ->
  noninc rate_c /\
  (forall i j, (i < length rate_s)%nat -> (j < length rate_s)%nat ->
     nth i rate_s 0 = nth j rate_s 0).
Proof.
  intros H. destruct (get_rate_inv N k n_min _ H) as (HN & Hk & rc & u & Hl & Hu & Hr).
  injection Hr as -> ->. split.
  - apply (rate_c_loop_noninc N (Z.to_nat k) N 2 [] rc); try lia.
    + cbn. lia.
    + intros i Hi. simpl in Hi. lia.
    + left. reflexivity.
    + exact Hl.
  - intros i j Hi Hj. rewrite repeat_length in Hi, Hj.
    rewrite !nth_repeat_lt by assumption. reflexivity.
Qed.

Lemma get_rate_plans_shape_witness :
  get_rate 100 3 0 = Some [[24; 24; 24]; [50; 16; 8]] /\
  noninc [50; 16; 8] /\
  (forall i j, (i < length [24; 24; 24]%Z)%nat -> (j < length [24; 24; 24]%Z)%nat ->
     nth i [24; 24; 24] 0 = nth j [24; 24; 24] 0).
Proof.
  split; [vm_compute; reflexivity|].
  apply (get_rate_plans_shape 100 3 0). vm_compute. reflexivity.
Defined.

End RateClaims.

(** ** The claims on [catbird] and [canard] *)

Module GenClaims.
Import PyNum PyFloat Gen FloatFacts BinFacts FloatBound GenFacts TraceFacts ShapeFacts.

(** C1 (amended): with at least one cluster and sizes in the range of
    binary64 ([n_feat < 2^53], [lmbd <= 2^1023] for [canard]), both
    generators return, on valid arguments (for [catbird], every entry of
    [feat_sig] in [[1, n_feat]]), [len(rate)] blocks of rows:
    [len(X) = len(y) = sum(rate)], rows of length [n_feat], [y]
    non-decreasing, valued in [0 .. len(rate)-1], each [i] appearing
    [rate[i]] times. *)
Theorem generators_dataset_shape {St} (rs : RandomState St) (ncdf : float -> float)
    n_feat feat_sig rate lmbd eps n_cat lmbd_c eps_c random_state entropy :
  choice_ok rs -> valid_seed random_state ->
  1 < n_feat < 2 ^ 53 -> Forall (fun r => 0 <= r) rate ->
  feat_sig <> [] -> (length rate <= length feat_sig)%nat ->
  Forall (fun fs => 1 <= fs <= n_feat) feat_sig ->
  (0 <=? lmbd)%float && (lmbd <=? 1)%float = true ->
  (0 <=? eps)%float && (eps <=? 1)%float = true ->
  1 < n_cat -> 1 <= lmbd_c <= 2 ^ 1023 ->
  (0 <=? eps_c)%float && (eps_c <=? 1)%float = true ->
  (exists X y s', catbird rs ncdf n_feat feat_sig rate lmbd eps random_state entropy
                    = Some ((X, y), s') /\ dataset_shape n_feat rate X y) /\
  (exists X y s', canard rs n_feat n_cat rate lmbd_c eps_c random_state entropy
                    = Some ((X, y), s') /\ dataset_shape n_feat rate X y).
Proof.
  intros Hc Hseed Hn Hr Hne Hlen Hfs Hl He Hcat Hlc Hec. split.
  - destruct (catbird_ok rs ncdf n_feat feat_sig rate lmbd eps random_state entropy
                Hc ltac:(lia) Hne Hlen Hfs Hr Hl He Hseed) as (X & y & s' & E & -> & L & F).
    exists X, (blocks 0 rate), s'. split; [exact E|]. apply blocks_shape; assumption.
  - destruct (canard_ok rs n_feat n_cat rate lmbd_c eps_c random_state entropy
                Hc Hn Hcat Hr Hlc Hec Hseed) as (X & y & s' & E & -> & L & F).
    exists X, (blocks 0 rate), s'. split; [exact E|]. apply blocks_shape; assumption.
Qed.

Lemma generators_dataset_shape_witness :
  (exists X y s', catbird (TestRNG.fixed 0.5) TestRNG.cdf_half 2 [2; 1] [1; 2] 0.5 0.25
                    (SeedInt 0) 0 = Some ((X, y), s') /\ dataset_shape 2 [1; 2] X y) /\
  (exists X y s', canard (TestRNG.fixed 0.5) 2 2 [1; 2] 10 0.75 (SeedInt 0) 0
                    = Some ((X, y), s') /\ dataset_shape 2 [1; 2] X y).
Proof.
  apply (generators_dataset_shape (TestRNG.fixed 0.5) TestRNG.cdf_half 2 [2; 1] [1; 2] 0.5 0.25
           2 10 0.75 (SeedInt 0) 0).
  - apply fixed_choice_ok.
  - cbn. lia.
  - lia.
  - repeat constructor; lia.
  - discriminate.
  - cbn. lia.
  - repeat constructor; lia.
  - reflexivity.
  - reflexivity.
  - lia.
  - lia.
  - reflexivity.
Defined.

(** C1: [generate_categorical] called with [lmbd = 10.0], the default of
    its public signature, raises: the source asserts [type(lmbd) == int].
    And [generate_binary] with [feat_sig = [0]] and [rate = [1]], which
    pass its checks, raises: [discretize] is called on an empty array. *)
Lemma generators_dataset_shape_counterexample :
  canard_py (TestRNG.fixed 0.5) (PyInt 2) (PyInt 2) (PyList [PyInt 1]) (PyFloat 10)
    (PyFloat 0.75) (SeedInt 0) 0 = None /\
  catbird (TestRNG.fixed 0.5) TestRNG.cdf_half 2 [0] [1] 0.5 0.25 (SeedInt 0) 0 = None.
Proof. split; vm_compute; reflexivity. Qed.

(** C2: a Beta draw of exactly [0.0] is in no bin of [pd.cut]; the NaN it
    gives is cast to the least int64, an entry outside [0 .. n_cat-1].
    Here [beta(1, 1)] returns [0.0] for both features of the one row. *)
Theorem canard_zero_draw_entry :
  canard (TestRNG.fixed 0) 2 2 [1] 10 1 (SeedInt 0) 0
    = Some (([[- 2 ^ 63; - 2 ^ 63]], [0]), 3).
Proof. vm_compute. reflexivity. Qed.

(** C3: with an int seed the outputs do not depend on the global state, so
    two calls with the same arguments agree; on valid arguments (for
    [catbird], [feat_sig] entries in [[1, n_feat]]) the calls return, the
    draws of [catbird] are those of [catbird_schedule] (per cluster the
    matrix [W], the subset [idx], then per example [A] and the noise bits),
    and those of [canard]
    those of [canard_schedule] (per cluster the subset, the shape draws,
    then the Beta draws of each example). *)
Theorem seeded_generators_reproducible {St} (rs : RandomState St) (ncdf : float -> float)
    n_feat feat_sig rate lmbd eps n_cat lmbd_c eps_c z :
  choice_ok rs -> 0 <= z < 2 ^ 32 ->
  1 < n_feat < 2 ^ 53 -> Forall (fun r => 0 <= r) rate ->
  feat_sig <> [] -> (length rate <= length feat_sig)%nat ->
  Forall (fun fs => 1 <= fs <= n_feat) feat_sig ->
  (0 <=? lmbd)%float && (lmbd <=? 1)%float = true ->
  (0 <=? eps)%float && (eps <=? 1)%float = true ->
  1 < n_cat -> 1 <= lmbd_c <= 2 ^ 1023 ->
  (0 <=? eps_c)%float && (eps_c <=? 1)%float = true ->
  (forall e1 e2, catbird rs ncdf n_feat feat_sig rate lmbd eps (SeedInt z) e1
                 = catbird rs ncdf n_feat feat_sig rate lmbd eps (SeedInt z) e2) /\
  (forall e1 e2, canard rs n_feat n_cat rate lmbd_c eps_c (SeedInt z) e1
                 = canard rs n_feat n_cat rate lmbd_c eps_c (SeedInt z) e2) /\
  (forall e, exists X y s' L,
     catbird (traced rs) ncdf n_feat feat_sig rate lmbd eps (SeedInt z) e
       = Some ((X, y), (s', L)) /\
     L = catbird_schedule n_feat eps feat_sig rate) /\
  (exists size, controlled_size n_feat eps_c = Some size /\
   forall e, exists X y s' L,
     canard (traced rs) n_feat n_cat rate lmbd_c eps_c (SeedInt z) e
       = Some ((X, y), (s', L)) /\
     map kind L = canard_schedule n_feat size rate).
Proof.
  intros Hc Hz Hn Hr Hne Hlen Hfs Hl He Hcat Hlc Hec.
  split; [intros e1 e2; reflexivity|].
  split; [intros e1 e2; reflexivity|].
  split.
  - intros e. apply catbird_trace; auto. lia.
  - apply andb_prop in Hec as Hec'. destruct Hec' as [He0 He1].
    destruct (controlled_size_range n_feat eps_c ltac:(lia) He0 He1) as (size & Hsz & _).
    exists size. split; [exact Hsz|]. intros e.
    destruct (canard_trace rs n_feat size n_cat rate lmbd_c eps_c z e
                Hc Hn Hcat Hr Hlc Hec Hz Hsz) as (X & y & s' & L & E & ML & _).
    exists X, y, s', L. auto.
Qed.

Lemma seeded_generators_reproducible_witness :
  let rs := TestRNG.fixed 0.5 in
  (forall e1 e2, catbird rs TestRNG.cdf_half 3 [2; 1] [2; 1] 0.5 0.25 (SeedInt 7) e1
                 = catbird rs TestRNG.cdf_half 3 [2; 1] [2; 1] 0.5 0.25 (SeedInt 7) e2) /\
  (forall e1 e2, canard rs 3 2 [2; 1] 10 0.75 (SeedInt 7) e1
                 = canard rs 3 2 [2; 1] 10 0.75 (SeedInt 7) e2) /\
  (forall e, exists X y s' L,
     catbird (traced rs) TestRNG.cdf_half 3 [2; 1] [2; 1] 0.5 0.25 (SeedInt 7) e
       = Some ((X, y), (s', L)) /\
     L = catbird_schedule 3 0.25 [2; 1] [2; 1]) /\
  (exists size, controlled_size 3 0.75 = Some size /\
   forall e, exists X y s' L,
     canard (traced rs) 3 2 [2; 1] 10 0.75 (SeedInt 7) e = Some ((X, y), (s', L)) /\
     map kind L = canard_schedule 3 size [2; 1]).
Proof.
  intros rs.
  apply (seeded_generators_reproducible rs TestRNG.cdf_half 3 [2; 1] [2; 1] 0.5 0.25
           2 10 0.75 7).
  - apply fixed_choice_ok.
  - lia.
  - lia.
  - repeat constructor; lia.
  - discriminate.
  - cbn. lia.
  - repeat constructor; lia.
  - reflexivity.
  - reflexivity.
  - lia.
  - lia.
  - reflexivity.
Defined.

(** C8 (amended): on int [n_feat], [n_cat], [lmbd], a list [rate] of
    non-negative ints and a float [eps] ([n_feat < 2^53],
    [lmbd <= 2^1023]), [canard] raises exactly when [n_feat <= 1],
    [n_cat <= 1], [lmbd < 1] or [eps] is not in [[0, 1]]; and it raises,
    whatever the generator, on any argument of another type, such as a
    float [lmbd]. *)
Theorem canard_argument_checks {St} (rs : RandomState St) nf nc rate lm eps
    random_state entropy :
  choice_ok rs -> valid_seed random_state ->
  nf < 2 ^ 53 -> lm <= 2 ^ 1023 -> Forall (fun r => 0 <= r) rate ->
  (canard rs nf nc rate lm eps random_state entropy = None <->
   ~ (1 < nf /\ 1 < nc /\ 1 <= lm /\ (0 <=? eps)%float = true /\ (eps <=? 1)%float = true)) /\
  (forall n_feat n_cat rate' lmbd eps',
     canard_args_ok n_feat n_cat rate' lmbd eps' = false ->
     canard_py rs n_feat n_cat rate' lmbd eps' random_state entropy = None).
Proof.
  intros Hc Hseed Hnf Hlm Hr. split.
  - split.
    + intros Hnone (H1 & H2 & H3 & H4 & H5).
      destruct (canard_ok rs nf nc rate lm eps random_state entropy Hc ltac:(lia) H2 Hr
                  ltac:(lia) ltac:(rewrite H4, H5; reflexivity) Hseed)
        as (X & y & s' & E & _). congruence.
    + intros Hnot. apply canard_py_checks. cbn.
      destruct (1 <? nf) eqn:E1, (1 <? nc) eqn:E2, (1 <=? lm) eqn:E3,
               (0 <=? eps)%float eqn:E4, (eps <=? 1)%float eqn:E5; try reflexivity.
      exfalso. apply Hnot. apply Z.ltb_lt in E1, E2. apply Z.leb_le in E3. auto.
  - intros n_feat n_cat rate' lmbd eps' Hbad. apply canard_py_checks, Hbad.
Qed.

Lemma canard_argument_checks_witness :
  (canard (TestRNG.fixed 0.5) 3 2 [4] 0 0.75 (SeedInt 1) 0 = None <->
   ~ (1 < 3 /\ 1 < 2 /\ 1 <= 0 /\ (0 <=? 0.75)%float = true /\ (0.75 <=? 1)%float = true)) /\
  (forall n_feat n_cat rate' lmbd eps',
     canard_args_ok n_feat n_cat rate' lmbd eps' = false ->
     canard_py (TestRNG.fixed 0.5) n_feat n_cat rate' lmbd eps' (SeedInt 1) 0 = None).
Proof.
  apply (canard_argument_checks (TestRNG.fixed 0.5) 3 2 [4] 0 0.75 (SeedInt 1) 0).
  - apply fixed_choice_ok.
  - cbn. lia.
  - lia.
  - lia.
  - repeat constructor; lia.
Defined.

(** C8: a non-integer [lmbd >= 1], here the float [1.5], is refused by
    [canard]. *)
Lemma canard_argument_checks_counterexample :
  canard_py (TestRNG.fixed 0.5) (PyInt 5) (PyInt 3) (PyList [PyInt 2]) (PyFloat 1.5)
    (PyFloat 0.5) (SeedInt 0) 0 = None.
Proof. vm_compute. reflexivity. Qed.

(** C9 (amended): every subset of controlled features that [canard] draws
    has the size [int(n_feat * (1 - eps))] computed in binary64
    ([controlled_size]), between [0] and [n_feat]; with [eps = 1.0] this
    size is [0], the call returns, and every Beta draw has the shapes
    [(1, 1)]. *)
Theorem canard_controlled_subset_size {St} (rs : RandomState St) n_feat n_cat rate lmbd eps
    z entropy :
  choice_ok rs -> 1 < n_feat < 2 ^ 53 -> 1 < n_cat -> Forall (fun r => 0 <= r) rate ->
  1 <= lmbd <= 2 ^ 1023 ->
  (0 <=? eps)%float && (eps <=? 1)%float = true ->
  0 <= z < 2 ^ 32 ->
  exists size, controlled_size n_feat eps = Some size /\ 0 <= size <= n_feat /\
    (eps = 1%float -> size = 0) /\
    exists X y s' L,
      canard (traced rs) n_feat n_cat rate lmbd eps (SeedInt z) entropy
        = Some ((X, y), (s', L)) /\
      map kind L = canard_schedule n_feat size rate /\
      Forall (canard_draw_ok n_feat size) L.
Proof.
  intros Hc Hn Hcat Hr Hl He Hz.
  apply andb_prop in He as He'. destruct He' as [He0 He1].
  destruct (controlled_size_range n_feat eps ltac:(lia) He0 He1) as (size & Hsz & Hszr).
  exists size. split; [exact Hsz|]. split; [exact Hszr|]. split.
  - intros ->. rewrite controlled_size_one in Hsz by lia. congruence.
  - apply (canard_trace rs n_feat size n_cat rate lmbd eps z entropy); assumption.
Qed.

Lemma canard_controlled_subset_size_witness :
  exists size, controlled_size 4 1 = Some size /\ 0 <= size <= 4 /\
    ((1 = 1)%float -> size = 0) /\
    exists X y s' L,
      canard (traced (TestRNG.fixed 0.5)) 4 3 [2; 3] 10 1 (SeedInt 5) (0, [])
        = Some ((X, y), (s', L)) /\
      map kind L = canard_schedule 4 size [2; 3] /\
      Forall (canard_draw_ok 4 size) L.
Proof.
  apply (canard_controlled_subset_size (TestRNG.fixed 0.5) 4 3 [2; 3] 10 1 5 (0, [])).
  - apply fixed_choice_ok.
  - lia.
  - lia.
  - repeat constructor; lia.
  - lia.
  - reflexivity.
  - lia.
Defined.

(** C9: for [n_feat = 3] and [eps] the binary64 number
    [6004799503160662 * 2^-54] (just above 1/3), [floor(3 * (1 - eps))]
    is [1], but the product rounds to [2.0] and [canard] draws a subset of
    size 2. *)
Lemma canard_controlled_subset_size_counterexample :
  let eps := SF2Prim (S754_finite false 6004799503160662 (-54)) in
  Prim2SF eps = S754_finite false 6004799503160662 (-54) /\
  3 * (2 ^ 54 - 6004799503160662) / 2 ^ 54 = 1 /\
  controlled_size 3 eps = Some 2 /\
  exists r, canard (traced (TestRNG.fixed 0.5)) 3 2 [1] 1 eps (SeedInt 0) (0, []) = Some r /\
            In (DChoice 3 2) (snd (snd r)).
Proof.
  vm_compute. split; [reflexivity|]. split; [reflexivity|]. split; [reflexivity|].
  eexists. split; [reflexivity|]. cbn. tauto.
Qed.

(** C10: the bins of [canard] cut [(0, 1]]: a draw [x] gets a category in
    [0 .. n_cat-1] exactly when [0 < x <= 1]; [0.0] gets none. *)
Theorem canard_bins_partial_at_zero n_cat :
  1 < n_cat ->
  exists edges, bins n_cat = Some edges /\
  forall x, (exists c, pd_cut edges x = Some c /\ 0 <= c < n_cat) <->
            ((0 <? x)%float = true /\ (x <=? 1)%float = true).
Proof. apply canard_bins_cut. Qed.

Lemma canard_bins_partial_at_zero_witness :
  exists edges, bins 3 = Some edges /\
  forall x, (exists c, pd_cut edges x = Some c /\ 0 <= c < 3) <->
            ((0 <? x)%float = true /\ (x <=? 1)%float = true).
Proof. apply (canard_bins_partial_at_zero 3). lia. Defined.

End GenClaims.

(** ** Further properties of [get_rate] *)

Module RateExtraFacts.
Import PyNum PyNumFacts Rate RateFacts.

(** Ints below [2^53] are floats: [m / 1] is [m] exactly. *)
Lemma truediv_exact_int m :
  0 <= m < 2 ^ 53 -> exists x, truediv m 1 = Some x /\ to_int x = m.
Proof.
  intros Hm. pose proof emin_pos.
  destruct (Z.eq_dec m 0) as [->|Hne].
  - exists 0%Q. split; reflexivity.
  - set (e := quantum_exp m 1).
    assert (He : - emin <= e <= 0).
    { unfold e, quantum_exp. rewrite Z.div_1_r.
      rewrite Z.log2_mul_pow2 by (unfold K; lia).
      assert (Z.log2 m < 53) by (apply Z.log2_lt_pow2; lia).
      split; [lia|]. unfold emin. lia. }
    assert (Hsplit : m * 2 ^ emin = m * 2 ^ (- e) * (1 * 2 ^ (e + emin))).
    { rewrite Z.mul_1_l, <- Z.mul_assoc, <- Z.pow_add_r by lia. f_equal. f_equal. lia. }
    assert (Hr : round_ratio m 1 = m * 2 ^ (- e)).
    { unfold round_ratio. fold e. rewrite Hsplit. apply rhe_exact.
      rewrite Z.mul_1_l. apply pow2_pos. lia. }
    assert (Hv : round_ratio m 1 * 2 ^ (e + emin) = m * 2 ^ emin).
    { rewrite Hr, Hsplit. lia. }
    rewrite truediv_pos by lia. fold e. rewrite Hv.
    assert (m * 2 ^ emin < 2 ^ (1024 + emin)).
    { rewrite Z.pow_add_r by lia.
      assert (2 ^ 53 < 2 ^ 1024) by (apply Z.pow_lt_mono_r; lia).
      pose proof (pow2_pos emin ltac:(lia)). nia. }
    rewrite (proj2 (Z.leb_gt _ _)) by assumption.
    eexists. split; [reflexivity|].
    rewrite to_int_nonneg_eq
      by (apply scaled_nonneg; [rewrite Hr; pose proof (pow2_pos (- e) ltac:(lia)); nia|lia]).
    rewrite qfloor_scaled. fold e. rewrite Hv.
    apply Z.div_mul. pose proof (pow2_pos emin ltac:(lia)). lia.
Qed.

Lemma no_overflow_53 :
  round_ratio (2 ^ 53) 1 * 2 ^ (quantum_exp (2 ^ 53) 1 + emin) < 2 ^ (1024 + emin).
Proof. vm_compute. reflexivity. Qed.

(** [a / b] does not overflow for [0 <= a <= 2^53] and [b >= 1]. *)
Lemma truediv_small a b : 0 <= a <= 2 ^ 53 -> 1 <= b -> exists x, truediv a b = Some x.
Proof.
  intros Ha Hb. destruct (Z.eq_dec a 0) as [->|Hne].
  - unfold truediv. rewrite (proj2 (Z.eqb_neq b 0)) by lia. eexists; reflexivity.
  - rewrite truediv_pos by lia.
    pose proof (value_mono a b (2 ^ 53) 1 ltac:(lia) ltac:(lia) ltac:(lia) ltac:(lia)
                  ltac:(nia)) as Hv.
    pose proof no_overflow_53.
    rewrite (proj2 (Z.leb_gt _ _)) by lia. eexists; reflexivity.
Qed.

(** A run of the loop keeps [rate_c] non-negative with sum at most [N]. *)
Lemma rate_c_loop_bounds N fuel :
  forall r j acc l,
  2 <= j -> 0 <= r -> r = N - sum acc -> Forall (fun v => 0 <= v) acc ->
  rate_c_loop N r j fuel acc = Some l ->
  Forall (fun v => 0 <= v) l /\ sum l <= N.
Proof.
  induction fuel as [|fuel IH]; simpl; intros r j acc l Hj Hr Hsum Hacc H.
  - injection H as <-. split; [assumption|lia].
  - destruct (truediv r j) as [x|] eqn:Hx; [|discriminate].
    pose proof (to_int_nonneg x (truediv_nonneg r j x Hr ltac:(lia) Hx)).
    pose proof (truediv_to_int_le r j x Hr ltac:(lia) Hx).
    eapply IH; [| | | |exact H].
    + lia.
    + rewrite sum_app. lia.
    + reflexivity.
    + apply Forall_app. split; [assumption|]. constructor; [assumption|constructor].
Qed.

(** Below [2^53] the loop does not overflow. *)
Lemma rate_c_loop_small N fuel :
  N <= 2 ^ 53 ->
  forall r j acc,
  2 <= j -> 0 <= r -> r = N - sum acc -> Forall (fun v => 0 <= v) acc ->
  exists l, rate_c_loop N r j fuel acc = Some l.
Proof.
  intros HN. induction fuel as [|fuel IH]; simpl; intros r j acc Hj Hr Hsum Hacc.
  - eauto.
  - assert (Hs : 0 <= sum acc).
    { clear -Hacc. induction Hacc; simpl; [lia|]. unfold sum in *. simpl. lia. }
    destruct (truediv_small r j ltac:(lia) ltac:(lia)) as [x Hx]. rewrite Hx.
    pose proof (to_int_nonneg x (truediv_nonneg r j x Hr ltac:(lia) Hx)).
    pose proof (truediv_to_int_le r j x Hr ltac:(lia) Hx).
    apply IH.
    + lia.
    + rewrite sum_app. lia.
    + reflexivity.
    + apply Forall_app. split; [assumption|]. constructor; [assumption|constructor].
Qed.

Lemma fold_min_spec t x :
  (fold_left Z.min t x = x \/ In (fold_left Z.min t x) t) /\
  fold_left Z.min t x <= x /\ Forall (fun v => fold_left Z.min t x <= v) t.
Proof.
  revert x. induction t as [|v t IH]; intros x; simpl; [split; [left|split]; auto; lia|].
  destruct (IH (Z.min x v)) as (Hin & Hle & Hall).
  split; [|split].
  - destruct Hin as [E|E]; [|auto].
    destruct (Z.min_spec x v) as [[_ Em]|[_ Em]]; rewrite E, Em; auto.
  - lia.
  - constructor; [lia|assumption].
Qed.

(** Python's [min]: a member of the list, below all its members. *)
Lemma min_spec l m :
  min l = Some m -> In m l /\ Forall (fun v => m <= v) l.
Proof.
  destruct l as [|x t]; simpl; [discriminate|]. intros H. injection H as <-.
  destruct (fold_min_spec t x) as (Hin & Hle & Hall).
  split; [destruct Hin as [E|E]; auto|constructor; assumption].
Qed.

Lemma min_some l : l <> [] -> exists m, min l = Some m.
Proof. destruct l; [contradiction|]. intros _. eexists; reflexivity. Qed.

Lemma sum_lower l m : Forall (fun v => m <= v) l -> m * Z.of_nat (length l) <= sum l.
Proof.
  induction 1 as [|v l Hv Hl IH]; simpl; [lia|]. unfold sum in *. simpl. lia.
Qed.

End RateExtraFacts.

Module RateExtras.
Import PyNum PyNumFacts Rate RateFacts RateExtraFacts.

(** For [1 < N < 2^53] and [k > 1], despite the Python [and] of its final
    assertion, [get_rate] checks both plans: the call returns
    [[rate_s, rate_c]] when every entry of both is at least [n_min] and
    raises otherwise, the plans not depending on [n_min]. *)
Theorem get_rate_checks_both_plans N k :
  1 < N < 2 ^ 53 -> 1 < k ->
  exists rate_s rate_c, forall n_min,
    get_rate N k n_min =
      if forallb (fun v => n_min <=? v) (rate_s ++ rate_c) then Some [rate_s; rate_c]
      else None.
Proof.
  intros HN Hk.
  destruct (rate_c_loop_small N (Z.to_nat k) ltac:(lia) N 2 [] ltac:(lia) ltac:(lia)
              ltac:(simpl; lia) ltac:(constructor)) as [rate_c Hl].
  destruct (rate_c_loop_bounds N (Z.to_nat k) N 2 [] rate_c ltac:(lia) ltac:(lia)
              ltac:(simpl; lia) ltac:(constructor) Hl) as [Hpos Hsum].
  pose proof (rate_c_loop_length N (Z.to_nat k) N 2 [] rate_c Hl) as Hlen.
  simpl in Hlen.
  assert (Hs0 : 0 <= sum rate_c).
  { clear -Hpos. induction Hpos; simpl; [lia|]. unfold sum in *. simpl. lia. }
  destruct (truediv_small (sum rate_c) k ltac:(lia) ltac:(lia)) as [u Hu].
  set (rate_s := repeat (to_int u) (Z.to_nat k)).
  exists rate_s, rate_c. intros n_min.
  destruct (min_some rate_c ltac:(intros E; rewrite E in Hlen; simpl in Hlen; lia))
    as [mc Hmc].
  destruct (min_spec rate_c mc Hmc) as [Hmc_in Hmc_le].
  assert (Hmc0 : 0 <= mc) by (rewrite Forall_forall in Hpos; auto).
  assert (Hms : min rate_s = Some (to_int u)).
  { unfold rate_s. destruct (Z.to_nat k) as [|k'] eqn:Ek; [lia|]. simpl.
    clear. induction k' as [|k' IH]; simpl; [reflexivity|].
    rewrite Z.min_id. exact IH. }
  assert (Hu0 : 0 <= to_int u)
    by (apply to_int_nonneg; apply (truediv_nonneg (sum rate_c) k); auto; lia).
  assert (Hle : mc <= to_int u).
  { destruct (Z.eq_dec mc 0) as [->|Hne]; [assumption|].
    assert (Hmcs : mc <= sum rate_c).
    { pose proof (sum_lower rate_c mc Hmc_le). rewrite Hlen in H. nia. }
    destruct (truediv_exact_int mc ltac:(lia)) as (y & Hy & Hyv).
    rewrite <- Hyv. apply to_int_mono.
    - apply (truediv_nonneg mc 1); auto; lia.
    - apply (truediv_mono mc 1 (sum rate_c) k); try assumption; try lia.
      pose proof (sum_lower rate_c mc Hmc_le). rewrite Hlen in H. lia. }
  unfold get_rate.
  rewrite (proj2 (Z.ltb_lt 1 N)), (proj2 (Z.ltb_lt 1 k)) by lia. cbn [negb].
  rewrite Hl, Hu. fold rate_s. rewrite Hms, Hmc.
  assert (Hand : py_and (to_int u) mc = mc)
    by (unfold py_and; destruct (Z.eqb_spec (to_int u) 0); lia).
  rewrite Hand.
  assert (Hall : forallb (fun v => n_min <=? v) (rate_s ++ rate_c) = (n_min <=? mc)).
  { destruct (Z.leb_spec n_min mc) as [Hn|Hn].
    - apply forallb_forall. intros v Hv. apply in_app_or in Hv as [Hv|Hv].
      + unfold rate_s in Hv. apply repeat_spec in Hv. subst v. apply Z.leb_le. lia.
      + rewrite Forall_forall in Hmc_le. apply Z.leb_le. specialize (Hmc_le v Hv). lia.
    - destruct (forallb _ _) eqn:E; [|reflexivity].
      rewrite forallb_forall in E. specialize (E mc ltac:(apply in_or_app; auto)).
      apply Z.leb_le in E. lia. }
  rewrite Hall. destruct (Z.leb_spec n_min mc), (Z.geb_spec mc n_min); try reflexivity; lia.
Qed.

Lemma get_rate_checks_both_plans_witness :
  exists rate_s rate_c, forall n_min,
    get_rate 10 9 n_min =
      if forallb (fun v => n_min <=? v) (rate_s ++ rate_c) then Some [rate_s; rate_c]
      else None.
Proof. apply get_rate_checks_both_plans; lia. Defined.

(** Whatever [N], a successful [get_rate] allocates at most [N] examples in
    its declining plan, and both plans have no negative entry. *)
Theorem get_rate_plans_within_N N k n_min rate_s rate_c :
  get_rate N k n_min = Some [rate_s; rate_c] ->
  Forall (fun v => 0 <= v) rate_s /\ Forall (fun v => 0 <= v) rate_c /\ sum rate_c <= N.
Proof.
  intros H. destruct (get_rate_inv N k n_min _ H) as (HN & Hk & rc & u & Hl & Hu & Hr).
  injection Hr as -> ->.
  destruct (rate_c_loop_bounds N (Z.to_nat k) N 2 [] rc ltac:(lia) ltac:(lia)
              ltac:(simpl; lia) ltac:(constructor) Hl) as [Hpos Hsum].
  assert (Hs0 : 0 <= sum rc).
  { clear -Hpos. induction Hpos; simpl; [lia|]. unfold sum in *. simpl. lia. }
  split; [|split; assumption].
  apply Forall_forall. intros v Hv. apply repeat_spec in Hv. subst v.
  apply to_int_nonneg. apply (truediv_nonneg (sum rc) k); auto; lia.
Qed.

Lemma get_rate_plans_within_N_witness :
  Forall (fun v => 0 <= v) [24; 24; 24] /\ Forall (fun v => 0 <= v) [50; 16; 8] /\
  sum [50; 16; 8] <= 100.
Proof. apply (get_rate_plans_within_N 100 3 0). vm_compute. reflexivity. Defined.

End RateExtras.

(** ** Further properties of [catbird] and [canard] *)

Module GenExtraFacts.
Import PyNum PyNumFacts PyFloat Gen FloatFacts BinFacts FloatBound GenFacts ShapeFacts.

Section Inversion.
Context {St : Type}.

Lemma bind_inv {A B} (m : M St A) (k : A -> M St B) s r :
  bind m k s = Some r -> exists a s1, m s = Some (a, s1) /\ k a s1 = Some r.
Proof. unfold bind. destruct (m s) as [[a s1]|]; [eauto|discriminate]. Qed.

Lemma bind_none {A B} (m : M St A) (k : A -> M St B) s : m s = None -> bind m k s = None.
Proof. unfold bind. intros ->. reflexivity. Qed.

Lemma lift_inv {A} (o : option A) s a s' :
  @lift St A o s = Some (a, s') -> o = Some a /\ s' = s.
Proof.
  unfold lift, ret, raise. destruct o; [|discriminate].
  intros H. injection H as -> ->. auto.
Qed.

Lemma py_assert_inv b s u s' : @py_assert St b s = Some (u, s') -> b = true /\ s' = s.
Proof.
  unfold py_assert, ret, raise. destruct b; [|discriminate].
  intros H. injection H as _ ->. auto.
Qed.

Lemma ret_inv {A} (a : A) s r : @ret St A a s = Some r -> r = (a, s).
Proof. unfold ret. intros H. injection H as <-. reflexivity. Qed.

Lemma repeatM_inv {A} (m : M St A) (P : A -> Prop) :
  (forall s a s', m s = Some (a, s') -> P a) ->
  forall n s l s', repeatM n m s = Some (l, s') -> length l = n /\ Forall P l.
Proof.
  intros Hm. induction n as [|n IH]; intros s l s' H; cbn [repeatM] in H.
  - apply ret_inv in H. injection H as -> ->. auto.
  - apply bind_inv in H as (a & s1 & E1 & H).
    apply bind_inv in H as (l' & s2 & E2 & H). apply ret_inv in H. injection H as -> ->.
    destruct (IH s1 l' s2 E2) as [L F]. cbn. split; [congruence|].
    constructor; [exact (Hm _ _ _ E1)|exact F].
Qed.

Lemma mapM_inv {A B} (f : A -> M St B) (P : B -> Prop) :
  (forall x s b s', f x s = Some (b, s') -> P b) ->
  forall l s l' s', mapM f l s = Some (l', s') -> length l' = length l /\ Forall P l'.
Proof.
  intros Hf. induction l as [|x l IH]; intros s l' s' H; cbn [mapM] in H.
  - apply ret_inv in H. injection H as -> ->. auto.
  - apply bind_inv in H as (b & s1 & E1 & H).
    apply bind_inv in H as (bs & s2 & E2 & H). apply ret_inv in H. injection H as -> ->.
    destruct (IH s1 bs s2 E2) as [L F]. cbn. split; [congruence|].
    constructor; [exact (Hf _ _ _ _ E1)|exact F].
Qed.

End Inversion.

Lemma set_nth_Forall {A} (P : A -> Prop) l n v :
  Forall P l -> P v -> Forall P (set_nth l n v).
Proof.
  revert n. induction l as [|x l IH]; intros n Hl Hv; [constructor|].
  inversion Hl; subst. destruct n; cbn; constructor; auto.
Qed.

Lemma py_setitem_inv {A} (P : A -> Prop) l i v l' :
  py_setitem l i v = Some l' -> Forall P l -> P v -> Forall P l' /\ length l' = length l.
Proof.
  unfold py_setitem. intros H Hl Hv.
  destruct (_ && _); [injection H as <-|destruct (_ && _); [injection H as <-|discriminate]];
    (split; [apply set_nth_Forall; assumption|apply set_nth_length]).
Qed.

Lemma setitems_pairs_inv {A} (P : A -> Prop) ps :
  forall l l', setitems_pairs l ps = Some l' -> Forall P l ->
  Forall (fun iv => P (snd iv)) ps -> Forall P l' /\ length l' = length l.
Proof.
  induction ps as [|[i v] ps IH]; intros l l' H Hl Hps; cbn in H.
  - injection H as <-. auto.
  - inversion Hps as [|? ? Hv Hps']; subst.
    destruct (py_setitem l i v) as [l1|] eqn:E; [|discriminate].
    destruct (py_setitem_inv P l i v l1 E Hl Hv) as [F1 L1].
    destruct (IH l1 l' H F1 Hps') as [F L]. split; [assumption|congruence].
Qed.

(** numpy's [l[idx] = vals] keeps the length of [l], and its entries come
    from [l] or [vals]. *)
Lemma setitems_inv {A} (P : A -> Prop) l idx vals l' :
  setitems l idx vals = Some l' -> Forall P l -> Forall P vals ->
  Forall P l' /\ length l' = length l.
Proof.
  unfold setitems. intros H Hl Hv.
  destruct (Nat.eqb _ _).
  - apply (setitems_pairs_inv P _ l l' H Hl).
    apply Forall_forall. intros [i v] Hiv. cbn. apply in_combine_r in Hiv.
    rewrite Forall_forall in Hv. auto.
  - destruct vals as [|v [|? ?]]; try discriminate.
    apply (setitems_pairs_inv P _ l l' H Hl).
    apply Forall_forall. intros iv Hiv. apply in_map_iff in Hiv as (i & <- & _).
    cbn. inversion Hv; assumption.
Qed.

Lemma fold_max_ge t x : x <= fold_left Z.max t x /\ Forall (fun v => v <= fold_left Z.max t x) t.
Proof.
  revert x. induction t as [|v t IH]; intros x; cbn; [split; [lia|constructor]|].
  destruct (IH (Z.max x v)) as [H1 H2]. split; [lia|constructor; [lia|assumption]].
Qed.

(** Python's [max] is at least every member. *)
Lemma py_max_ge l mx : py_max l = Some mx -> Forall (fun v => v <= mx) l.
Proof.
  destruct l as [|x t]; cbn; [discriminate|]. intros H. injection H as <-.
  destruct (fold_max_ge t x). constructor; assumption.
Qed.

(** [np.vectorize] without [otypes] returns only on a non-empty input. *)
Lemma vectorize_inv {A B} (f : A -> B) xs ys :
  vectorize f xs = Some ys -> ys = map f xs /\ xs <> [].
Proof.
  destruct xs as [|x xs]; cbn; [discriminate|]. intros H. injection H as <-.
  split; [reflexivity|discriminate].
Qed.

(** [float(z)] raises OverflowError from [2^1024] on. *)
Lemma float_of_int_overflow z : 2 ^ 1024 <= z -> float_of_int z = None.
Proof.
  intros Hz. unfold float_of_int, truediv_float.
  rewrite (proj2 (Z.eqb_neq 1 0)), (proj2 (Z.eqb_neq z 0)) by lia.
  rewrite Z.abs_eq by lia. change (Z.abs 1) with 1.
  pose proof (value_mono (2 ^ 1024) 1 z 1 ltac:(lia) ltac:(lia) ltac:(lia) ltac:(lia)
                ltac:(lia)) as Hv.
  assert (H0 : 2 ^ (1024 + emin)
               <= round_ratio (2 ^ 1024) 1 * 2 ^ (quantum_exp (2 ^ 1024) 1 + emin))
    by (vm_compute; discriminate).
  rewrite (proj2 (Z.leb_le _ _)) by lia. reflexivity.
Qed.

Section CatbirdRuns.
Context {St : Type} (rs : RandomState St) (ncdf : float -> float).

Section Entries.
(** A property of the entries that the noise bits and [discretize] meet. *)
Variable P : Z -> Prop.
Hypothesis HP0 : P 0.
Hypothesis HP1 : P 1.
Hypothesis Hbin : forall p s, P (fst (rs_binomial rs 1 p s)).

Lemma catbird_example_inv n_feat fs W idx lmbd eps s row s' :
  catbird_example rs ncdf n_feat fs W idx lmbd eps s = Some (row, s') ->
  length row = Z.to_nat n_feat /\ Forall P row.
Proof.
  unfold catbird_example. intros H.
  apply bind_inv in H as (A & s1 & E1 & H).
  apply bind_inv in H as (sq & s2 & E2 & H). apply lift_inv in E2 as [_ ->].
  apply bind_inv in H as (res & s3 & E3 & H).
  apply bind_inv in H as (vals & s4 & E4 & H). apply lift_inv in E4 as [Ev ->].
  apply vectorize_inv in Ev as [-> _]. apply lift_inv in H as [Erow _].
  destruct (repeatM_inv (binomial rs 1 eps) P
              ltac:(intros s0 a s0' Ha; unfold binomial in Ha; injection Ha as Ha;
                    pose proof (Hbin eps s0) as Hb; rewrite Ha in Hb; exact Hb)
              _ _ _ _ E3) as [L3 F3].
  destruct (setitems_inv P _ _ _ _ Erow F3) as [F L].
  - apply Forall_forall. intros v Hv. apply in_map_iff in Hv as (x & <- & _).
    unfold discretize. destruct (_ <? _)%float; assumption.
  - split; [congruence|assumption].
Qed.

Lemma catbird_examples_inv n_feat fs W idx lmbd eps q :
  forall n X y s X' y' s',
  catbird_examples rs ncdf n_feat fs W idx lmbd eps q n X y s = Some ((X', y'), s') ->
  exists rows, X' = X ++ rows /\ y' = y ++ repeat q n /\ length rows = n /\
    Forall (fun row => length row = Z.to_nat n_feat /\ Forall P row) rows.
Proof.
  induction n as [|n IH]; intros X y s X' y' s' H; cbn [catbird_examples] in H.
  - apply ret_inv in H. injection H as -> -> ->. exists [].
    rewrite !app_nil_r. auto.
  - apply bind_inv in H as (row & s1 & E1 & H).
    destruct (catbird_example_inv _ _ _ _ _ _ _ _ _ E1) as [L1 F1].
    destruct (IH _ _ _ _ _ _ H) as (rows & -> & -> & L & F).
    exists (row :: rows). rewrite <- !app_assoc. cbn.
    split; [reflexivity|]. split; [reflexivity|]. split; [congruence|].
    constructor; [split|]; assumption.
Qed.

Lemma catbird_clusters_inv n_feat feat_sig lmbd eps :
  forall rate i q X y s X' y' s',
  catbird_clusters rs ncdf n_feat feat_sig lmbd eps i rate q X y s = Some ((X', y'), s') ->
  exists rows, X' = X ++ rows /\ y' = y ++ blocks (q + 1) rate /\
    length rows = length (blocks (q + 1) rate) /\
    Forall (fun row => length row = Z.to_nat n_feat /\ Forall P row) rows.
Proof.
  induction rate as [|r rate IH]; intros i q X y s X' y' s' H; cbn [catbird_clusters] in H.
  - apply ret_inv in H. injection H as -> -> ->. exists [].
    rewrite !app_nil_r. auto.
  - apply bind_inv in H as (fs & s1 & E1 & H).
    apply bind_inv in H as (W & s2 & E2 & H).
    apply bind_inv in H as (idx & s3 & E3 & H).
    apply bind_inv in H as ([X1 y1] & s4 & E4 & H). cbv beta iota in H.
    destruct (catbird_examples_inv _ _ _ _ _ _ _ _ _ _ _ _ _ _ E4)
      as (rows1 & -> & -> & L1 & F1).
    destruct (IH _ _ _ _ _ _ _ _ H) as (rows2 & -> & -> & L2 & F2).
    exists (rows1 ++ rows2). rewrite <- !app_assoc. cbn [blocks].
    split; [reflexivity|]. split; [reflexivity|].
    split; [rewrite !length_app, repeat_length, L1, L2; reflexivity|].
    apply Forall_app. split; assumption.
Qed.

(** A successful [catbird] returns [rate[i]] rows labelled [i] for each
    [i], none for a count [rate[i] <= 0], of [n_feat] entries meeting [P]. *)
Lemma catbird_inv n_feat feat_sig rate lmbd eps random_state entropy X y s' :
  catbird rs ncdf n_feat feat_sig rate lmbd eps random_state entropy = Some ((X, y), s') ->
  y = blocks 0 rate /\ length X = length y /\
  Forall (fun row => length row = Z.to_nat n_feat /\ Forall P row) X.
Proof.
  unfold catbird. destruct (resolve rs random_state entropy) as [s|]; [|discriminate].
  unfold catbird_body. intros H.
  apply bind_inv in H as (u1 & s1 & E1 & H). apply py_assert_inv in E1 as [_ ->].
  apply bind_inv in H as (mx & s2 & E2 & H). apply lift_inv in E2 as [_ ->].
  apply bind_inv in H as (u2 & s3 & E3 & H). apply py_assert_inv in E3 as [_ ->].
  apply bind_inv in H as (u3 & s4 & E4 & H). apply py_assert_inv in E4 as [_ ->].
  apply bind_inv in H as (u4 & s5 & E5 & H). apply py_assert_inv in E5 as [_ ->].
  destruct (catbird_clusters_inv _ _ _ _ _ _ _ _ _ _ _ _ _ H) as (rows & -> & -> & L & F).
  cbn. split; [reflexivity|]. split; assumption.
Qed.

End Entries.

(** An example of a cluster with [feat_sig[i] = 0] raises: [discretize]
    is called on the empty [A_W_norm]. *)
Lemma catbird_example_fs0 n_feat W idx lmbd eps s :
  catbird_example rs ncdf n_feat 0 W idx lmbd eps s = None.
Proof.
  unfold catbird_example, bind. cbv beta.
  destruct (normal_matrix rs 1 0 s) as [[A s1]|]; [|reflexivity].
  destruct (lift (float_of_int 0) s1) as [[sq s2]|]; [|reflexivity].
  destruct (repeatM (Z.to_nat n_feat) (binomial rs 1 eps) s2) as [[res s3]|];
    reflexivity.
Qed.

(** The cluster loop of [catbird] runs to its end exactly when each
    cluster [i] it reaches has an entry [feat_sig[i] >= 0], and
    [feat_sig[i] >= 1] when [rate[i] >= 1]. *)
Lemma catbird_clusters_runs n_feat feat_sig lmbd eps :
  choice_ok rs -> 0 <= n_feat <= 2 ^ 1023 -> Forall (fun fs => fs <= n_feat) feat_sig ->
  forall rate i q X y s, 0 <= i -> (Z.to_nat i <= length feat_sig)%nat ->
  (catbird_clusters rs ncdf n_feat feat_sig lmbd eps i rate q X y s <> None <->
   (Z.to_nat i + length rate <= length feat_sig)%nat /\
   forall j, (j < length rate)%nat ->
     0 <= nth (Z.to_nat i + j) feat_sig 0 /\
     (0 < nth j rate 0 -> 0 < nth (Z.to_nat i + j) feat_sig 0)).
Proof.
  intros Hc Hn Hfs. induction rate as [|r rate IH]; intros i q X y s Hi Hil.
  - cbn. split; [intros _; split; [lia|intros j Hj; lia]|discriminate].
  - cbn [catbird_clusters length]. unfold bind at 1.
    destruct (Nat.lt_ge_cases (Z.to_nat i) (length feat_sig)) as [Hlt|Hge].
    + set (fs := nth (Z.to_nat i) feat_sig 0).
      rewrite (lift_some _ _ _ (py_index_in feat_sig i 0 ltac:(lia))). fold fs.
      assert (Hfsn : fs <= n_feat).
      { rewrite Forall_forall in Hfs. apply Hfs, nth_In. lia. }
      destruct (Z.lt_ge_cases fs 0) as [Hneg|Hpos].
      * unfold bind at 1. unfold normal_matrix.
        rewrite (proj2 (Z.ltb_lt fs 0)) by assumption. cbn [orb]. unfold raise.
        split; [intros Hc'; exfalso; apply Hc'; reflexivity|].
        intros [_ Hall]. specialize (Hall O ltac:(lia)).
        rewrite Nat.add_0_r in Hall. fold fs in Hall. lia.
      * unfold bind at 1.
        destruct (normal_matrix_ok rs fs fs Hpos Hpos s) as (W & s1 & E1). rewrite E1.
        unfold bind at 1. unfold choice at 1.
        destruct (Hc n_feat fs s1 ltac:(lia)) as (idx & s2 & E2 & L2 & F2). rewrite E2.
        unfold bind at 1.
        destruct (Z_lt_le_dec 0 r) as [Hr|Hr]; [destruct (Z.eq_dec fs 0) as [Hz|Hz]|].
        1:{ assert (Hnone : catbird_examples rs ncdf n_feat fs W idx lmbd eps (q + 1)
                              (Z.to_nat r) X y s2 = None).
            { replace (Z.to_nat r) with (S (Z.to_nat r - 1)) by lia.
              cbn [catbird_examples]. apply bind_none. rewrite Hz.
              apply catbird_example_fs0. }
            rewrite Hnone.
            split; [intros Hc'; exfalso; apply Hc'; reflexivity|].
            intros [_ Hall]. destruct (Hall O ltac:(lia)) as [_ H0].
            rewrite Nat.add_0_r in H0. fold fs in H0. cbn [nth] in H0. lia. }
        all: assert (Hok : 0 < r -> 0 < fs) by lia.
        all: assert (Hex : exists rows s3,
                       catbird_examples rs ncdf n_feat fs W idx lmbd eps (q + 1)
                         (Z.to_nat r) X y s2
                       = Some ((X ++ rows, y ++ repeat (q + 1) (Z.to_nat r)), s3)).
        1:{ destruct (catbird_examples_ok rs ncdf n_feat fs W idx lmbd eps (q + 1)
                        ltac:(lia) ltac:(lia) L2 F2 (Z.to_nat r) X y s2)
              as (rows & s3 & E3 & _ & _).
            eauto. }
        2:{ replace (Z.to_nat r) with O by lia. exists [], s2. cbn.
            rewrite !app_nil_r. reflexivity. }
        all: destruct Hex as (rows & s3 & E3).
        all: rewrite E3; cbv beta iota.
        all: rewrite (IH (i + 1) (q + 1) _ _ s3 ltac:(lia) ltac:(lia)).
        all: replace (Z.to_nat (i + 1)) with (S (Z.to_nat i)) by lia.
        all: split; [intros [Hl Hall]; split; [lia|]|intros [Hl Hall]; split; [lia|]].
        all: intros j Hj.
        1,3: destruct j as [|j];
             [rewrite Nat.add_0_r; fold fs; cbn [nth]; split; assumption|];
             replace (Z.to_nat i + S j)%nat with (S (Z.to_nat i) + j)%nat by lia;
             cbn [nth]; apply Hall; lia.
        all: replace (S (Z.to_nat i) + j)%nat with (Z.to_nat i + S j)%nat by lia;
             apply (Hall (S j)); cbn [length]; lia.
    + unfold py_index.
      rewrite (proj2 (Z.ltb_ge i _)) by lia.
      rewrite (proj2 (Z.ltb_ge i 0)) by lia.
      rewrite !andb_false_r. unfold lift, raise.
      split; [intros Hc'; exfalso; apply Hc'; reflexivity|]. intros [Hl _]. lia.
Qed.

End CatbirdRuns.

Section CanardRuns.
Context {St : Type} (rs : RandomState St).

Section Entries.
Variable edges : list float.
(** A property of the cuts of the Beta draws. *)
Variable Q : option Z -> Prop.
Hypothesis HQ : forall a b s, Q (pd_cut edges (fst (rs_beta rs a b s))).

Lemma canard_example_inv n_feat a b s row s' :
  canard_example rs n_feat a b edges s = Some (row, s') ->
  length row = Z.to_nat n_feat /\ Forall Q row.
Proof.
  unfold canard_example. intros H.
  eapply (mapM_inv _ Q) in H as [L F]; [rewrite length_seq in L; auto|].
  intros j s0 c s0' Hc. cbv beta in Hc.
  apply bind_inv in Hc as (x & s1 & E1 & Hc).
  apply ret_inv in Hc. injection Hc as -> ->.
  unfold beta in E1. injection E1 as E1.
  pose proof (HQ (nth j a 1%float) (nth j b 1%float) s0) as Hq.
  rewrite E1 in Hq. exact Hq.
Qed.

Lemma canard_examples_inv n_feat a b q :
  forall n X y s X' y' s',
  canard_examples rs n_feat a b edges q n X y s = Some ((X', y'), s') ->
  exists rows, X' = X ++ rows /\ y' = y ++ repeat q n /\ length rows = n /\
    Forall (fun row => length row = Z.to_nat n_feat /\ Forall Q row) rows.
Proof.
  induction n as [|n IH]; intros X y s X' y' s' H; cbn [canard_examples] in H.
  - apply ret_inv in H. injection H as -> -> ->. exists [].
    rewrite !app_nil_r. auto.
  - apply bind_inv in H as (row & s1 & E1 & H).
    destruct (canard_example_inv _ _ _ _ _ _ E1) as [L1 F1].
    destruct (IH _ _ _ _ _ _ H) as (rows & -> & -> & L & F).
    exists (row :: rows). rewrite <- !app_assoc. cbn.
    split; [reflexivity|]. split; [reflexivity|]. split; [congruence|].
    constructor; [split|]; assumption.
Qed.

Lemma canard_clusters_inv n_feat lmbd eps :
  forall rv q X y s X' y' s',
  canard_clusters rs n_feat lmbd eps edges rv q X y s = Some ((X', y'), s') ->
  exists zs rows, map as_index rv = map Some zs /\
    X' = X ++ rows /\ y' = y ++ blocks (q + 1) zs /\
    length rows = length (blocks (q + 1) zs) /\
    Forall (fun row => length row = Z.to_nat n_feat /\ Forall Q row) rows.
Proof.
  induction rv as [|v rv IH]; intros q X y s X' y' s' H; cbn [canard_clusters] in H.
  - apply ret_inv in H. injection H as -> -> ->. exists [], [].
    rewrite !app_nil_r. auto.
  - apply bind_inv in H as (size & s1 & E1 & H).
    apply bind_inv in H as (idx & s2 & E2 & H).
    apply bind_inv in H as ([a b] & s3 & E3 & H). cbv beta iota in H.
    apply bind_inv in H as (k & s4 & E4 & H). apply lift_inv in E4 as [Ek ->].
    apply bind_inv in H as ([X1 y1] & s5 & E5 & H). cbv beta iota in H.
    destruct (canard_examples_inv _ _ _ _ _ _ _ _ _ _ _ E5) as (rows1 & -> & -> & L1 & F1).
    destruct (IH _ _ _ _ _ _ _ H) as (zs & rows2 & Hzs & -> & -> & L2 & F2).
    exists (k :: zs), (rows1 ++ rows2). cbn [map blocks].
    rewrite Ek, Hzs, <- !app_assoc.
    split; [reflexivity|]. split; [reflexivity|]. split; [reflexivity|].
    split; [rewrite !length_app, repeat_length, L1, L2; reflexivity|].
    apply Forall_app. split; assumption.
Qed.

End Entries.

(** The cluster loop of [canard] on a list of Python values whose entries
    are all values [range] accepts runs to its end. *)
Lemma canard_clusters_runs n_feat lmbd eps edges :
  choice_ok rs -> 1 <= n_feat < 2 ^ 53 -> 0 <= lmbd <= 2 ^ 1023 ->
  (0 <=? eps)%float = true -> (eps <=? 1)%float = true ->
  forall rv q X y s, Forall (fun v => as_index v <> None) rv ->
  exists r s', canard_clusters rs n_feat lmbd eps edges rv q X y s = Some (r, s').
Proof.
  intros Hc Hn Hl He0 He1.
  destruct (controlled_size_range n_feat eps Hn He0 He1) as (sz & Hsz & Hszr).
  induction rv as [|v rv IH]; intros q X y s Hr.
  - eexists; eexists; reflexivity.
  - inversion Hr as [|? ? Hv Hrs]; subst.
    cbn [canard_clusters]. unfold bind at 1.
    rewrite (lift_some _ _ _ Hsz). unfold bind at 1. unfold choice at 1.
    destruct (Hc n_feat sz s ltac:(lia)) as (idx & s1 & E1 & L1 & F1). rewrite E1.
    unfold bind at 1.
    destruct (set_shapes_ok rs lmbd idx Hl (repeat 1%float (Z.to_nat n_feat))
                (repeat 1%float (Z.to_nat n_feat)) s1 eq_refl
                ltac:(rewrite repeat_length; eapply Forall_impl; [|exact F1]; cbn; lia))
      as (a & b & s2 & E2 & _ & _).
    rewrite E2. unfold bind at 1.
    destruct (as_index v) as [k|] eqn:Ek; [|contradiction].
    rewrite (lift_some _ _ _ (eq_refl : Some k = Some k)). unfold bind at 1.
    destruct (canard_examples_ok rs n_feat a b edges (q + 1) (Z.to_nat k) X y s2)
      as (rows1 & s3 & E3 & _ & _).
    rewrite E3. apply IH. exact Hrs.
Qed.

(** With no controlled feature the loop draws no shape parameters and
    never converts [lmbd]: it runs to its end for any [lmbd]. *)
Lemma canard_clusters_runs_size0 n_feat lmbd eps edges :
  choice_ok rs -> 0 <= n_feat -> controlled_size n_feat eps = Some 0 ->
  forall rv q X y s, Forall (fun v => as_index v <> None) rv ->
  exists r s', canard_clusters rs n_feat lmbd eps edges rv q X y s = Some (r, s').
Proof.
  intros Hc Hn Hsz.
  induction rv as [|v rv IH]; intros q X y s Hr.
  - eexists; eexists; reflexivity.
  - inversion Hr as [|? ? Hv Hrs]; subst.
    cbn [canard_clusters]. unfold bind at 1.
    rewrite (lift_some _ _ _ Hsz). unfold bind at 1. unfold choice at 1.
    destruct (Hc n_feat 0 s ltac:(lia)) as (idx & s1 & E1 & L1 & _). rewrite E1.
    destruct idx; [|discriminate L1].
    cbn [set_shapes]. unfold bind at 1. unfold ret at 1. cbv beta iota.
    unfold bind at 1.
    destruct (as_index v) as [k|] eqn:Ek; [|contradiction].
    rewrite (lift_some _ _ _ (eq_refl : Some k = Some k)). unfold bind at 1.
    set (ones := repeat 1%float (Z.to_nat n_feat)).
    destruct (canard_examples_ok rs n_feat ones ones edges (q + 1) (Z.to_nat k) X y s1)
      as (rows1 & s3 & E3 & _ & _).
    rewrite E3. apply IH. exact Hrs.
Qed.

(** A successful [canard_py] passed its checks and ran its clusters. *)
Lemma canard_py_inv n_feat n_cat rate lmbd eps random_state entropy X y s' :
  canard_py rs n_feat n_cat rate lmbd eps random_state entropy = Some ((X, y), s') ->
  exists nf nc rv lm e edges s rows y0 s1,
    n_feat = PyInt nf /\ n_cat = PyInt nc /\ rate = PyList rv /\ lmbd = PyInt lm /\
    eps = PyFloat e /\ 1 < nf /\ 1 < nc /\ 1 <= lm /\ bins nc = Some edges /\
    canard_clusters rs nf lm e edges rv (-1) [] [] s = Some ((rows, y0), s1) /\
    X = map (map int64_of_cut) rows /\ y = y0.
Proof.
  unfold canard_py. destruct (resolve rs random_state entropy) as [s|]; [|discriminate].
  unfold canard_body. intros H.
  apply bind_inv in H as (nf & s1 & E1 & H). apply lift_inv in E1 as [E1 ->].
  apply bind_inv in H as (u1 & s2 & E2 & H). apply py_assert_inv in E2 as [H1 ->].
  apply bind_inv in H as (nc & s3 & E3 & H). apply lift_inv in E3 as [E3 ->].
  apply bind_inv in H as (u2 & s4 & E4 & H). apply py_assert_inv in E4 as [H2 ->].
  apply bind_inv in H as (rv & s5 & E5 & H). apply lift_inv in E5 as [E5 ->].
  apply bind_inv in H as (lm & s6 & E6 & H). apply lift_inv in E6 as [E6 ->].
  apply bind_inv in H as (u3 & s7 & E7 & H). apply py_assert_inv in E7 as [H3 ->].
  apply bind_inv in H as (e & s8 & E8 & H). apply lift_inv in E8 as [E8 ->].
  apply bind_inv in H as (u4 & s9 & E9 & H). apply py_assert_inv in E9 as [H4 ->].
  apply bind_inv in H as (edges & s10 & E10 & H). apply lift_inv in E10 as [E10 ->].
  apply bind_inv in H as ([rows y0] & s11 & E11 & H). cbv beta iota in H.
  apply ret_inv in H. injection H as -> -> ->.
  destruct n_feat; try discriminate. destruct n_cat; try discriminate.
  destruct rate; try discriminate. destruct lmbd; try discriminate.
  destruct eps; try discriminate.
  cbn in E1, E3, E5, E6, E8. injection E1 as <-. injection E3 as <-. injection E5 as <-.
  injection E6 as <-. injection E8 as <-.
  apply Z.ltb_lt in H1, H2. apply Z.leb_le in H3.
  do 10 eexists. repeat split; try eassumption; reflexivity.
Qed.

End CanardRuns.

End GenExtraFacts.

Module GenExtras.
Import PyNum PyFloat Gen FloatFacts BinFacts FloatBound GenFacts ShapeFacts GenExtraFacts.

(** [catbird] raises (AssertionError, or the ValueError of [max] on an
    empty [feat_sig]) when [n_feat <= 1], when [feat_sig] is empty or has an
    entry above [n_feat], or when [lmbd] or [eps] is not in [[0, 1]]
    (a NaN included). *)
Theorem catbird_rejects_bad_arguments {St} (rs : RandomState St) (ncdf : float -> float)
    n_feat feat_sig rate lmbd eps random_state entropy :
  n_feat <= 1 \/ feat_sig = [] \/ Exists (fun fs => n_feat < fs) feat_sig \/
  (0 <=? lmbd)%float && (lmbd <=? 1)%float = false \/
  (0 <=? eps)%float && (eps <=? 1)%float = false ->
  catbird rs ncdf n_feat feat_sig rate lmbd eps random_state entropy = None.
Proof.
  intros Hbad. unfold catbird. destruct (resolve rs random_state entropy) as [s|];
    [|reflexivity].
  destruct (catbird_body rs ncdf n_feat feat_sig rate lmbd eps s) as [[[X y] s']|] eqn:H;
    [exfalso|reflexivity].
  unfold catbird_body in H.
  apply bind_inv in H as (u1 & s1 & E1 & H). apply py_assert_inv in E1 as [H1 ->].
  apply bind_inv in H as (mx & s2 & E2 & H). apply lift_inv in E2 as [Hmx ->].
  apply bind_inv in H as (u2 & s3 & E3 & H). apply py_assert_inv in E3 as [H2 ->].
  apply bind_inv in H as (u3 & s4 & E4 & H). apply py_assert_inv in E4 as [H3 ->].
  apply bind_inv in H as (u4 & s5 & E5 & H). apply py_assert_inv in E5 as [H4 ->].
  apply Z.ltb_lt in H1. apply Z.leb_le in H2.
  destruct Hbad as [Hb|[Hb|[Hb|[Hb|Hb]]]].
  - lia.
  - subst feat_sig. discriminate.
  - apply Exists_exists in Hb as (fs & Hin & Hlt).
    pose proof (py_max_ge _ _ Hmx) as Hall. rewrite Forall_forall in Hall.
    specialize (Hall fs Hin). lia.
  - congruence.
  - congruence.
Qed.

Lemma catbird_rejects_bad_arguments_witness :
  catbird (TestRNG.fixed 0.5) TestRNG.cdf_half 3 [2; 4] [1; 1] 0.5 0.25 (SeedInt 0) 0 = None.
Proof.
  apply catbird_rejects_bad_arguments. right. right. left.
  apply Exists_cons_tl, Exists_cons_hd. lia.
Defined.

(** Both generators raise on a [random_state] that is neither [None], an
    int in [[0, 2^32)] nor a [RandomState], before any check of the other
    arguments. *)
Theorem generators_reject_invalid_seed {St} (rs : RandomState St) (ncdf : float -> float)
    random_state entropy n_feat feat_sig rate lmbd eps nf nc rv lm e :
  ~ valid_seed random_state ->
  catbird rs ncdf n_feat feat_sig rate lmbd eps random_state entropy = None /\
  canard_py rs nf nc rv lm e random_state entropy = None.
Proof.
  intros Hs. unfold catbird, canard_py.
  destruct random_state as [|z|s|]; cbn in Hs; try (exfalso; exact (Hs I)); cbn [resolve].
  - destruct ((0 <=? z) && (z <? 2 ^ 32)) eqn:E; [|split; reflexivity].
    exfalso. apply Hs. apply andb_prop in E as [E1 E2].
    apply Z.leb_le in E1. apply Z.ltb_lt in E2. lia.
  - split; reflexivity.
Qed.

Lemma generators_reject_invalid_seed_witness :
  catbird (TestRNG.fixed 0.5) TestRNG.cdf_half 2 [2] [1] 0.5 0.25 (SeedInt (2 ^ 32)) 0 = None /\
  canard_py (TestRNG.fixed 0.5) (PyInt 2) (PyInt 2) (PyList [PyInt 1]) (PyInt 10)
    (PyFloat 0.75) (SeedInt (2 ^ 32)) 0 = None.
Proof. apply generators_reject_invalid_seed. cbn. lia. Defined.

(** On arguments passing its checks, [catbird] runs to its end exactly
    when [rate] is no longer than [feat_sig] and, for every cluster
    [i < len(rate)], [feat_sig[i] >= 0], and [feat_sig[i] >= 1] if
    [rate[i] >= 1]; otherwise it raises: the IndexError of [feat_sig[i]],
    the ValueError of [normal] on a negative shape, or the ValueError of
    [np.vectorize] on the empty [A_W_norm] of a cluster with
    [feat_sig[i] = 0]. *)
Theorem catbird_runs_iff_feat_sig_covers_rate {St} (rs : RandomState St)
    (ncdf : float -> float) n_feat feat_sig rate lmbd eps random_state entropy :
  choice_ok rs -> valid_seed random_state -> 1 < n_feat <= 2 ^ 1023 -> feat_sig <> [] ->
  Forall (fun fs => fs <= n_feat) feat_sig ->
  (0 <=? lmbd)%float && (lmbd <=? 1)%float = true ->
  (0 <=? eps)%float && (eps <=? 1)%float = true ->
  (catbird rs ncdf n_feat feat_sig rate lmbd eps random_state entropy <> None <->
   (length rate <= length feat_sig)%nat /\
   forall i, (i < length rate)%nat ->
     0 <= nth i feat_sig 0 /\ (0 < nth i rate 0 -> 0 < nth i feat_sig 0)).
Proof.
  intros Hc Hseed Hn Hne Hfs Hl He.
  destruct (resolve_ok rs random_state entropy Hseed) as [s0 Hs0].
  unfold catbird. rewrite Hs0. unfold catbird_body, py_assert, bind.
  rewrite (proj2 (Z.ltb_lt 1 n_feat)) by lia.
  destruct (py_max_le feat_sig n_feat Hne Hfs) as (mx & Hmx & Hmxle).
  unfold ret. rewrite (lift_some _ _ _ Hmx).
  rewrite (proj2 (Z.leb_le mx n_feat)) by assumption. rewrite Hl, He.
  rewrite (catbird_clusters_runs rs ncdf n_feat feat_sig lmbd eps Hc ltac:(lia) Hfs
             rate 0 (-1) [] [] s0 ltac:(lia) ltac:(cbn; lia)).
  reflexivity.
Qed.

Lemma catbird_runs_iff_feat_sig_covers_rate_witness :
  catbird (TestRNG.fixed 0.5) TestRNG.cdf_half 2 [2; 1] [1; 1; 1] 0.5 0.25 (SeedInt 0) 0
    <> None <->
  (length [1; 1; 1] <= length [2; 1])%nat /\
  forall i, (i < length [1; 1; 1])%nat ->
    0 <= nth i [2; 1] 0 /\ (0 < nth i [1; 1; 1] 0 -> 0 < nth i [2; 1] 0).
Proof.
  apply catbird_runs_iff_feat_sig_covers_rate.
  - apply fixed_choice_ok.
  - cbn. lia.
  - lia.
  - discriminate.
  - repeat constructor; lia.
  - reflexivity.
  - reflexivity.
Defined.

(** Whenever [catbird] returns [(X, y)], [y] is [rate[0]] labels [0], then
    [rate[1]] labels [1], and so on, a count [rate[i] <= 0] giving no row
    while the label still advances; [X] has one row of [n_feat] entries per
    label. *)
Theorem catbird_labels_any_rate {St} (rs : RandomState St) (ncdf : float -> float)
    n_feat feat_sig rate lmbd eps random_state entropy X y s' :
  catbird rs ncdf n_feat feat_sig rate lmbd eps random_state entropy = Some ((X, y), s') ->
  y = blocks 0 rate /\ length X = length y /\
  Forall (fun row => length row = Z.to_nat n_feat) X.
Proof.
  intros H. destruct (catbird_inv rs ncdf (fun _ => True) I I (fun _ _ => I) _ _ _ _ _ _ _ _ _ _ H)
    as (Hy & L & F).
  split; [exact Hy|]. split; [exact L|].
  eapply Forall_impl; [|exact F]. intros row [Hr _]. exact Hr.
Qed.

Lemma catbird_labels_any_rate_witness :
  blocks 0 [1; -1; 2] = [0; 2; 2] /\
  exists X s',
    catbird (TestRNG.fixed 0.5) TestRNG.cdf_half 2 [2; 1; 1] [1; -1; 2] 0.5 0.25 (SeedInt 0) 0
      = Some ((X, [0; 2; 2]), s') /\
    [0; 2; 2] = blocks 0 [1; -1; 2] /\ length X = length [0; 2; 2] /\
    Forall (fun row => length row = Z.to_nat 2) X.
Proof.
  split; [reflexivity|].
  exists [[0; 0]; [0; 0]; [0; 0]], 19.
  split; [vm_compute; reflexivity|].
  apply (catbird_labels_any_rate (TestRNG.fixed 0.5) TestRNG.cdf_half 2 [2; 1; 1] [1; -1; 2]
           0.5 0.25 (SeedInt 0) 0 _ _ 19).
  vm_compute. reflexivity.
Defined.

(** When the generator's [binomial(1, p)] draws are [0] or [1], every entry
    of the [X] that [catbird] returns is [0] or [1]: the noise bits, and the
    [1 if x < thr else 0] written at the indices of the cluster. *)
Theorem catbird_entries_binary {St} (rs : RandomState St) (ncdf : float -> float)
    n_feat feat_sig rate lmbd eps random_state entropy X y s' :
  (forall p s, fst (rs_binomial rs 1 p s) = 0 \/ fst (rs_binomial rs 1 p s) = 1) ->
  catbird rs ncdf n_feat feat_sig rate lmbd eps random_state entropy = Some ((X, y), s') ->
  Forall (Forall (fun v => v = 0 \/ v = 1)) X.
Proof.
  intros Hb H.
  destruct (catbird_inv rs ncdf (fun v => v = 0 \/ v = 1) (or_introl eq_refl)
              (or_intror eq_refl) Hb _ _ _ _ _ _ _ _ _ _ H) as (_ & _ & F).
  eapply Forall_impl; [|exact F]. intros row [_ Hr]. exact Hr.
Qed.

Lemma catbird_entries_binary_witness :
  Forall (Forall (fun v => v = 0 \/ v = 1)) [[1; 1]; [1; 0]; [1; 0]].
Proof.
  apply (catbird_entries_binary (TestRNG.fixed 0.5) TestRNG.cdf_half 2 [2; 1; 1] [1; -1; 2]
           0.75 0.25 (SeedInt 0) 0 _ [0; 2; 2] 19).
  - intros p s. left. reflexivity.
  - vm_compute. reflexivity.
Defined.

(** On arguments passing its checks, [canard] runs to its end exactly when
    every entry of [rate] is an int, a bool or another object with
    [__index__] (a [numpy.int64], say); a float, list or [None] entry
    raises the TypeError of [range(m)]. *)
Theorem canard_runs_iff_rate_entries_ints {St} (rs : RandomState St) n_feat n_cat rv lmbd eps
    random_state entropy :
  choice_ok rs -> valid_seed random_state -> 1 < n_feat < 2 ^ 53 -> 1 < n_cat ->
  1 <= lmbd <= 2 ^ 1023 -> (0 <=? eps)%float && (eps <=? 1)%float = true ->
  (canard_py rs (PyInt n_feat) (PyInt n_cat) (PyList rv) (PyInt lmbd) (PyFloat eps)
     random_state entropy <> None <->
   Forall (fun v => as_index v <> None) rv).
Proof.
  intros Hc Hseed Hn Hcat Hl He. split.
  - intros Hrun.
    destruct (canard_py rs _ _ _ _ _ random_state entropy) as [[[X y] s']|] eqn:E;
      [|contradiction].
    destruct (canard_py_inv rs _ _ _ _ _ _ _ _ _ _ E)
      as (nf & nc & rv' & lm & e & edges & s & rows & y0 & s1 &
          Enf & Enc & Erv & Elm & Ee & _ & _ & _ & _ & Ecl & _ & _).
    injection Erv as <-. injection Enf as <-. injection Elm as <-. injection Ee as <-.
    destruct (canard_clusters_inv rs edges (fun _ => True) (fun _ _ _ => I) _ _ _ _ _ _ _ _ _ _ _
                Ecl) as (zs & _ & Hzs & _).
    apply Forall_forall. intros v Hv.
    assert (Hin : In (as_index v) (map Some zs)) by (rewrite <- Hzs; apply in_map; exact Hv).
    apply in_map_iff in Hin as (z & Hz & _). rewrite <- Hz. discriminate.
  - intros Hrv. apply andb_prop in He as He'. destruct He' as [He0 He1].
    destruct (resolve_ok rs random_state entropy Hseed) as [s0 Hs0].
    unfold canard_py. rewrite Hs0. unfold canard_body, py_assert, bind.
    cbn [lift as_int as_list as_float]. unfold ret.
    rewrite (proj2 (Z.ltb_lt 1 n_feat)), (proj2 (Z.ltb_lt 1 n_cat)), (proj2 (Z.leb_le 1 lmbd))
      by lia.
    rewrite He.
    destruct (bins_some n_cat ltac:(lia)) as [edges Hedges]. rewrite (lift_some _ _ _ Hedges).
    destruct (canard_clusters_runs rs n_feat lmbd eps edges Hc ltac:(lia) ltac:(lia) He0 He1
                rv (-1) [] [] s0 Hrv) as ([rows y] & s' & E).
    rewrite E. discriminate.
Qed.

Lemma canard_runs_iff_rate_entries_ints_witness :
  canard_py (TestRNG.fixed 0.5) (PyInt 2) (PyInt 2)
    (PyList [PyInt 1; PyBool true; PyIndexObj 2; PyFloat 2])
    (PyInt 10) (PyFloat 0.75) (SeedInt 0) 0 <> None <->
  Forall (fun v => as_index v <> None) [PyInt 1; PyBool true; PyIndexObj 2; PyFloat 2].
Proof.
  apply canard_runs_iff_rate_entries_ints.
  - apply fixed_choice_ok.
  - cbn. lia.
  - lia.
  - lia.
  - lia.
  - reflexivity.
Defined.

(** Whenever [canard] returns [(X, y)], the entries of [rate] are values
    [range] accepts, with index values [m_0, m_1, ...] (an int itself, a
    bool [0] or [1], another object its [__index__]), and [y] is [m_0]
    labels [0], then [m_1] labels [1], and so on, a count [m_i <= 0] giving
    no row; [X] has one row of [n_feat] entries per label. *)
Theorem canard_labels_any_rate {St} (rs : RandomState St) n_feat n_cat rv lmbd eps
    random_state entropy X y s' :
  canard_py rs (PyInt n_feat) n_cat (PyList rv) lmbd eps random_state entropy
    = Some ((X, y), s') ->
  exists zs, map as_index rv = map Some zs /\ y = blocks 0 zs /\ length X = length y /\
    Forall (fun row => length row = Z.to_nat n_feat) X.
Proof.
  intros H.
  destruct (canard_py_inv rs _ _ _ _ _ _ _ _ _ _ H)
    as (nf & nc & rv' & lm & e & edges & s & rows & y0 & s1 &
        Enf & _ & Erv & _ & _ & _ & _ & _ & _ & Ecl & -> & ->).
  injection Erv as <-. injection Enf as <-.
  destruct (canard_clusters_inv rs edges (fun _ => True) (fun _ _ _ => I) _ _ _ _ _ _ _ _ _ _ _
              Ecl) as (zs & rows' & Hzs & -> & -> & L & F).
  exists zs. cbn. split; [exact Hzs|]. split; [reflexivity|].
  split; [rewrite length_map; exact L|].
  rewrite Forall_map. eapply Forall_impl; [|exact F]. intros row [Hr _].
  rewrite length_map. exact Hr.
Qed.

Lemma canard_labels_any_rate_witness :
  exists X s',
    canard_py (TestRNG.fixed 0.5) (PyInt 2) (PyInt 2)
      (PyList [PyBool true; PyInt (-1); PyIndexObj 2])
      (PyInt 10) (PyFloat 0.75) (SeedInt 0) 0 = Some ((X, [0; 2; 2]), s') /\
    exists zs, map as_index [PyBool true; PyInt (-1); PyIndexObj 2] = map Some zs /\
      [0; 2; 2] = blocks 0 zs /\ length X = length [0; 2; 2] /\
      Forall (fun row => length row = Z.to_nat 2) X.
Proof.
  exists [[0; 0]; [0; 0]; [0; 0]], 9.
  split; [vm_compute; reflexivity|].
  apply (canard_labels_any_rate (TestRNG.fixed 0.5) 2 (PyInt 2)
           [PyBool true; PyInt (-1); PyIndexObj 2] (PyInt 10) (PyFloat 0.75) (SeedInt 0) 0
           _ _ 9).
  vm_compute. reflexivity.
Defined.

(** When the generator's Beta draws lie in [(0, 1]], every entry of the
    [X] that [canard] returns is a category [0 .. n_cat-1]. *)
Theorem canard_entries_in_categories {St} (rs : RandomState St) n_feat n_cat rate lmbd eps
    random_state entropy X y s' :
  (forall a b s, (0 <? fst (rs_beta rs a b s))%float = true /\
                 (fst (rs_beta rs a b s) <=? 1)%float = true) ->
  canard_py rs n_feat (PyInt n_cat) rate lmbd eps random_state entropy = Some ((X, y), s') ->
  Forall (Forall (fun v => 0 <= v < n_cat)) X.
Proof.
  intros Hbeta H.
  destruct (canard_py_inv rs _ _ _ _ _ _ _ _ _ _ H)
    as (nf & nc & rv & lm & e & edges & s & rows & y0 & s1 &
        _ & Enc & _ & _ & _ & _ & Hnc & _ & Hedges & Ecl & -> & _).
  injection Enc as <-.
  destruct (canard_bins_cut n_cat Hnc) as (edges' & Hedges' & Hcut).
  rewrite Hedges in Hedges'. injection Hedges' as <-.
  destruct (canard_clusters_inv rs edges (fun o => exists c, o = Some c /\ 0 <= c < n_cat)
              ltac:(intros a b s0; apply Hcut; apply Hbeta) _ _ _ _ _ _ _ _ _ _ _ Ecl)
    as (zs & rows' & _ & -> & _ & _ & F).
  cbn. rewrite Forall_map. eapply Forall_impl; [|exact F]. intros row [_ Hr].
  rewrite Forall_map. eapply Forall_impl; [|exact Hr]. intros o (c & -> & Hc). exact Hc.
Qed.

Lemma canard_entries_in_categories_witness :
  Forall (Forall (fun v => 0 <= v < 3)) [[1; 1]; [1; 1]].
Proof.
  apply (canard_entries_in_categories (TestRNG.fixed 0.5) (PyInt 2) 3 (PyList [PyInt 2])
           (PyInt 10) (PyFloat 0.75) (SeedInt 0) 0 _ [0; 0] 5).
  - intros a b s. split; reflexivity.
  - vm_compute. reflexivity.
Defined.

(** [canard] accepts every int [lmbd >= 1], with no upper bound: past its
    checks the call is the cluster loop, and when no feature is controlled
    ([int(n_feat*(1-eps)) = 0], as for [eps = 1.0]) it returns whatever
    [lmbd]. The loop converts [lmbd] to a float in [lmbd * random_sample()]:
    from [lmbd >= 2^1024] on, [float(lmbd)] raises OverflowError, so the
    shape draws of any non-empty subset raise, and so does the call when
    [rate] is non-empty and at least one feature is controlled. *)
Theorem canard_huge_lmbd_overflows {St} (rs : RandomState St) n_feat n_cat rv lmbd eps
    random_state entropy s0 :
  choice_ok rs -> resolve rs random_state entropy = Some s0 ->
  1 < n_feat < 2 ^ 53 -> 1 < n_cat -> 1 <= lmbd ->
  (0 <=? eps)%float && (eps <=? 1)%float = true ->
  (exists edges, bins n_cat = Some edges /\
     canard_py rs (PyInt n_feat) (PyInt n_cat) (PyList rv) (PyInt lmbd) (PyFloat eps)
       random_state entropy
     = bind (canard_clusters rs n_feat lmbd eps edges rv (-1) [] [])
            (fun '(X, y) => ret (map (map int64_of_cut) X, y)) s0) /\
  (controlled_size n_feat eps = Some 0 -> Forall (fun v => as_index v <> None) rv ->
   canard_py rs (PyInt n_feat) (PyInt n_cat) (PyList rv) (PyInt lmbd) (PyFloat eps)
     random_state entropy <> None) /\
  (2 ^ 1024 <= lmbd ->
   float_of_int lmbd = None /\
   (forall i idx a b s, set_shapes rs lmbd (i :: idx) a b s = None) /\
   (rv <> [] -> controlled_size n_feat eps <> Some 0 ->
    canard_py rs (PyInt n_feat) (PyInt n_cat) (PyList rv) (PyInt lmbd) (PyFloat eps)
      random_state entropy = None)).
Proof.
  intros Hc Hs0 Hn Hcat Hl He.
  apply andb_prop in He as He'. destruct He' as [He0 He1].
  destruct (bins_some n_cat ltac:(lia)) as [edges Hedges].
  assert (Hcall :
    canard_py rs (PyInt n_feat) (PyInt n_cat) (PyList rv) (PyInt lmbd) (PyFloat eps)
      random_state entropy
    = bind (canard_clusters rs n_feat lmbd eps edges rv (-1) [] [])
           (fun '(X, y) => ret (map (map int64_of_cut) X, y)) s0).
  { unfold canard_py. rewrite Hs0. unfold canard_body, py_assert, bind.
    cbn [lift as_int as_list as_float]. unfold ret.
    rewrite (proj2 (Z.ltb_lt 1 n_feat)), (proj2 (Z.ltb_lt 1 n_cat)),
      (proj2 (Z.leb_le 1 lmbd)) by lia.
    rewrite He. rewrite (lift_some _ _ _ Hedges). reflexivity. }
  split; [exists edges; split; [exact Hedges|exact Hcall]|].
  split.
  - intros Hsz0 Hrv. rewrite Hcall.
    destruct (canard_clusters_runs_size0 rs n_feat lmbd eps edges Hc ltac:(lia) Hsz0 rv (-1) [] [] s0 Hrv)
      as ([rows y] & s' & E).
    unfold bind. rewrite E. discriminate.
  - intros Hbig.
    assert (Hf : float_of_int lmbd = None) by (apply float_of_int_overflow; exact Hbig).
    assert (Hss : forall i idx a b s, set_shapes rs lmbd (i :: idx) a b s = None).
    { intros i idx a b s. cbn [set_shapes]. unfold bind, random_sample, lift, raise.
      rewrite Hf. destruct (rs_random_sample rs s). reflexivity. }
    split; [exact Hf|]. split; [exact Hss|].
    intros Hrv Hsz0. rewrite Hcall.
    destruct rv as [|v rv']; [contradiction|].
    assert (Hcl : canard_clusters rs n_feat lmbd eps edges (v :: rv') (-1) [] [] s0 = None).
    { cbn [canard_clusters]. unfold bind at 1.
      destruct (controlled_size_range n_feat eps ltac:(lia) He0 He1) as (sz & Hsz & Hszr).
      rewrite (lift_some _ _ _ Hsz). unfold bind at 1. unfold choice at 1.
      destruct (Hc n_feat sz s0 ltac:(lia)) as (idx & s1 & E1 & L1 & F1). rewrite E1.
      destruct idx as [|i idx'].
      - exfalso. cbn in L1. apply Hsz0. rewrite Hsz. f_equal. lia.
      - unfold bind at 1. rewrite Hss. reflexivity. }
    unfold bind. rewrite Hcl. reflexivity.
Qed.

Lemma canard_huge_lmbd_overflows_witness :
  (exists edges, bins 2 = Some edges /\
     canard_py (TestRNG.fixed 0.5) (PyInt 2) (PyInt 2) (PyList [PyInt 1]) (PyInt (2 ^ 1024))
       (PyFloat 0) (SeedInt 0) 0
     = bind (canard_clusters (TestRNG.fixed 0.5) 2 (2 ^ 1024) 0 edges [PyInt 1] (-1) [] [])
            (fun '(X, y) => ret (map (map int64_of_cut) X, y)) 0) /\
  (controlled_size 2 0 = Some 0 -> Forall (fun v => as_index v <> None) [PyInt 1] ->
   canard_py (TestRNG.fixed 0.5) (PyInt 2) (PyInt 2) (PyList [PyInt 1]) (PyInt (2 ^ 1024))
     (PyFloat 0) (SeedInt 0) 0 <> None) /\
  (2 ^ 1024 <= 2 ^ 1024 ->
   float_of_int (2 ^ 1024) = None /\
   (forall i idx a b s, set_shapes (TestRNG.fixed 0.5) (2 ^ 1024) (i :: idx) a b s = None) /\
   ([PyInt 1] <> [] -> controlled_size 2 0 <> Some 0 ->
    canard_py (TestRNG.fixed 0.5) (PyInt 2) (PyInt 2) (PyList [PyInt 1]) (PyInt (2 ^ 1024))
      (PyFloat 0) (SeedInt 0) 0 = None)).
Proof.
  apply canard_huge_lmbd_overflows.
  - apply fixed_choice_ok.
  - reflexivity.
  - lia.
  - lia.
  - lia.
  - reflexivity.
Defined.

End GenExtras.
